(** * hpkl: the dependency resolver of [pkg/app] (resolver.go)

    A shallow embedding of the resolution-and-fetch engine: the package
    model, the two transports ([OciResolver], [HttpResolver]) and the
    [Resolver] methods [MajorVersionPackage], [Deduplicate], [Resolve] and
    [Exists].

    Go maps are [gmap string _].  A [for ... range m] statement visits the
    entries of [m] in an order chosen by the Go runtime; that choice is an
    effect of the runtime ([go_range]) and every theorem below holds for
    every choice.  Network, registry and file-system calls are effects on
    an abstract [World].  Functions of packages that are not part of
    resolver.go (net/url, Masterminds/semver, encoding/json, crypto/sha256,
    hpkl's own pklutils and registry packages) are operations of the
    classes [Libs] and [Runtime]. *)

From Stdlib Require Import ZArith NArith Lia Ascii String.
From stdpp Require Import base option list gmap fin_maps strings.

Local Open Scope string_scope.

(** ** Go prelude *)

(** Go [error] values.  [os.Stat] reports a missing file as an error for
    which [errors.Is(err, os.ErrNotExist)] holds; every other error is
    carried with its message. *)
Inductive error : Type :=
  | ErrNotExist
  | ErrPermission
  | errorString (msg : string).

(** [errors.Is(err, os.ErrNotExist)] on an optional error ([None] is [nil]). *)
Definition errors_Is_ErrNotExist (err : option error) : bool :=
  match err with
  | Some ErrNotExist => true
  | _ => false
  end.

(** The three ways a Go call ends: a value, a returned [error], a panic. *)
Inductive outcome (A : Type) : Type :=
  | Ok (a : A)
  | Err (e : error)
  | Panic (msg : string).
Arguments Ok {A} a.
Arguments Err {A} e.
Arguments Panic {A} msg.

Definition is_Ok {A} (o : outcome A) : Prop := ∃ a, o = Ok a.
Definition is_Err {A} (o : outcome A) : Prop := ∃ e, o = Err e.

Module GoStrings.

(** [strings.HasPrefix] *)
Fixpoint HasPrefix (s p : string) : bool :=
  match p, s with
  | EmptyString, _ => true
  | String c p', String d s' => if Ascii.eqb c d then HasPrefix s' p' else false
  | String _ _, EmptyString => false
  end.

(** [strings.Contains] *)
Fixpoint Contains (s sub : string) : bool :=
  if HasPrefix s sub then true
  else match s with
       | EmptyString => false
       | String _ s' => Contains s' sub
       end.

Fixpoint drop (n : nat) (s : string) : string :=
  match n, s with
  | O, _ => s
  | S n', String _ s' => drop n' s'
  | S _, EmptyString => EmptyString
  end.

(** [strings.HasSuffix] *)
Definition HasSuffix (s suffix : string) : bool :=
  (String.length suffix <=? String.length s)%nat
  && String.eqb (drop (String.length s - String.length suffix) s) suffix.

(** [strings.Replace(s, old, new, 1)] for a non-empty [old]: the first
    occurrence of [old] is replaced. *)
Fixpoint Replace1 (s old new : string) : string :=
  if HasPrefix s old then new ++ drop (String.length old) s
  else match s with
       | EmptyString => EmptyString
       | String c s' => String c (Replace1 s' old new)
       end.

Definition hex_digit (d : N) : ascii :=
  match d with
  | 0 => "0" | 1 => "1" | 2 => "2" | 3 => "3" | 4 => "4" | 5 => "5"
  | 6 => "6" | 7 => "7" | 8 => "8" | 9 => "9" | 10 => "a" | 11 => "b"
  | 12 => "c" | 13 => "d" | 14 => "e" | _ => "f"
  end%N%char.

Fixpoint fmt_base (fuel : nat) (base n : N) (acc : string) : string :=
  match fuel with
  | O => acc
  | S fuel' =>
      let acc' := String (hex_digit (n mod base)) acc in
      if (n / base =? 0)%N then acc' else fmt_base fuel' base (n / base) acc'
  end.

(** [fmt.Sprintf("%x", n)] and [fmt.Sprintf("%d", n)] on an unsigned
    integer. *)
Definition fmt_x (n : N) : string := fmt_base (S (N.to_nat (N.log2 n))) 16 n EmptyString.
Definition fmt_d (n : N) : string := fmt_base (S (N.to_nat (N.log2 n))) 10 n EmptyString.

Definition hex_byte (b : Byte.byte) : string :=
  let n := Byte.to_N b in
  String (hex_digit (n / 16)) (String (hex_digit (n mod 16)) EmptyString).

(** [hex.EncodeToString] *)
Definition hex_EncodeToString (bs : list Byte.byte) : string :=
  fold_right (fun b acc => hex_byte b ++ acc) EmptyString bs.

End GoStrings.

(** ** Package model (resolver.go, lines 21-88) *)

Inductive ResolverType : Type := OCI | HTTP.

Record Checksums : Type := { Sha256 : string }.

Record Dependency : Type := {
  Uri : string;
  dep_Checksums : option Checksums;
  dep_Name : string;
  ProjectFileUri : string;
}.

Record Metadata : Type := {
  Name : string;
  PackageUri : string;
  Version : string;
  PackageZipUrl : string;
  PackageZipChecksums : Checksums;
  Authors : list string;
  Dependencies : gmap string Dependency;
  (* fields tagged [json:"-"] *)
  meta_ResolverType : ResolverType;
  PlainHttp : bool;
  Checksum : string;
  Source : list Byte.byte;
}.

(** [net/url.URL], the fields that [Parse] fills and [String] prints. *)
Record URL : Type := {
  Scheme : string;
  Opaque : string;
  User : option string;
  Host : string;
  Path : string;
  RawPath : string;
  ForceQuery : bool;
  RawQuery : string;
  Fragment : string;
}.

Definition set_Scheme (u : URL) (s : string) : URL :=
  {| Scheme := s; Opaque := Opaque u; User := User u; Host := Host u;
     Path := Path u; RawPath := RawPath u; ForceQuery := ForceQuery u;
     RawQuery := RawQuery u; Fragment := Fragment u |}.

Definition set_Path (u : URL) (p : string) : URL :=
  {| Scheme := Scheme u; Opaque := Opaque u; User := User u; Host := Host u;
     Path := p; RawPath := RawPath u; ForceQuery := ForceQuery u;
     RawQuery := RawQuery u; Fragment := Fragment u |}.

Definition set_dep_Name (d : Dependency) (n : string) : Dependency :=
  {| Uri := Uri d; dep_Checksums := dep_Checksums d; dep_Name := n;
     ProjectFileUri := ProjectFileUri d |}.

Definition set_Dependencies (m : Metadata) (ds : gmap string Dependency) : Metadata :=
  {| Name := Name m; PackageUri := PackageUri m; Version := Version m;
     PackageZipUrl := PackageZipUrl m; PackageZipChecksums := PackageZipChecksums m;
     Authors := Authors m; Dependencies := ds;
     meta_ResolverType := meta_ResolverType m; PlainHttp := PlainHttp m;
     Checksum := Checksum m; Source := Source m |}.

(** What [json.Unmarshal] can fill in a [Metadata]: the fields that are not
    tagged [json:"-"].  The tagged fields keep Go's zero values ([OCI] is
    [iota] 0, [false], the empty string, a nil slice). *)
Definition zero_tagged (m : Metadata) : Prop :=
  meta_ResolverType m = OCI ∧ PlainHttp m = false ∧ Checksum m = EmptyString ∧ Source m = [].

Definition clear_tagged (m : Metadata) : Metadata :=
  {| Name := Name m; PackageUri := PackageUri m; Version := Version m;
     PackageZipUrl := PackageZipUrl m; PackageZipChecksums := PackageZipChecksums m;
     Authors := Authors m; Dependencies := Dependencies m;
     meta_ResolverType := OCI; PlainHttp := false; Checksum := EmptyString; Source := [] |}.

(** The assignments to the tagged fields at the end of the two
    [ResolveMetadata] methods. *)
Definition set_ResolverType (m : Metadata) (t : ResolverType) : Metadata :=
  {| Name := Name m; PackageUri := PackageUri m; Version := Version m;
     PackageZipUrl := PackageZipUrl m; PackageZipChecksums := PackageZipChecksums m;
     Authors := Authors m; Dependencies := Dependencies m;
     meta_ResolverType := t; PlainHttp := PlainHttp m;
     Checksum := Checksum m; Source := Source m |}.

Definition set_Source (m : Metadata) (src : list Byte.byte) : Metadata :=
  {| Name := Name m; PackageUri := PackageUri m; Version := Version m;
     PackageZipUrl := PackageZipUrl m; PackageZipChecksums := PackageZipChecksums m;
     Authors := Authors m; Dependencies := Dependencies m;
     meta_ResolverType := meta_ResolverType m; PlainHttp := PlainHttp m;
     Checksum := Checksum m; Source := src |}.

Definition set_PlainHttp (m : Metadata) (b : bool) : Metadata :=
  {| Name := Name m; PackageUri := PackageUri m; Version := Version m;
     PackageZipUrl := PackageZipUrl m; PackageZipChecksums := PackageZipChecksums m;
     Authors := Authors m; Dependencies := Dependencies m;
     meta_ResolverType := meta_ResolverType m; PlainHttp := b;
     Checksum := Checksum m; Source := Source m |}.

Definition set_Checksum (m : Metadata) (sum : string) : Metadata :=
  {| Name := Name m; PackageUri := PackageUri m; Version := Version m;
     PackageZipUrl := PackageZipUrl m; PackageZipChecksums := PackageZipChecksums m;
     Authors := Authors m; Dependencies := Dependencies m;
     meta_ResolverType := meta_ResolverType m; PlainHttp := PlainHttp m;
     Checksum := sum; Source := Source m |}.

(** An [http.Response]: status code, status line, and what [io.ReadAll]
    returns for the body. *)
Record Response : Type := {
  StatusCode : Z;
  Status : string;
  Body : error + list Byte.byte;
}.

(** The result of [registry.Client.Pull]: the metadata layer and the
    archive layer. *)
Record PullResult : Type := {
  pull_Metadata : list Byte.byte;
  pull_Archive : list Byte.byte;
}.

(** Calls of the [Logger] made by the resolver, in the order they are made. *)
Inductive LogEntry : Type :=
  | InfoResolving (name : string) (dependency : Dependency) (proto : ResolverType)
  | ErrorMetadataResolving (name : string) (dependency : Dependency)
  | ErrorParsing (uri : string)
  | ErrorHttpGet (url : string)
  | ErrorJsonUnmarshal (body : list Byte.byte).

(** ** Operations of other packages *)

(** Pure functions the resolver calls: net/url, Masterminds/semver,
    encoding/json, crypto/sha256 and hpkl's pklutils. *)
Class Libs : Type := {
  url_Parse : string → error + URL;
  URL_String : URL → string;
  semver_Version : Type;
  semver_NewVersion : string → error + semver_Version;
  Version_Major : semver_Version → N;
  Version_GreaterThan : semver_Version → semver_Version → bool;
  json_decode : list Byte.byte → error + option Metadata;
  sha256_Sum : list Byte.byte → list Byte.byte;
  PklUriToRef : string → error + string;
  PklGetRelativePath : string → URL → string;
}.

(** Effects: the iteration order of a [range] over a map, [http.Get],
    [registry.Client.Pull] and [os.Stat].  Each takes the state of the
    world and returns the next one. *)
Class Runtime : Type := {
  World : Type;
  registry_Client : Type;
  go_range : ∀ V : Type, gmap string V → World → list (string * V) * World;
  http_Get : string → World → (error + Response) * World;
  registry_Pull :
    registry_Client → string → bool → World → (error + PullResult) * World;
  os_Stat : string → World → option error * World;
}.

(** What the Go specification guarantees of [range] over a map: every entry
    is visited exactly once. *)
Definition range_visits_all {runtime : Runtime} : Prop :=
  ∀ (V : Type) (m : gmap string V) (w : World),
    (go_range V m w).1 ≡ₚ map_to_list m.

(** What makes [GreaterThan] a precedence: it is irreflexive and transitive. *)
Definition precedence_order {libs : Libs} : Prop :=
  (∀ v, Version_GreaterThan v v = false) ∧
  (∀ a b c, Version_GreaterThan a b = true → Version_GreaterThan b c = true →
            Version_GreaterThan a c = true).

(** ** The state a [Resolver] works on, and the monad of its methods *)

Record State {runtime : Runtime} : Type := {
  cache : gmap string Metadata;
  world : World;
  logged : list LogEntry;
}.

Definition M {runtime : Runtime} (A : Type) : Type := State → outcome A * State.

Definition ret {runtime : Runtime} {A} (a : A) : M A := fun st => (Ok a, st).
Definition fail {runtime : Runtime} {A} (e : error) : M A := fun st => (Err e, st).
Definition panic {runtime : Runtime} {A} (msg : string) : M A := fun st => (Panic msg, st).

Definition bind {runtime : Runtime} {A B} (c : M A) (k : A → M B) : M B :=
  fun st =>
    match c st with
    | (Ok a, st') => k a st'
    | (Err e, st') => (Err e, st')
    | (Panic p, st') => (Panic p, st')
    end.

Notation "'let*' x ':=' c 'in' k" := (bind c (fun x => k))
  (at level 10, x name, c at level 100, k at level 200).
Notation "'run' c 'in' k" := (bind c (fun _ => k))
  (at level 10, c at level 100, k at level 200).

Definition with_world {runtime : Runtime} {A} (f : World → A * World) : M A :=
  fun st =>
    let '(a, w) := f (world st) in
    (Ok a, {| cache := cache st; world := w; logged := logged st |}).

Definition log {runtime : Runtime} (e : LogEntry) : M unit :=
  fun st =>
    (Ok tt, {| cache := cache st; world := world st; logged := logged st ++ [e] |}).

Definition cache_store {runtime : Runtime} (uri : string) (m : Metadata) : M unit :=
  fun st =>
    (Ok tt, {| cache := <[uri := m]> (cache st); world := world st;
               logged := logged st |}).

(** [for k, v := range m]: the entries in the order the runtime picks. *)
Definition range {runtime : Runtime} {V} (m : gmap string V) : M (list (string * V)) :=
  with_world (go_range V m).

(** A returned [(value, error)] pair of a library call. *)
Definition lift_result {runtime : Runtime} {A} (r : error + A) : M A :=
  match r with
  | inl e => fail e
  | inr a => ret a
  end.

(** ** Resolver structures *)

Record OciResolver {runtime : Runtime} : Type := {
  client : registry_Client;
  plainClient : registry_Client;
}.

Record HttpResolver : Type := {
  plainHttp : bool;
}.

Record Resolver {runtime : Runtime} : Type := {
  ociResolver : OciResolver;
  httpResolver : HttpResolver;
  basePath : string;
}.

(** ** Package identity and deduplication (resolver.go, lines 112-160) *)

Section Deduplication.
Context {libs : Libs} {runtime : Runtime}.
Import GoStrings.

(** [semver.MustParse]: panics where [semver.NewVersion] returns an error. *)
Definition semver_MustParse (v : string) : outcome semver_Version :=
  match semver_NewVersion v with
  | inl _ => Panic "semver.MustParse: invalid semantic version"
  | inr parsed => Ok parsed
  end.

Definition MajorVersionPackage (metadata : Metadata) : outcome string :=
  match url_Parse (PackageUri metadata) with
  | inl err => Err err
  | inr baseUri =>
      let mapUri := set_Scheme baseUri "package" in
      let mapUri :=
        set_Path mapUri (Replace1 (Path mapUri) ("@" ++ Version metadata) EmptyString) in
      match semver_MustParse (Version metadata) with
      | Ok versionParsed =>
          let majorVersion := "@" ++ fmt_x (Version_Major versionParsed) in
          let mapUri := set_Path mapUri (Path mapUri ++ majorVersion) in
          Ok (URL_String mapUri)
      | Err e => Err e
      | Panic p => Panic p
      end
  end.

(** [dep.Version > exists.Version], both read with [semver.MustParse]. *)
Definition version_gt (dep exists_ : Metadata) : outcome bool :=
  match semver_MustParse (Version dep) with
  | Ok verDep =>
      match semver_MustParse (Version exists_) with
      | Ok verExists => Ok (Version_GreaterThan verDep verExists)
      | Err e => Err e
      | Panic p => Panic p
      end
  | Err e => Err e
  | Panic p => Panic p
  end.

(** The body of the first loop of [Deduplicate] for one [dep]. *)
Definition Deduplicate_visit (versioned : gmap string Metadata) (dep : Metadata)
    : outcome (gmap string Metadata) :=
  match MajorVersionPackage dep with
  | Ok depVersion =>
      match versioned !! depVersion with
      | None => Ok (<[depVersion := dep]> versioned)
      | Some exists_ =>
          match version_gt dep exists_ with
          | Ok true => Ok (<[depVersion := dep]> versioned)
          | Ok false => Ok versioned
          | Err e => Err e
          | Panic p => Panic p
          end
      end
  | Err err => Err err
  | Panic p => Panic p
  end.

(** The first loop, over the entries in the order they are visited. *)
Fixpoint Deduplicate_group (entries : list (string * Metadata))
    (versioned : gmap string Metadata) : outcome (gmap string Metadata) :=
  match entries with
  | [] => Ok versioned
  | (_, dep) :: rest =>
      match Deduplicate_visit versioned dep with
      | Ok versioned' => Deduplicate_group rest versioned'
      | Err e => Err e
      | Panic p => Panic p
      end
  end.

(** The second loop: [result[dep.PackageUri] = dep]. *)
Fixpoint Deduplicate_rekey (entries : list (string * Metadata))
    (result : gmap string Metadata) : gmap string Metadata :=
  match entries with
  | [] => result
  | (_, dep) :: rest => Deduplicate_rekey rest (<[PackageUri dep := dep]> result)
  end.

Definition lift_outcome {A} (o : outcome A) : M A := fun st => (o, st).

Definition Deduplicate (dependecies : gmap string Metadata)
    : M (gmap string Metadata) :=
  let* entries := range dependecies in
  let* versioned := lift_outcome (Deduplicate_group entries ∅) in
  let* survivors := range versioned in
  ret (Deduplicate_rekey survivors ∅).

End Deduplication.

(** ** Transports (resolver.go, lines 312-439) *)

Section Transports.
Context {libs : Libs} {runtime : Runtime}.
Import GoStrings.

(** [json.Unmarshal(data, &metadata)] into a nil [*Metadata]: an error, a
    nil pointer (the document [null]), or a fresh [Metadata] whose tagged
    fields are untouched. *)
Definition json_Unmarshal (data : list Byte.byte) : error + option Metadata :=
  match json_decode data with
  | inl e => inl e
  | inr None => inr None
  | inr (Some m) => inr (Some (clear_tagged m))
  end.

Definition nil_dereference : string :=
  "invalid memory address or nil pointer dereference".

(** The client [OciResolver] picks for a flag. *)
Definition pick_client (r : OciResolver) (plain : bool) : registry_Client :=
  if plain then plainClient r else client r.

Definition OciResolver_ResolveMetadata (r : OciResolver) (uri : string)
    (plainHttp : bool) : M Metadata :=
  let* ref := lift_result (PklUriToRef uri) in
  let client := pick_client r plainHttp in
  let* pulled := with_world (registry_Pull client ref false) in
  let* result := lift_result pulled in
  let* decoded := lift_result (json_Unmarshal (pull_Metadata result)) in
  match decoded with
  | None => panic nil_dereference
  | Some metadata =>
      let metadata := set_ResolverType metadata OCI in
      let metadata := set_Source metadata (pull_Metadata result) in
      let metadata :=
        set_Checksum metadata
          (hex_EncodeToString (sha256_Sum (pull_Metadata result))) in
      ret metadata
  end.

Definition OciResolver_ResolveArchive (r : OciResolver) (metadata : Metadata)
    : M (list Byte.byte) :=
  let* ref := lift_result (PklUriToRef (PackageUri metadata)) in
  let client := pick_client r (PlainHttp metadata) in
  let* pulled := with_world (registry_Pull client ref true) in
  let* result := lift_result pulled in
  ret (pull_Archive result).

Definition HttpResolver_ResolveMetadata (r : HttpResolver) (uri : string)
    (plainHttp_arg : bool) : M Metadata :=
  match url_Parse uri with
  | inl err => run log (ErrorParsing uri) in fail err
  | inr u =>
      let u := set_Scheme u (if plainHttp r || plainHttp_arg then "http" else "https") in
      let* got := with_world (http_Get (URL_String u)) in
      match got with
      | inl err => run log (ErrorHttpGet (URL_String u)) in fail err
      | inr resp =>
          if (StatusCode resp >? 300)%Z
          then fail (errorString ("Http get Error status: " ++ Status resp))
          else
            let* body := lift_result (Body resp) in
            match json_Unmarshal body with
            | inl err => run log (ErrorJsonUnmarshal body) in fail err
            | inr None => panic nil_dereference
            | inr (Some metadata) =>
                let metadata := set_ResolverType metadata HTTP in
                let metadata := set_Source metadata body in
                let metadata := set_PlainHttp metadata plainHttp_arg in
                let metadata :=
                  set_Checksum metadata (hex_EncodeToString (sha256_Sum body)) in
                ret metadata
            end
      end
  end.

Definition HttpResolver_ResolveArchive (r : HttpResolver) (metadata : Metadata)
    : M (list Byte.byte) :=
  let* got := with_world (http_Get (PackageZipUrl metadata)) in
  let* resp := lift_result got in
  let* body := lift_result (Body resp) in
  ret body.

End Transports.

(** ** Resolution engine and cache check (resolver.go, lines 162-230) *)

Section Engine.
Context {libs : Libs} {runtime : Runtime}.
Import GoStrings.

(** The [DependencyResolver] chosen for an alias, with its protocol. *)
Definition select_proto (dependencyName : string) : ResolverType :=
  if HasSuffix dependencyName ".oci" then OCI else HTTP.

Definition ResolveMetadata_with (r : Resolver) (proto : ResolverType)
    (uri : string) (plain : bool) : M Metadata :=
  match proto with
  | OCI => OciResolver_ResolveMetadata (ociResolver r) uri plain
  | HTTP => HttpResolver_ResolveMetadata (httpResolver r) uri plain
  end.

(** [for metadataName, metadataDep := range metadata.Dependencies]: the
    name of every dependency is set from its key. *)
Fixpoint backfill_names (entries : list (string * Dependency))
    (deps : gmap string Dependency) : gmap string Dependency :=
  match entries with
  | [] => deps
  | (metadataName, metadataDep) :: rest =>
      backfill_names rest (<[metadataName := set_dep_Name metadataDep metadataName]> deps)
  end.

(** [for u, d := range subs { result[u] = d }] *)
Fixpoint merge_into (entries : list (string * Metadata))
    (result : gmap string Metadata) : gmap string Metadata :=
  match entries with
  | [] => result
  | (u, d) :: rest => merge_into rest (<[u := d]> result)
  end.

(** A call that may need more recursion depth than it was given. *)
Definition MF (A : Type) : Type := State → option (outcome A * State).

(** The body of the loop of [Resolve] for one [dependency]; [Resolve_rec]
    is the recursive call [r.Resolve]. *)
Definition Resolve_visit
    (Resolve_rec : gmap string Dependency → MF (gmap string Metadata))
    (r : Resolver) (dependency : Dependency) (result : gmap string Metadata)
    : MF (gmap string Metadata) :=
  fun st =>
    let dependencyName := dep_Name dependency in
    match cache st !! Uri dependency with
    | None =>
        let proto := select_proto dependencyName in
        let plain := Contains dependencyName ".plain" in
        let fetch : M Metadata :=
          run log (InfoResolving dependencyName dependency proto) in
          ResolveMetadata_with r proto (Uri dependency) plain in
        match fetch st with
        | (Err err, st1) =>
            Some ((run log (ErrorMetadataResolving dependencyName dependency) in
                   fail err) st1)
        | (Panic p, st1) => Some (Panic p, st1)
        | (Ok metadata, st1) =>
            let prepare : M (Metadata * gmap string Metadata) :=
              let* entries := range (Dependencies metadata) in
              let metadata :=
                set_Dependencies metadata
                  (backfill_names entries (Dependencies metadata)) in
              run cache_store (Uri dependency) metadata in
              ret (metadata, <[Uri dependency := metadata]> result) in
            match prepare st1 with
            | (Ok (metadata, result), st2) =>
                if (0 <? size (Dependencies metadata))%nat then
                  match Resolve_rec (Dependencies metadata) st2 with
                  | None => None
                  | Some (Ok subs, st3) =>
                      Some ((let* entries := range subs in
                             ret (merge_into entries result)) st3)
                  | Some (Err err, st3) => Some (Err err, st3)
                  | Some (Panic p, st3) => Some (Panic p, st3)
                  end
                else Some (Ok result, st2)
            | (Err err, st2) => Some (Err err, st2)
            | (Panic p, st2) => Some (Panic p, st2)
            end
        end
    | Some metadata => Some (Ok (<[Uri dependency := metadata]> result), st)
    end.

(** The loop of [Resolve] over the entries in the order they are visited. *)
Fixpoint Resolve_loop
    (Resolve_rec : gmap string Dependency → MF (gmap string Metadata))
    (r : Resolver) (entries : list (string * Dependency))
    (result : gmap string Metadata) : MF (gmap string Metadata) :=
  fun st =>
    match entries with
    | [] => Some (Ok result, st)
    | (_, dependency) :: rest =>
        match Resolve_visit Resolve_rec r dependency result st with
        | None => None
        | Some (Ok result', st') => Resolve_loop Resolve_rec r rest result' st'
        | Some (Err err, st') => Some (Err err, st')
        | Some (Panic p, st') => Some (Panic p, st')
        end
    end.

(** [Resolve], with [depth] bounding the nesting of recursive calls;
    [None] means the bound was too small. *)
Fixpoint Resolve (depth : nat) (r : Resolver)
    (dependencies : gmap string Dependency) : MF (gmap string Metadata) :=
  fun st =>
    match depth with
    | O => None
    | S depth' =>
        match range dependencies st with
        | (Ok entries, st') => Resolve_loop (Resolve depth' r) r entries ∅ st'
        | (Err err, st') => Some (Err err, st')
        | (Panic p, st') => Some (Panic p, st')
        end
    end.

Definition Exists (r : Resolver) (metadata : Metadata) : M bool :=
  match url_Parse (PackageUri metadata) with
  | inl err => fail err
  | inr baseUri =>
      let basePath := PklGetRelativePath (basePath r) baseUri in
      let* err := with_world (os_Stat basePath) in
      if errors_Is_ErrNotExist err then ret false else ret true
  end.

End Engine.

(** ** Executable instances of the library and runtime operations

    Used to run the resolver on concrete inputs.  [url_parse] follows
    net/url on URLs without percent-escapes, user information, ports or
    IPv6 literals (it rejects a percent sign instead of decoding it);
    [semver_parse] follows Masterminds/semver on release versions
    [MAJOR[.MINOR[.PATCH]]] with an optional leading [v] (it rejects
    pre-release and build suffixes).  Documents, web pages, registry
    artifacts and [os.Stat] results are given by tables. *)

Module Instances.
Import GoStrings.

Fixpoint assoc {A} (k : string) (l : list (string * A)) : option A :=
  match l with
  | [] => None
  | (k', a) :: rest => if String.eqb k k' then Some a else assoc k rest
  end.

(** *** net/url *)

Definition is_ctl (c : ascii) : bool :=
  let n := N_of_ascii c in ((n <? 32) || (n =? 127))%N.

Fixpoint has_byte (p : ascii → bool) (s : string) : bool :=
  match s with
  | EmptyString => false
  | String c s' => p c || has_byte p s'
  end.

(** [strings.Cut(s, sep)] for a one-byte separator. *)
Fixpoint cut (sep : ascii) (s : string) : string * option string :=
  match s with
  | EmptyString => (EmptyString, None)
  | String c s' =>
      if Ascii.eqb c sep then (EmptyString, Some s')
      else let '(before, after) := cut sep s' in (String c before, after)
  end.

Definition is_letter (c : ascii) : bool :=
  let n := N_of_ascii c in
  ((97 <=? n) && (n <=? 122) || (65 <=? n) && (n <=? 90))%N.

Definition is_scheme_extra (c : ascii) : bool :=
  let n := N_of_ascii c in
  ((48 <=? n) && (n <=? 57) || (n =? 43) || (n =? 45) || (n =? 46))%N.

Definition to_lower (c : ascii) : ascii :=
  let n := N_of_ascii c in
  if ((65 <=? n) && (n <=? 90))%N then ascii_of_N (n + 32) else c.

Fixpoint lower (s : string) : string :=
  match s with
  | EmptyString => EmptyString
  | String c s' => String (to_lower c) (lower s')
  end.

(** [getScheme]: [inl] is the error, [inr (scheme, rest)] the split; the
    scan gives up ([None]) where there is no scheme. *)
Fixpoint scan_scheme (first : bool) (s : string) : error + option (string * string) :=
  match s with
  | EmptyString => inr None
  | String c s' =>
      if is_letter c then
        match scan_scheme false s' with
        | inr (Some (sch, rest)) => inr (Some (String c sch, rest))
        | other => other
        end
      else if is_scheme_extra c then
        if first then inr None
        else match scan_scheme false s' with
             | inr (Some (sch, rest)) => inr (Some (String c sch, rest))
             | other => other
             end
      else if Ascii.eqb c ":" then
        if first then inl (errorString "missing protocol scheme")
        else inr (Some (EmptyString, s'))
      else inr None
  end.

Definition getScheme (rawURL : string) : error + (string * string) :=
  match scan_scheme true rawURL with
  | inl e => inl e
  | inr None => inr (EmptyString, rawURL)
  | inr (Some (sch, rest)) => inr (sch, rest)
  end.

Definition url_parse (rawURL : string) : error + URL :=
  let '(u, frag) := cut "#" rawURL in
  if has_byte is_ctl u then inl (errorString "net/url: invalid control character in URL")
  else if has_byte (Ascii.eqb "%") rawURL then inl (errorString "invalid URL escape")
  else
    match getScheme u with
    | inl e => inl e
    | inr (scheme, rest) =>
        let scheme := lower scheme in
        let '(rest, query) := cut "?" rest in
        let force := match query with Some EmptyString => true | _ => false end in
        let query := default EmptyString query in
        let frag := default EmptyString frag in
        if negb (HasPrefix rest "/") && negb (String.eqb scheme EmptyString) then
          inr {| Scheme := scheme; Opaque := rest; User := None; Host := EmptyString;
                 Path := EmptyString; RawPath := EmptyString; ForceQuery := force;
                 RawQuery := query; Fragment := frag |}
        else if negb (HasPrefix rest "/")
                && has_byte (Ascii.eqb ":") (cut "/" rest).1 then
          inl (errorString "first path segment in URL cannot contain colon")
        else if HasPrefix rest "//" then
          let '(authority, tail) := cut "/" (drop 2 rest) in
          let path := match tail with Some t => String "/" t | None => EmptyString end in
          inr {| Scheme := scheme; Opaque := EmptyString; User := None; Host := authority;
                 Path := path; RawPath := EmptyString; ForceQuery := force;
                 RawQuery := query; Fragment := frag |}
        else
          inr {| Scheme := scheme; Opaque := EmptyString; User := None; Host := EmptyString;
                 Path := rest; RawPath := EmptyString; ForceQuery := force;
                 RawQuery := query; Fragment := frag |}
    end.

Definition url_string (u : URL) : string :=
  let scheme := if String.eqb (Scheme u) EmptyString then EmptyString else Scheme u ++ ":" in
  let body :=
    if negb (String.eqb (Opaque u) EmptyString) then Opaque u
    else
      let authority :=
        if negb (String.eqb (Scheme u) EmptyString) || negb (String.eqb (Host u) EmptyString)
           || bool_decide (is_Some (User u))
        then
          (if negb (String.eqb (Host u) EmptyString) || negb (String.eqb (Path u) EmptyString)
              || bool_decide (is_Some (User u))
           then "//" else EmptyString)
          ++ match User u with Some ui => ui ++ "@" | None => EmptyString end
          ++ Host u
        else EmptyString in
      let slash :=
        if negb (String.eqb (Path u) EmptyString) && negb (HasPrefix (Path u) "/")
           && negb (String.eqb (Host u) EmptyString)
        then "/" else EmptyString in
      let dot :=
        if String.eqb (scheme ++ authority ++ slash) EmptyString
           && has_byte (Ascii.eqb ":") (cut "/" (Path u)).1
        then "./" else EmptyString in
      authority ++ slash ++ dot ++ Path u in
  let query :=
    if ForceQuery u || negb (String.eqb (RawQuery u) EmptyString)
    then "?" ++ RawQuery u else EmptyString in
  let frag := if String.eqb (Fragment u) EmptyString then EmptyString else "#" ++ Fragment u in
  scheme ++ body ++ query ++ frag.

(** *** Masterminds/semver, release versions *)

Definition is_digit (c : ascii) : bool :=
  let n := N_of_ascii c in ((48 <=? n) && (n <=? 57))%N.

Fixpoint digits_value (s : string) (acc : N) : option N :=
  match s with
  | EmptyString => Some acc
  | String c s' =>
      if is_digit c then digits_value s' (acc * 10 + (N_of_ascii c - 48))%N
      else None
  end.

(** A segment [0|[1-9]\d*] that fits 64 bits. *)
Definition parse_segment (s : string) : option N :=
  match s with
  | EmptyString => None
  | String c s' =>
      if Ascii.eqb c "0" && negb (String.eqb s' EmptyString) then None
      else match digits_value s 0 with
           | Some n => if (n <? 2 ^ 64)%N then Some n else None
           | None => None
           end
  end.

Record release : Type := { major : N; minor : N; patch : N }.

Definition invalid_semver : error := errorString "invalid semantic version".

Definition semver_parse (v : string) : error + release :=
  let v := match v with String "v" v' => v' | _ => v end in
  let '(ma, rest) := cut "." v in
  let '(mi, pa) :=
    match rest with
    | None => (Some "0", Some "0")
    | Some rest =>
        let '(mi, pa) := cut "." rest in
        (Some mi, match pa with None => Some "0" | Some pa => Some pa end)
    end in
  match parse_segment ma, mi ≫= parse_segment, pa ≫= parse_segment with
  | Some a, Some b, Some c => inr {| major := a; minor := b; patch := c |}
  | _, _, _ => inl invalid_semver
  end.

Definition release_gt (a b : release) : bool :=
  ((major b <? major a)
   || (major a =? major b)
      && ((minor b <? minor a)
          || (minor a =? minor b) && (patch b <? patch a)))%N.

(** *** Tables for documents and for the world *)

Definition table_decode (docs : list (string * option Metadata))
    (data : list Byte.byte) : error + option Metadata :=
  match assoc (string_of_list_byte data) docs with
  | Some doc => inr doc
  | None => inl (errorString "invalid character looking for beginning of value")
  end.

(** hpkl's [pklutils.PklUriToRef] is not part of resolver.go: here it
    drops the [package://] prefix. *)
Definition uri_to_ref (uri : string) : error + string :=
  if HasPrefix uri "package://" then inr (drop 10 uri)
  else inl (errorString "unsupported package uri").

Definition relative_path (base : string) (u : URL) : string :=
  base ++ "/" ++ Host u ++ Path u.

#[export] Instance table_Libs (docs : list (string * option Metadata)) : Libs := {
  url_Parse := url_parse;
  URL_String := url_string;
  semver_Version := release;
  semver_NewVersion := semver_parse;
  Version_Major := major;
  Version_GreaterThan := release_gt;
  json_decode := table_decode docs;
  sha256_Sum := fun _ => [];
  PklUriToRef := uri_to_ref;
  PklGetRelativePath := relative_path;
}.

Inductive client_id : Type := default_client | plain_client.

(** A world that never changes: pages by URL, artifacts by reference,
    [os.Stat] results by path; maps are visited in key order. *)
#[export] Instance table_Runtime (web : list (string * Response))
    (registry : list (string * PullResult))
    (disk : list (string * option error)) : Runtime := {
  World := unit;
  registry_Client := client_id;
  go_range := fun V m w => (map_to_list m, w);
  http_Get := fun url w =>
    (match assoc url web with
     | Some resp => inr resp
     | None => inl (errorString "dial tcp: no such host")
     end, w);
  registry_Pull := fun _ ref _ w =>
    (match assoc ref registry with
     | Some res => inr res
     | None => inl (errorString "manifest unknown")
     end, w);
  os_Stat := fun path w => (default (Some ErrNotExist) (assoc path disk), w);
}.

End Instances.

(** * Properties *)

(** ** Transports *)

Section TransportFacts.
Context {libs : Libs} {runtime : Runtime}.
Import GoStrings.

Definition set_world (st : State) (w : World) : State :=
  {| cache := cache st; world := w; logged := logged st |}.

Definition add_log (st : State) (e : LogEntry) : State :=
  {| cache := cache st; world := world st; logged := logged st ++ [e] |}.

(** The URL [HttpResolver.ResolveMetadata] requests for a parsed [uri]. *)
Definition request_url (r : HttpResolver) (u : URL) (plainHttp_arg : bool) : string :=
  URL_String (set_Scheme u (if plainHttp r || plainHttp_arg then "http" else "https")).

(** A status above 300 ends [HttpResolver.ResolveMetadata] with an error
    that carries the status line; the cache and the log are untouched. *)
Lemma HttpResolver_ResolveMetadata_status_above_300
    (r : HttpResolver) (uri : string) (plain : bool) (st : State)
    (u : URL) (resp : Response) (w' : World) :
  url_Parse uri = inr u →
  http_Get (request_url r u plain) (world st) = (inr resp, w') →
  (300 < StatusCode resp)%Z →
  HttpResolver_ResolveMetadata r uri plain st
  = (Err (errorString ("Http get Error status: " ++ Status resp)), set_world st w').
Proof.
  intros Hparse Hget Hstatus.
  unfold HttpResolver_ResolveMetadata, request_url in *.
  rewrite Hparse. unfold bind, with_world. rewrite Hget. cbn.
  destruct (Z.gtb_spec (StatusCode resp) 300) as [_|Hle]; [reflexivity | lia].
Qed.

(** The metadata [HttpResolver.ResolveMetadata] builds from a decoded
    document. *)
Definition http_metadata (doc : Metadata) (plain : bool) (body : list Byte.byte)
    : Metadata :=
  set_Checksum
    (set_PlainHttp (set_Source (set_ResolverType (clear_tagged doc) HTTP) body) plain)
    (hex_EncodeToString (sha256_Sum body)).

(** A status of at most 300 passes the check of line 395: the body is
    read and decoded. *)
Lemma HttpResolver_ResolveMetadata_status_up_to_300
    (r : HttpResolver) (uri : string) (plain : bool) (st : State)
    (u : URL) (resp : Response) (w' : World) (body : list Byte.byte)
    (doc : Metadata) :
  url_Parse uri = inr u →
  http_Get (request_url r u plain) (world st) = (inr resp, w') →
  (StatusCode resp <= 300)%Z →
  Body resp = inr body →
  json_decode body = inr (Some doc) →
  HttpResolver_ResolveMetadata r uri plain st
  = (Ok (http_metadata doc plain body), set_world st w').
Proof.
  intros Hparse Hget Hstatus Hbody Hdoc.
  unfold HttpResolver_ResolveMetadata, request_url in *.
  rewrite Hparse. unfold bind, with_world. rewrite Hget. cbn.
  destruct (Z.gtb_spec (StatusCode resp) 300) as [Hgt|_]; [lia |].
  rewrite Hbody. cbn. unfold json_Unmarshal. rewrite Hdoc. reflexivity.
Qed.

(** C3, at the status the code lets through: a response with status 300
    is not treated as a failure.  [HttpResolver.ResolveMetadata] returns
    the decoded metadata and no error, where the claim asks for an error. *)
Theorem HttpResolver_ResolveMetadata_accepts_300
    (r : HttpResolver) (uri : string) (plain : bool) (st : State)
    (u : URL) (resp : Response) (w' : World) (body : list Byte.byte)
    (doc : Metadata) :
  url_Parse uri = inr u →
  http_Get (request_url r u plain) (world st) = (inr resp, w') →
  StatusCode resp = 300%Z →
  Body resp = inr body →
  json_decode body = inr (Some doc) →
  HttpResolver_ResolveMetadata r uri plain st
  = (Ok (http_metadata doc plain body), set_world st w').
Proof.
  intros Hparse Hget Hstatus Hbody Hdoc.
  eapply HttpResolver_ResolveMetadata_status_up_to_300; eauto. lia.
Qed.

(** C8: [HttpResolver.ResolveArchive] returns the body of whatever
    response the GET against [PackageZipUrl] produced: its outcome is what
    reading the body gives.  Neither the status code nor
    [PackageZipChecksums] is looked at. *)
Theorem HttpResolver_ResolveArchive_ignores_status
    (r : HttpResolver) (metadata : Metadata) (st : State)
    (resp : Response) (w' : World) :
  http_Get (PackageZipUrl metadata) (world st) = (inr resp, w') →
  HttpResolver_ResolveArchive r metadata st
  = (match Body resp with
     | inr body => Ok body
     | inl err => Err err
     end, set_world st w').
Proof.
  intros Hget.
  unfold HttpResolver_ResolveArchive, bind, with_world.
  rewrite Hget. cbn. destruct (Body resp) as [err|body]; reflexivity.
Qed.

(** [OciResolver.ResolveArchive] with the client fixed to [c]. *)
Definition pull_archive_with (c : registry_Client) (metadata : Metadata)
    : M (list Byte.byte) :=
  let* ref := lift_result (PklUriToRef (PackageUri metadata)) in
  let* pulled := with_world (registry_Pull c ref true) in
  let* result := lift_result pulled in
  ret (pull_Archive result).

(** Decoding leaves the fields tagged [json:"-"] at their zero values. *)
Lemma json_Unmarshal_zero_tagged (data : list Byte.byte) (m : Metadata) :
  json_Unmarshal data = inr (Some m) → zero_tagged m.
Proof.
  unfold json_Unmarshal. destruct (json_decode data) as [e|[doc|]]; try discriminate.
  intros [= <-]. repeat split.
Qed.

(** C10: the metadata [OciResolver.ResolveMetadata] returns has
    [PlainHttp = false] whatever its [plainHttp] argument was, so
    [OciResolver.ResolveArchive] on it pulls with [r.client], never with
    [r.plainClient]. *)
Theorem OciResolver_ResolveMetadata_leaves_PlainHttp
    (r : OciResolver) (uri : string) (plainHttp_arg : bool)
    (st st' : State) (metadata : Metadata) :
  OciResolver_ResolveMetadata r uri plainHttp_arg st = (Ok metadata, st') →
  PlainHttp metadata = false
  ∧ pick_client r (PlainHttp metadata) = client r
  ∧ ∀ st2, OciResolver_ResolveArchive r metadata st2
           = pull_archive_with (client r) metadata st2.
Proof.
  intros Hrun.
  assert (Hplain : PlainHttp metadata = false).
  { unfold OciResolver_ResolveMetadata, bind, with_world, lift_result in Hrun.
    destruct (PklUriToRef uri) as [e|ref]; cbn in Hrun; [discriminate |].
    destruct (registry_Pull _ ref false (world st)) as [[e|result] w1];
      cbn in Hrun; [discriminate |].
    unfold json_Unmarshal in Hrun.
    destruct (json_decode (pull_Metadata result)) as [e|[doc|]];
      cbn in Hrun; try discriminate.
    injection Hrun as <- _. reflexivity. }
  split; [exact Hplain |].
  split; [rewrite Hplain; reflexivity |].
  intros st2. unfold OciResolver_ResolveArchive, pull_archive_with.
  rewrite Hplain. reflexivity.
Qed.

End TransportFacts.

(** ** The cache check *)

Section ExistsFacts.
Context {libs : Libs} {runtime : Runtime}.

Lemma Exists_parsed (r : Resolver) (metadata : Metadata) (u : URL) (st : State) :
  url_Parse (PackageUri metadata) = inr u →
  Exists r metadata st
  = (let '(err, w) := os_Stat (PklGetRelativePath (basePath r) u) (world st) in
     (Ok (negb (errors_Is_ErrNotExist err)), set_world st w)).
Proof.
  intros Hparse. unfold Exists, bind, with_world. rewrite Hparse.
  destruct (os_Stat _ _) as [err w]. cbn.
  destruct (errors_Is_ErrNotExist err); reflexivity.
Qed.

(** C9: with a parseable [PackageUri], [Exists] never returns an error,
    and a failure of [os.Stat] that is not "does not exist" (a permission
    error, say) is reported as [(true, nil)]. *)
Theorem Exists_reports_stat_failure_as_cached
    (r : Resolver) (metadata : Metadata) (u : URL) :
  url_Parse (PackageUri metadata) = inr u →
  (∀ st, ∃ b st', Exists r metadata st = (Ok b, st'))
  ∧ (∀ st e w',
       os_Stat (PklGetRelativePath (basePath r) u) (world st) = (Some e, w') →
       e ≠ ErrNotExist →
       Exists r metadata st = (Ok true, set_world st w')).
Proof.
  intros Hparse. split.
  - intros st. rewrite (Exists_parsed _ _ _ _ Hparse).
    destruct (os_Stat _ _) as [err w]. eauto.
  - intros st e w' Hstat Hne. rewrite (Exists_parsed _ _ _ _ Hparse), Hstat.
    destruct e; [contradiction | reflexivity | reflexivity].
Qed.

End ExistsFacts.

(** ** Package identity *)

Section IdentityFacts.
Context {libs : Libs}.
Import GoStrings.

(** The key [MajorVersionPackage] builds from a parsed URI and version. *)
Definition identity_key (baseUri : URL) (version : string) (major : N) : string :=
  URL_String
    (set_Path (set_Scheme baseUri "package")
       (Replace1 (Path baseUri) ("@" ++ version) EmptyString ++ "@" ++ fmt_x major)).

(** [MajorVersionPackage] appends the major component printed by [%x],
    that is, in base 16. *)
Lemma MajorVersionPackage_parsed (metadata : Metadata) (u : URL) (v : semver_Version) :
  url_Parse (PackageUri metadata) = inr u →
  semver_NewVersion (Version metadata) = inr v →
  MajorVersionPackage metadata
  = Ok (identity_key u (Version metadata) (Version_Major v)).
Proof.
  intros Hu Hv. unfold MajorVersionPackage, semver_MustParse.
  rewrite Hu, Hv. reflexivity.
Qed.

Lemma MajorVersionPackage_Ok_inv (metadata : Metadata) (key : string) :
  MajorVersionPackage metadata = Ok key →
  ∃ u v, url_Parse (PackageUri metadata) = inr u
         ∧ semver_NewVersion (Version metadata) = inr v.
Proof.
  unfold MajorVersionPackage, semver_MustParse. intros Hk.
  destruct (url_Parse (PackageUri metadata)) as [e|u]; [discriminate |].
  destruct (semver_NewVersion (Version metadata)) as [e|v]; [discriminate |].
  eauto.
Qed.

(** [MajorVersionPackage] never returns an error for a version: the only
    error it returns is the one of [url.Parse]. *)
Lemma MajorVersionPackage_Err_inv (metadata : Metadata) (e : error) :
  MajorVersionPackage metadata = Err e →
  url_Parse (PackageUri metadata) = inl e.
Proof.
  unfold MajorVersionPackage, semver_MustParse. intros Hk.
  destruct (url_Parse (PackageUri metadata)) as [e'|u]; [congruence |].
  destruct (semver_NewVersion (Version metadata)) as [e'|v]; discriminate.
Qed.

Lemma MajorVersionPackage_Panic_inv (metadata : Metadata) (msg : string) :
  MajorVersionPackage metadata = Panic msg →
  (∃ u, url_Parse (PackageUri metadata) = inr u)
  ∧ ∃ e, semver_NewVersion (Version metadata) = inl e.
Proof.
  unfold MajorVersionPackage, semver_MustParse. intros Hk.
  destruct (url_Parse (PackageUri metadata)) as [e'|u]; [discriminate |].
  destruct (semver_NewVersion (Version metadata)) as [e'|v]; [eauto | discriminate].
Qed.

End IdentityFacts.

(** ** Deduplication *)

Section DeduplicateFacts.
Context {libs : Libs} {runtime : Runtime}.

(** The entries a loop has visited. *)
Definition visits {V} (entries : list (string * V)) (v : V) : Prop :=
  ∃ k, (k, v) ∈ entries.

Lemma visits_range {V} (m : gmap string V) (entries : list (string * V)) (v : V) :
  entries ≡ₚ map_to_list m →
  visits entries v ↔ ∃ k, m !! k = Some v.
Proof.
  intros Hperm. unfold visits. split; intros [k Hk]; exists k.
  - apply elem_of_map_to_list. by rewrite <- Hperm.
  - rewrite Hperm. by apply elem_of_map_to_list.
Qed.

Lemma visits_cons {V} (k : string) (v v' : V) (rest : list (string * V)) :
  visits ((k, v) :: rest) v' ↔ v' = v ∨ visits rest v'.
Proof.
  unfold visits. split.
  - intros [k' Hk']. apply elem_of_cons in Hk' as [Heq|Hin].
    + left. congruence.
    + right. eauto.
  - intros [->|[k' Hk']].
    + exists k. apply elem_of_cons. by left.
    + exists k'. apply elem_of_cons. by right.
Qed.

Lemma visits_nil {V} (v : V) : ¬ visits (@nil (string * V)) v.
Proof. intros [k Hk]. by apply elem_of_nil in Hk. Qed.

(** *** The grouping loop *)

(** [versioned] holds one visited entry per package line, under the key
    of that line. *)
Definition one_per_line (seen : Metadata → Prop) (versioned : gmap string Metadata)
    : Prop :=
  (∀ key m, versioned !! key = Some m → seen m ∧ MajorVersionPackage m = Ok key)
  ∧ (∀ m, seen m → ∃ key, MajorVersionPackage m = Ok key ∧ is_Some (versioned !! key)).

(** No visited entry of a line has a greater version than the entry kept
    for the line. *)
Definition none_greater (seen : Metadata → Prop) (versioned : gmap string Metadata)
    : Prop :=
  ∀ key m m', versioned !! key = Some m → seen m' →
              MajorVersionPackage m' = Ok key → version_gt m' m = Ok false.

Lemma version_gt_parsed (a b : Metadata) (va vb : semver_Version) :
  semver_NewVersion (Version a) = inr va →
  semver_NewVersion (Version b) = inr vb →
  version_gt a b = Ok (Version_GreaterThan va vb).
Proof.
  intros Ha Hb. unfold version_gt, semver_MustParse. by rewrite Ha, Hb.
Qed.

Lemma version_gt_keyed (a b : Metadata) (ka kb : string) :
  MajorVersionPackage a = Ok ka → MajorVersionPackage b = Ok kb →
  ∃ va vb, semver_NewVersion (Version a) = inr va
           ∧ semver_NewVersion (Version b) = inr vb
           ∧ version_gt a b = Ok (Version_GreaterThan va vb).
Proof.
  intros Ha Hb.
  apply MajorVersionPackage_Ok_inv in Ha as (ua & va & _ & Hva).
  apply MajorVersionPackage_Ok_inv in Hb as (ub & vb & _ & Hvb).
  exists va, vb. eauto using version_gt_parsed.
Qed.

(** What one visit does, once the key of [dep] is known. *)
Lemma Deduplicate_visit_Ok_inv (versioned versioned' : gmap string Metadata)
    (dep : Metadata) :
  Deduplicate_visit versioned dep = Ok versioned' →
  ∃ key, MajorVersionPackage dep = Ok key
    ∧ ((versioned !! key = None ∧ versioned' = <[key := dep]> versioned)
       ∨ (∃ kept, versioned !! key = Some kept ∧ version_gt dep kept = Ok true
                  ∧ versioned' = <[key := dep]> versioned)
       ∨ (∃ kept, versioned !! key = Some kept ∧ version_gt dep kept = Ok false
                  ∧ versioned' = versioned)).
Proof.
  unfold Deduplicate_visit. intros Hv.
  destruct (MajorVersionPackage dep) as [key|e|p]; try discriminate.
  exists key. split; [done |].
  destruct (versioned !! key) as [kept|] eqn:Hk.
  - destruct (version_gt dep kept) as [[|]|e|p] eqn:Hgt; try discriminate;
      injection Hv as <-; eauto 10.
  - injection Hv as <-. eauto.
Qed.

Lemma one_per_line_visit (seen : Metadata → Prop)
    (versioned versioned' : gmap string Metadata) (dep : Metadata) :
  Deduplicate_visit versioned dep = Ok versioned' →
  one_per_line seen versioned →
  one_per_line (λ m, m = dep ∨ seen m) versioned'.
Proof.
  intros Hv [Hkept Hseen].
  apply Deduplicate_visit_Ok_inv in Hv as (key & Hkey & Hcases).
  assert (Hins : one_per_line (λ m, m = dep ∨ seen m) (<[key := dep]> versioned)).
  { split.
    - intros k m Hm. destruct (decide (key = k)) as [<-|Hne].
      + rewrite lookup_insert_eq in Hm. injection Hm as <-. eauto.
      + rewrite lookup_insert_ne in Hm by done.
        apply Hkept in Hm as [? ?]. eauto.
    - intros m [->|Hm].
      + exists key. rewrite lookup_insert_eq. eauto.
      + destruct (Hseen m Hm) as (k & Hk & Hsome). exists k. split; [done |].
        destruct (decide (key = k)) as [<-|Hne].
        * rewrite lookup_insert_eq. eauto.
        * by rewrite lookup_insert_ne. }
  destruct Hcases as [[_ ->]|[(kept & _ & _ & ->)|(kept & Hk & _ & ->)]];
    [done | done |].
  split.
  - intros k m Hm. apply Hkept in Hm as [? ?]. eauto.
  - intros m [->|Hm]; [| by apply Hseen].
    exists key. rewrite Hk. eauto.
Qed.

Lemma none_greater_visit (seen : Metadata → Prop)
    (versioned versioned' : gmap string Metadata) (dep : Metadata) :
  precedence_order →
  Deduplicate_visit versioned dep = Ok versioned' →
  one_per_line seen versioned →
  none_greater seen versioned →
  none_greater (λ m, m = dep ∨ seen m) versioned'.
Proof.
  intros [Hirr Htrans] Hv [Hkept Hseen] Hmax.
  apply Deduplicate_visit_Ok_inv in Hv as (key & Hkey & Hcases).
  assert (Hself : version_gt dep dep = Ok false).
  { destruct (version_gt_keyed _ _ _ _ Hkey Hkey) as (va & vb & Ha & Hb & ->).
    assert (va = vb) as -> by congruence. by rewrite Hirr. }
  destruct Hcases as [[Hnone ->]|[(kept & Hk & Hgt & ->)|(kept & Hk & Hgt & ->)]].
  - intros k m m' Hm Hm' Hkm'. destruct (decide (key = k)) as [<-|Hne].
    + rewrite lookup_insert_eq in Hm. injection Hm as <-.
      destruct Hm' as [->|Hm']; [done |].
      destruct (Hseen m' Hm') as (k' & Hk' & Hsome).
      assert (k' = key) as -> by congruence.
      rewrite Hnone in Hsome. by destruct Hsome.
    + rewrite lookup_insert_ne in Hm by done.
      destruct Hm' as [->|Hm']; [congruence | eauto].
  - intros k m m' Hm Hm' Hkm'. destruct (decide (key = k)) as [<-|Hne].
    + rewrite lookup_insert_eq in Hm. injection Hm as <-.
      destruct Hm' as [->|Hm']; [done |].
      pose proof (Hmax _ _ _ Hk Hm' Hkm') as Hle.
      destruct (Hkept _ _ Hk) as [_ Hkk].
      destruct (version_gt_keyed _ _ _ _ Hkm' Hkey) as (v' & vd & Hv' & Hvd & ->).
      destruct (version_gt_keyed _ _ _ _ Hkey Hkk) as (vd' & vk & Hvd' & Hvk & Hdk).
      destruct (version_gt_keyed _ _ _ _ Hkm' Hkk) as (v'' & vk' & Hv'' & Hvk' & Hmk).
      assert (vd' = vd) as -> by congruence.
      assert (v'' = v') as -> by congruence.
      assert (vk' = vk) as -> by congruence.
      rewrite Hdk in Hgt. rewrite Hmk in Hle.
      injection Hgt as Hgt. injection Hle as Hle.
      destruct (Version_GreaterThan v' vd) eqn:Hcmp; [| done].
      rewrite (Htrans _ _ _ Hcmp Hgt) in Hle. discriminate.
    + rewrite lookup_insert_ne in Hm by done.
      destruct Hm' as [->|Hm']; [congruence | eauto].
  - intros k m m' Hm Hm' Hkm'. destruct Hm' as [->|Hm']; [| eauto].
    assert (k = key) as -> by congruence.
    assert (m = kept) as -> by congruence. done.
Qed.

Lemma one_per_line_ext (seen seen' : Metadata → Prop) (versioned : gmap string Metadata) :
  (∀ m, seen m ↔ seen' m) → one_per_line seen versioned → one_per_line seen' versioned.
Proof.
  intros Hext [Hkept Hseen]. split.
  - intros k m Hm. apply Hkept in Hm as [? ?]. split; [by apply Hext | done].
  - intros m Hm. apply Hseen. by apply Hext.
Qed.

Lemma none_greater_ext (seen seen' : Metadata → Prop) (versioned : gmap string Metadata) :
  (∀ m, seen m ↔ seen' m) → none_greater seen versioned → none_greater seen' versioned.
Proof.
  intros Hext Hmax k m m' Hm Hm' Hk. eapply Hmax; eauto. by apply Hext.
Qed.

Lemma Deduplicate_group_one_per_line (entries : list (string * Metadata)) :
  ∀ (seen : Metadata → Prop) (versioned versioned' : gmap string Metadata),
    Deduplicate_group entries versioned = Ok versioned' →
    one_per_line seen versioned →
    one_per_line (λ m, visits entries m ∨ seen m) versioned'.
Proof.
  induction entries as [|[k dep] rest IH]; intros seen versioned versioned' Hrun Hinv.
  - injection Hrun as <-. eapply one_per_line_ext; [| exact Hinv].
    intros m. split; [eauto | intros [Hm|Hm]; [by apply visits_nil in Hm | done]].
  - cbn in Hrun.
    destruct (Deduplicate_visit versioned dep) as [v1|e|p] eqn:Hvisit; try discriminate.
    pose proof (one_per_line_visit _ _ _ _ Hvisit Hinv) as Hinv1.
    pose proof (IH _ _ _ Hrun Hinv1) as Hinv2.
    eapply one_per_line_ext; [| exact Hinv2].
    intros m. rewrite visits_cons. tauto.
Qed.

Lemma Deduplicate_group_none_greater (entries : list (string * Metadata)) :
  precedence_order →
  ∀ (seen : Metadata → Prop) (versioned versioned' : gmap string Metadata),
    Deduplicate_group entries versioned = Ok versioned' →
    one_per_line seen versioned →
    none_greater seen versioned →
    none_greater (λ m, visits entries m ∨ seen m) versioned'.
Proof.
  intros Hord.
  induction entries as [|[k dep] rest IH];
    intros seen versioned versioned' Hrun Hinv Hmax.
  - injection Hrun as <-. eapply none_greater_ext; [| exact Hmax].
    intros m. split; [eauto | intros [Hm|Hm]; [by apply visits_nil in Hm | done]].
  - cbn in Hrun.
    destruct (Deduplicate_visit versioned dep) as [v1|e|p] eqn:Hvisit; try discriminate.
    pose proof (one_per_line_visit _ _ _ _ Hvisit Hinv) as Hinv1.
    pose proof (none_greater_visit _ _ _ _ Hord Hvisit Hinv Hmax) as Hmax1.
    pose proof (IH _ _ _ Hrun Hinv1 Hmax1) as Hmax2.
    eapply none_greater_ext; [| exact Hmax2].
    intros m. rewrite visits_cons. tauto.
Qed.

(** The loop succeeds when every visited entry has a key. *)
Lemma Deduplicate_group_total (entries : list (string * Metadata)) :
  ∀ (seen : Metadata → Prop) (versioned : gmap string Metadata),
    one_per_line seen versioned →
    (∀ m, visits entries m → is_Ok (MajorVersionPackage m)) →
    is_Ok (Deduplicate_group entries versioned).
Proof.
  induction entries as [|[k dep] rest IH]; intros seen versioned Hinv Hall.
  - by eexists.
  - cbn. destruct (Hall dep) as [key Hkey]; [apply visits_cons; by left |].
    assert (∃ v1, Deduplicate_visit versioned dep = Ok v1) as [v1 Hv1].
    { unfold Deduplicate_visit. rewrite Hkey.
      destruct (versioned !! key) as [kept|] eqn:Hk; [| eauto].
      destruct Hinv as [Hkept _]. destruct (Hkept _ _ Hk) as [_ Hkk].
      destruct (version_gt_keyed _ _ _ _ Hkey Hkk) as (va & vb & _ & _ & ->).
      destruct (Version_GreaterThan va vb); eauto. }
    rewrite Hv1. eapply IH.
    + eapply one_per_line_visit; eauto.
    + intros m Hm. apply Hall. apply visits_cons. by right.
Qed.

Lemma version_gt_not_Err (a b : Metadata) (e : error) : version_gt a b ≠ Err e.
Proof.
  unfold version_gt, semver_MustParse.
  destruct (semver_NewVersion (Version a)); [done |].
  destruct (semver_NewVersion (Version b)); done.
Qed.

(** The error the loop returns is the [url.Parse] error of a visited entry. *)
Lemma Deduplicate_group_Err_inv (entries : list (string * Metadata)) :
  ∀ (versioned : gmap string Metadata) (e : error),
    Deduplicate_group entries versioned = Err e →
    ∃ m, visits entries m ∧ url_Parse (PackageUri m) = inl e.
Proof.
  induction entries as [|[k dep] rest IH]; intros versioned e Hrun; [discriminate |].
  cbn in Hrun.
  destruct (Deduplicate_visit versioned dep) as [v1|e1|p] eqn:Hvisit; try discriminate.
  - destruct (IH _ _ Hrun) as (m & Hm & He). exists m. split; [| done].
    apply visits_cons. by right.
  - injection Hrun as ->. exists dep. split; [apply visits_cons; by left |].
    unfold Deduplicate_visit in Hvisit.
    destruct (MajorVersionPackage dep) as [key|e1|p] eqn:Hkey; try discriminate.
    + destruct (versioned !! key) as [kept|]; [| discriminate].
      destruct (version_gt dep kept) as [[|]|e1|p] eqn:Hgt; try discriminate.
      injection Hvisit as ->. by apply version_gt_not_Err in Hgt.
    + injection Hvisit as ->. by apply MajorVersionPackage_Err_inv.
Qed.

(** The loop panics only at a visited entry whose URI parses and whose
    version does not. *)
Lemma Deduplicate_group_Panic_inv (entries : list (string * Metadata)) :
  ∀ (seen : Metadata → Prop) (versioned : gmap string Metadata) (msg : string),
    one_per_line seen versioned →
    Deduplicate_group entries versioned = Panic msg →
    ∃ m, visits entries m ∧ (∃ u, url_Parse (PackageUri m) = inr u)
         ∧ ∃ e, semver_NewVersion (Version m) = inl e.
Proof.
  induction entries as [|[k dep] rest IH]; intros seen versioned msg Hinv Hrun;
    [discriminate |].
  cbn in Hrun.
  destruct (Deduplicate_visit versioned dep) as [v1|e1|p] eqn:Hvisit; try discriminate.
  - pose proof (one_per_line_visit _ _ _ _ Hvisit Hinv) as Hinv1.
    destruct (IH _ _ _ Hinv1 Hrun) as (m & Hm & He). exists m. split; [| done].
    apply visits_cons. by right.
  - exists dep. split; [apply visits_cons; by left |].
    unfold Deduplicate_visit in Hvisit.
    destruct (MajorVersionPackage dep) as [key|e1|p1] eqn:Hkey; try discriminate.
    + destruct (versioned !! key) as [kept|] eqn:Hk; [| discriminate].
      destruct Hinv as [Hkept _]. destruct (Hkept _ _ Hk) as [_ Hkk].
      destruct (version_gt_keyed _ _ _ _ Hkey Hkk) as (va & vb & _ & _ & Hgt).
      rewrite Hgt in Hvisit. destruct (Version_GreaterThan va vb); discriminate.
    + by apply MajorVersionPackage_Panic_inv in Hkey.
Qed.

Lemma one_per_line_empty : one_per_line (λ _, False) ∅.
Proof.
  split.
  - intros k m Hm. by rewrite lookup_empty in Hm.
  - intros m [].
Qed.

Lemma none_greater_empty : none_greater (λ _, False) ∅.
Proof. intros k m m' Hm. by rewrite lookup_empty in Hm. Qed.

(** *** The re-keying loop *)

Lemma Deduplicate_rekey_lookup (entries : list (string * Metadata)) :
  ∀ (result : gmap string Metadata) (k : string) (m : Metadata),
    Deduplicate_rekey entries result !! k = Some m →
    (k = PackageUri m ∧ visits entries m) ∨ result !! k = Some m.
Proof.
  induction entries as [|[k0 dep] rest IH]; intros result k m Hm; [by right |].
  cbn in Hm. apply IH in Hm as [[-> Hv]|Hm].
  - left. split; [done |]. apply visits_cons. by right.
  - destruct (decide (PackageUri dep = k)) as [<-|Hne].
    + rewrite lookup_insert_eq in Hm. injection Hm as <-.
      left. split; [done |]. apply visits_cons. by left.
    + rewrite lookup_insert_ne in Hm by done. by right.
Qed.

Lemma Deduplicate_rekey_keeps (entries : list (string * Metadata)) :
  ∀ (result : gmap string Metadata) (k : string),
    is_Some (result !! k) → is_Some (Deduplicate_rekey entries result !! k).
Proof.
  induction entries as [|[k0 dep] rest IH]; intros result k Hk; [done |].
  cbn. apply IH. destruct (decide (PackageUri dep = k)) as [<-|Hne].
  - rewrite lookup_insert_eq. eauto.
  - by rewrite lookup_insert_ne.
Qed.

Lemma Deduplicate_rekey_covers (entries : list (string * Metadata)) :
  ∀ (result : gmap string Metadata) (m : Metadata),
    visits entries m → is_Some (Deduplicate_rekey entries result !! PackageUri m).
Proof.
  induction entries as [|[k0 dep] rest IH]; intros result m Hm;
    [by apply visits_nil in Hm |].
  cbn. apply visits_cons in Hm as [->|Hm]; [| by apply IH].
  apply Deduplicate_rekey_keeps. rewrite lookup_insert_eq. eauto.
Qed.

(** *** [Deduplicate] as its two loops *)

Lemma Deduplicate_unfold (dependecies : gmap string Metadata) (st : State) :
  Deduplicate dependecies st
  = (let '(entries, w1) := go_range Metadata dependecies (world st) in
     match Deduplicate_group entries ∅ with
     | Ok versioned =>
         let '(survivors, w2) := go_range Metadata versioned w1 in
         (Ok (Deduplicate_rekey survivors ∅), set_world st w2)
     | Err e => (Err e, set_world st w1)
     | Panic p => (Panic p, set_world st w1)
     end).
Proof.
  unfold Deduplicate, bind, range, with_world, lift_outcome, ret.
  destruct (go_range Metadata dependecies (world st)) as [entries w1]. cbn.
  destruct (Deduplicate_group entries ∅) as [versioned|e|p]; try reflexivity.
  cbn. destruct (go_range Metadata versioned w1) as [survivors w2]. reflexivity.
Qed.

(** The two steps of the specification: one entry of greatest version per
    package line, then the survivors under their [PackageUri]. *)
Definition grouped_by_major (dependecies versioned : gmap string Metadata) : Prop :=
  (∀ key m, versioned !! key = Some m →
     (∃ u, dependecies !! u = Some m)
     ∧ MajorVersionPackage m = Ok key
     ∧ ∀ u' m', dependecies !! u' = Some m' → MajorVersionPackage m' = Ok key →
                version_gt m' m = Ok false)
  ∧ (∀ u m, dependecies !! u = Some m →
       ∃ key, MajorVersionPackage m = Ok key ∧ is_Some (versioned !! key)).

Definition rekeyed_by_PackageUri (versioned result : gmap string Metadata) : Prop :=
  (∀ k m, result !! k = Some m → k = PackageUri m ∧ ∃ key, versioned !! key = Some m)
  ∧ (∀ key m, versioned !! key = Some m → is_Some (result !! PackageUri m)).

Lemma Deduplicate_Ok_inv (dependecies result : gmap string Metadata) (st st' : State) :
  range_visits_all →
  Deduplicate dependecies st = (Ok result, st') →
  ∃ entries versioned survivors,
    entries ≡ₚ map_to_list dependecies
    ∧ Deduplicate_group entries ∅ = Ok versioned
    ∧ survivors ≡ₚ map_to_list versioned
    ∧ result = Deduplicate_rekey survivors ∅.
Proof.
  intros Hrange Hrun. rewrite Deduplicate_unfold in Hrun.
  pose proof (Hrange Metadata dependecies (world st)) as Hp1.
  destruct (go_range Metadata dependecies (world st)) as [entries w1]. cbn in Hp1.
  destruct (Deduplicate_group entries ∅) as [versioned|e|p] eqn:Hgroup;
    try discriminate.
  pose proof (Hrange Metadata versioned w1) as Hp2.
  destruct (go_range Metadata versioned w1) as [survivors w2]. cbn in Hp2.
  injection Hrun as <- _. eauto 10.
Qed.

Lemma rekeyed_of_loop (versioned : gmap string Metadata)
    (survivors : list (string * Metadata)) :
  survivors ≡ₚ map_to_list versioned →
  rekeyed_by_PackageUri versioned (Deduplicate_rekey survivors ∅).
Proof.
  intros Hperm. split.
  - intros k m Hm. apply Deduplicate_rekey_lookup in Hm as [[-> Hv]|Hm].
    + split; [done |]. by apply (visits_range versioned survivors).
    + by rewrite lookup_empty in Hm.
  - intros key m Hm. apply Deduplicate_rekey_covers.
    apply (visits_range versioned survivors); eauto.
Qed.

Lemma grouped_of_loop (dependecies versioned : gmap string Metadata)
    (entries : list (string * Metadata)) :
  precedence_order →
  entries ≡ₚ map_to_list dependecies →
  Deduplicate_group entries ∅ = Ok versioned →
  grouped_by_major dependecies versioned.
Proof.
  intros Hord Hperm Hgroup.
  pose proof (Deduplicate_group_one_per_line _ _ _ _ Hgroup one_per_line_empty)
    as [Hkept Hseen].
  pose proof (Deduplicate_group_none_greater _ Hord _ _ _ Hgroup
                one_per_line_empty none_greater_empty) as Hmax.
  split.
  - intros key m Hm. destruct (Hkept _ _ Hm) as [[Hv|[]] Hk].
    split; [by apply (visits_range dependecies entries) |].
    split; [done |].
    intros u' m' Hm' Hk'. eapply Hmax; eauto.
    left. apply (visits_range dependecies entries); eauto.
  - intros u m Hm. apply Hseen. left.
    apply (visits_range dependecies entries); eauto.
Qed.

End DeduplicateFacts.

Section DeduplicateTheorems.
Context {libs : Libs} {runtime : Runtime}.

Lemma Deduplicate_meets_specification
    (dependecies result : gmap string Metadata) (st st' : State) :
  range_visits_all → precedence_order →
  Deduplicate dependecies st = (Ok result, st') →
  ∃ versioned, grouped_by_major dependecies versioned
               ∧ rekeyed_by_PackageUri versioned result.
Proof.
  intros Hrange Hord Hrun.
  destruct (Deduplicate_Ok_inv _ _ _ _ Hrange Hrun)
    as (entries & versioned & survivors & Hp1 & Hgroup & Hp2 & ->).
  exists versioned. split.
  - eapply grouped_of_loop; eauto.
  - by apply rekeyed_of_loop.
Qed.

Lemma Deduplicate_succeeds (dependecies : gmap string Metadata) (st : State) :
  range_visits_all →
  (∀ u m, dependecies !! u = Some m → is_Ok (MajorVersionPackage m)) →
  ∃ result st', Deduplicate dependecies st = (Ok result, st').
Proof.
  intros Hrange Hall. rewrite Deduplicate_unfold.
  pose proof (Hrange Metadata dependecies (world st)) as Hp1.
  destruct (go_range Metadata dependecies (world st)) as [entries w1]. cbn in Hp1.
  destruct (Deduplicate_group_total entries _ _ one_per_line_empty) as [v Hv].
  { intros m Hm. apply (visits_range dependecies entries) in Hm as [u Hu]; eauto. }
  rewrite Hv. destruct (go_range Metadata v w1) as [survivors w2]. eauto.
Qed.

(** C7: [Deduplicate] is idempotent.  Whenever it succeeds, running it on
    its own output succeeds with that same output, whatever the order in
    which the maps are visited. *)
Theorem Deduplicate_idempotent
    (dependecies result : gmap string Metadata) (st st' : State) :
  range_visits_all →
  Deduplicate dependecies st = (Ok result, st') →
  ∀ st2, ∃ st2', Deduplicate result st2 = (Ok result, st2').
Proof.
  intros Hrange Hrun st2.
  destruct (Deduplicate_Ok_inv _ _ _ _ Hrange Hrun)
    as (entries & versioned & survivors & Hp1 & Hgroup & Hp2 & ->).
  set (result := Deduplicate_rekey survivors ∅).
  pose proof (Deduplicate_group_one_per_line _ _ _ _ Hgroup one_per_line_empty)
    as [Hkept _].
  destruct (rekeyed_of_loop _ _ Hp2) as [Hres _]. fold result in Hres.
  assert (Hkeyed : ∀ k m, result !! k = Some m →
            k = PackageUri m ∧ ∃ key, versioned !! key = Some m
                                      ∧ MajorVersionPackage m = Ok key).
  { intros k m Hm. destruct (Hres _ _ Hm) as [-> [key Hkey]].
    split; [done |]. exists key. split; [done |]. by apply (Hkept _ _ Hkey). }
  assert (Hinj : ∀ k1 m1 k2 m2, result !! k1 = Some m1 → result !! k2 = Some m2 →
            MajorVersionPackage m1 = MajorVersionPackage m2 → m1 = m2).
  { intros k1 m1 k2 m2 H1 H2 Heq.
    destruct (Hkeyed _ _ H1) as [_ (key1 & Hv1 & Hk1)].
    destruct (Hkeyed _ _ H2) as [_ (key2 & Hv2 & Hk2)].
    assert (key1 = key2) as -> by congruence. congruence. }
  rewrite Deduplicate_unfold.
  pose proof (Hrange Metadata result (world st2)) as Hq1.
  destruct (go_range Metadata result (world st2)) as [entries2 w1]. cbn in Hq1.
  destruct (Deduplicate_group_total entries2 _ _ one_per_line_empty) as [v2 Hv2].
  { intros m Hm. apply (visits_range result entries2) in Hm as [u Hu]; [| done].
    destruct (Hkeyed _ _ Hu) as [_ (key & _ & Hk)]. by exists key. }
  rewrite Hv2.
  pose proof (Deduplicate_group_one_per_line _ _ _ _ Hv2 one_per_line_empty)
    as [Hkept2 Hseen2].
  pose proof (Hrange Metadata v2 w1) as Hq2.
  destruct (go_range Metadata v2 w1) as [survivors2 w2]. cbn in Hq2.
  eexists. f_equal. f_equal. apply map_eq. intros k.
  destruct (Deduplicate_rekey survivors2 ∅ !! k) as [m|] eqn:Hk.
  - apply Deduplicate_rekey_lookup in Hk as [[-> Hv]|Hk];
      [| by rewrite lookup_empty in Hk].
    apply (visits_range v2 survivors2) in Hv as [key Hkey]; [| done].
    destruct (Hkept2 _ _ Hkey) as [[Hm|[]] _].
    apply (visits_range result entries2) in Hm as [k' Hk']; [| done].
    destruct (Hkeyed _ _ Hk') as [-> _]. by rewrite Hk'.
  - destruct (result !! k) as [m|] eqn:Hm; [| done]. exfalso.
    destruct (Hkeyed _ _ Hm) as [-> _].
    assert (Hvis : visits entries2 m)
      by (apply (visits_range result entries2); eauto).
    destruct (Hseen2 m (or_introl Hvis)) as (key & Hkey & [m' Hm']).
    destruct (Hkept2 _ _ Hm') as [[Hvis'|[]] Hkey'].
    apply (visits_range result entries2) in Hvis' as [k' Hk']; [| done].
    assert (m' = m) as -> by (eapply Hinj; eauto; congruence).
    assert (Hsurv : visits survivors2 m)
      by (apply (visits_range v2 survivors2); eauto).
    apply (Deduplicate_rekey_covers _ ∅) in Hsurv as [x Hx]. congruence.
Qed.

(** The outcomes of [Deduplicate] on an input with an entry that has no
    key. *)
Definition unparseable_uri (m : Metadata) : Prop :=
  ∃ e, url_Parse (PackageUri m) = inl e.
Definition unparseable_version (m : Metadata) : Prop :=
  ∃ e, semver_NewVersion (Version m) = inl e.

Lemma MajorVersionPackage_not_Ok (m : Metadata) :
  unparseable_uri m ∨ unparseable_version m → ¬ is_Ok (MajorVersionPackage m).
Proof.
  intros Hbad [key Hkey].
  apply MajorVersionPackage_Ok_inv in Hkey as (u & v & Hu & Hv).
  destruct Hbad as [[e He]|[e He]]; congruence.
Qed.

(** On an input with a [PackageUri] or a [Version] that cannot be parsed,
    [Deduplicate] does not produce a result, and how it ends depends on
    which of the two it meets: it returns the error of [url.Parse]
    (line 117) when every version parses, and it panics in
    [semver.MustParse] (line 124) when every URI parses. *)
Lemma Deduplicate_fails_on_unparseable
    (dependecies : gmap string Metadata) (st : State) (u : string) (bad : Metadata) :
  range_visits_all →
  dependecies !! u = Some bad →
  unparseable_uri bad ∨ unparseable_version bad →
  ¬ is_Ok (Deduplicate dependecies st).1
  ∧ ((∀ u' m, dependecies !! u' = Some m → ¬ unparseable_version m) →
     ∃ u' m e, dependecies !! u' = Some m ∧ url_Parse (PackageUri m) = inl e
               ∧ (Deduplicate dependecies st).1 = Err e)
  ∧ ((∀ u' m, dependecies !! u' = Some m → ¬ unparseable_uri m) →
     ∃ msg, (Deduplicate dependecies st).1 = Panic msg).
Proof.
  intros Hrange Hbad Hwhy. rewrite Deduplicate_unfold.
  pose proof (Hrange Metadata dependecies (world st)) as Hp1.
  destruct (go_range Metadata dependecies (world st)) as [entries w1]. cbn in Hp1.
  destruct (Deduplicate_group entries ∅) as [versioned|e|p] eqn:Hgroup.
  - exfalso.
    pose proof (Deduplicate_group_one_per_line _ _ _ _ Hgroup one_per_line_empty)
      as [_ Hseen].
    destruct (Hseen bad) as (key & Hkey & _).
    { left. apply (visits_range dependecies entries); eauto. }
    eapply MajorVersionPackage_not_Ok; eauto. by exists key.
  - apply Deduplicate_group_Err_inv in Hgroup as (m & Hm & He).
    apply (visits_range dependecies entries) in Hm as [u' Hu']; [| done].
    cbn. split; [intros [a Ha]; discriminate |]. split.
    + intros _. eauto 10.
    + intros Hall. exfalso. apply (Hall _ _ Hu'). by exists e.
  - eapply Deduplicate_group_Panic_inv in Hgroup as (m & Hm & _ & Hv);
      [| apply one_per_line_empty].
    apply (visits_range dependecies entries) in Hm as [u' Hu']; [| done].
    cbn. split; [intros [a Ha]; discriminate |]. split.
    + intros Hall. exfalso. by apply (Hall _ _ Hu').
    + intros _. eauto.
Qed.

End DeduplicateTheorems.

(** ** Resolution *)

Section ResolveFacts.
Context {libs : Libs} {runtime : Runtime}.
Variable r : Resolver.
Local Open Scope list_scope.

(** The URIs for which a metadata fetch was started (every fetch is
    announced by the "Resolving" message of lines 173 and 176), and the
    dependencies for which one failed (line 185). *)
Definition resolving_uri (e : LogEntry) : option string :=
  match e with
  | InfoResolving _ dependency _ => Some (Uri dependency)
  | _ => None
  end.

Definition resolve_error (e : LogEntry) : option Dependency :=
  match e with
  | ErrorMetadataResolving _ dependency => Some dependency
  | _ => None
  end.

Definition fetched (entries : list LogEntry) : list string := omap resolving_uri entries.
Definition failed (entries : list LogEntry) : list Dependency := omap resolve_error entries.

(** What a transport leaves behind: the cache as it was, and log entries
    of its own only. *)
Definition transport_step (st st' : State) : Prop :=
  cache st' = cache st
  ∧ ∃ extra, logged st' = (logged st ++ extra)%list ∧ fetched extra = [] ∧ failed extra = [].

Lemma transport_step_refl (st : State) : transport_step st st.
Proof. split; [done |]. exists []. by rewrite app_nil_r. Qed.

Lemma transport_step_world (st : State) (w : World) : transport_step st (set_world st w).
Proof. split; [done |]. exists []. by rewrite app_nil_r. Qed.

Lemma transport_step_trans (st1 st2 st3 : State) :
  transport_step st1 st2 → transport_step st2 st3 → transport_step st1 st3.
Proof.
  intros [Hc1 (x1 & Hl1 & Hf1 & He1)] [Hc2 (x2 & Hl2 & Hf2 & He2)].
  split; [congruence |]. exists (x1 ++ x2).
  rewrite Hl2, Hl1, <- app_assoc. unfold fetched, failed in *.
  rewrite !omap_app, Hf1, Hf2, He1, He2. done.
Qed.

Lemma OciResolver_ResolveMetadata_step (o : OciResolver) (uri : string)
    (plain : bool) (st st' : State) (out : outcome Metadata) :
  OciResolver_ResolveMetadata o uri plain st = (out, st') → transport_step st st'.
Proof.
  unfold OciResolver_ResolveMetadata, bind, with_world, lift_result, ret, fail, panic.
  intros Hrun.
  destruct (PklUriToRef uri) as [e|ref]; [injection Hrun as _ <-; apply transport_step_refl |].
  destruct (registry_Pull _ ref false (world st)) as [[e|result] w1];
    [injection Hrun as _ <-; apply transport_step_world |].
  destruct (json_Unmarshal (pull_Metadata result)) as [e|[doc|]];
    injection Hrun as _ <-; apply transport_step_world.
Qed.

Lemma HttpResolver_ResolveMetadata_step (h : HttpResolver) (uri : string)
    (plain : bool) (st st' : State) (out : outcome Metadata) :
  HttpResolver_ResolveMetadata h uri plain st = (out, st') → transport_step st st'.
Proof.
  unfold HttpResolver_ResolveMetadata, bind, with_world, lift_result, ret, fail,
    panic, log.
  intros Hrun.
  assert (Hlog : ∀ (s : State) (e : LogEntry),
            fetched [e] = [] → failed [e] = [] →
            transport_step s {| cache := cache s; world := world s;
                                logged := logged s ++ [e] |}).
  { intros s e Hf He. split; [done |]. by exists [e]. }
  destruct (url_Parse uri) as [e|u].
  { injection Hrun as _ <-. by apply Hlog. }
  destruct (http_Get _ (world st)) as [[e|resp] w1].
  { injection Hrun as _ <-.
    eapply transport_step_trans; [apply (transport_step_world st w1) |].
    by apply (Hlog (set_world st w1)). }
  destruct (StatusCode resp >? 300)%Z;
    [injection Hrun as _ <-; apply transport_step_world |].
  destruct (Body resp) as [e|body];
    [injection Hrun as _ <-; apply transport_step_world |].
  destruct (json_Unmarshal body) as [e|[doc|]].
  - injection Hrun as _ <-.
    eapply transport_step_trans; [apply (transport_step_world st w1) |].
    by apply (Hlog (set_world st w1)).
  - injection Hrun as _ <-. apply transport_step_world.
  - injection Hrun as _ <-. apply transport_step_world.
Qed.

Lemma ResolveMetadata_with_step (proto : ResolverType) (uri : string)
    (plain : bool) (st st' : State) (out : outcome Metadata) :
  ResolveMetadata_with r proto uri plain st = (out, st') → transport_step st st'.
Proof.
  destruct proto; cbn.
  - apply OciResolver_ResolveMetadata_step.
  - apply HttpResolver_ResolveMetadata_step.
Qed.

(** *** What a run of [Resolve] does to the cache and the log *)

(** From [st] to [st'] the log grew by [new]: every fetch was for a URI
    that was not cached and no URI was fetched twice, the cache only
    grew, and only by URIs that were fetched. *)
Definition steps (st st' : State) (new : list LogEntry) : Prop :=
  logged st' = logged st ++ new
  ∧ NoDup (fetched new)
  ∧ (∀ u, u ∈ fetched new → cache st !! u = None)
  ∧ cache st ⊆ cache st'
  ∧ (∀ u, is_Some (cache st' !! u) → is_Some (cache st !! u) ∨ u ∈ fetched new).

Definition all_cached (uris : list string) (st : State) : Prop :=
  ∀ u, u ∈ uris → is_Some (cache st !! u).

(** Every dependency of a cached metadata of [uris] is cached too. *)
Definition closed (uris : list string) (st : State) : Prop :=
  ∀ u m, u ∈ uris → cache st !! u = Some m →
         ∀ k d, Dependencies m !! k = Some d → is_Some (cache st !! Uri d).

(** How a run ended: with a result, every fetched URI is cached with its
    dependencies and no fetch failed; with an error, exactly one fetch
    failed and its URI is not cached. *)
Definition ended {A} (out : outcome A) (st' : State) (new : list LogEntry) : Prop :=
  match out with
  | Ok _ => all_cached (fetched new) st' ∧ closed (fetched new) st' ∧ failed new = []
  | Err _ => ∃ d, failed new = [d] ∧ cache st' !! Uri d = None
  | Panic _ => failed new = []
  end.

(** The result of a loop that started from [result0] and visited
    [entries]. *)
Definition collects (result0 result : gmap string Metadata)
    (entries : list (string * Dependency)) (new : list LogEntry) (st' : State)
    : Prop :=
  result ⊆ cache st'
  ∧ (∀ u, is_Some (result0 !! u) → is_Some (result !! u))
  ∧ (∀ u, u ∈ fetched new → is_Some (result !! u))
  ∧ (∀ d, visits entries d → is_Some (result !! Uri d)).

Lemma steps_refl (st : State) : steps st st [].
Proof.
  repeat split.
  - by rewrite app_nil_r.
  - constructor.
  - intros u Hu. by apply elem_of_nil in Hu.
  - done.
  - eauto.
Qed.

Lemma steps_trans (st st1 st2 : State) (new1 new2 : list LogEntry) :
  steps st st1 new1 → all_cached (fetched new1) st1 → steps st1 st2 new2 →
  steps st st2 (new1 ++ new2).
Proof.
  intros (Hl1 & Hnd1 & Hfresh1 & Hsub1 & Hnew1) Hall (Hl2 & Hnd2 & Hfresh2 & Hsub2 & Hnew2).
  unfold steps, fetched in *. rewrite omap_app.
  split; [by rewrite Hl2, Hl1, app_assoc |].
  split.
  { apply NoDup_app. split; [done |]. split; [| done].
    intros u Hu1 Hu2. apply Hall in Hu1 as [m Hm]. apply Hfresh2 in Hu2. congruence. }
  split.
  { intros u Hu. apply elem_of_app in Hu as [Hu|Hu]; [by apply Hfresh1 |].
    apply Hfresh2 in Hu. eapply lookup_weaken_None; eauto. }
  split; [by etrans |].
  intros u Hu. rewrite elem_of_app.
  apply Hnew2 in Hu as [Hu|Hu]; [| by eauto].
  apply Hnew1 in Hu as [Hu|Hu]; eauto.
Qed.

Lemma steps_from_world (st st' : State) (w : World) (new : list LogEntry) :
  steps (set_world st w) st' new → steps st st' new.
Proof. done. Qed.

Lemma steps_to_world (st st' : State) (w : World) (new : list LogEntry) :
  steps st st' new → steps st (set_world st' w) new.
Proof. done. Qed.

Lemma closed_weaken (uris : list string) (st st' : State) :
  cache st ⊆ cache st' → all_cached uris st → closed uris st → closed uris st'.
Proof.
  intros Hsub Hall Hcl u m Hu Hm k d Hd.
  destruct (Hall u Hu) as [m0 Hm0].
  pose proof (lookup_weaken _ _ _ _ Hm0 Hsub) as Hm0'.
  assert (m0 = m) as -> by congruence.
  destruct (Hcl _ _ Hu Hm0 _ _ Hd) as [x Hx].
  exists x. eapply lookup_weaken; eauto.
Qed.

Lemma all_cached_weaken (uris : list string) (st st' : State) :
  cache st ⊆ cache st' → all_cached uris st → all_cached uris st'.
Proof.
  intros Hsub Hall u Hu. destruct (Hall u Hu) as [m Hm].
  exists m. eapply lookup_weaken; eauto.
Qed.

(** *** The two order-insensitive loops *)

Lemma merge_into_lookup (entries : list (string * Metadata)) :
  ∀ (result : gmap string Metadata) (u : string) (m : Metadata),
    merge_into entries result !! u = Some m →
    (u, m) ∈ entries ∨ result !! u = Some m.
Proof.
  induction entries as [|[u0 m0] rest IH]; intros result u m Hm; [by right |].
  cbn in Hm. apply IH in Hm as [Hm|Hm].
  - left. apply elem_of_cons. by right.
  - destruct (decide (u0 = u)) as [<-|Hne].
    + rewrite lookup_insert_eq in Hm. injection Hm as <-.
      left. apply elem_of_cons. by left.
    + rewrite lookup_insert_ne in Hm by done. by right.
Qed.

Lemma merge_into_keeps (entries : list (string * Metadata)) :
  ∀ (result : gmap string Metadata) (u : string),
    is_Some (result !! u) → is_Some (merge_into entries result !! u).
Proof.
  induction entries as [|[u0 m0] rest IH]; intros result u Hu; [done |].
  cbn. apply IH. destruct (decide (u0 = u)) as [<-|Hne].
  - rewrite lookup_insert_eq. eauto.
  - by rewrite lookup_insert_ne.
Qed.

Lemma merge_into_covers (entries : list (string * Metadata)) :
  ∀ (result : gmap string Metadata) (u : string) (m : Metadata),
    (u, m) ∈ entries → is_Some (merge_into entries result !! u).
Proof.
  induction entries as [|[u0 m0] rest IH]; intros result u m Hin;
    [by apply elem_of_nil in Hin |].
  cbn. apply elem_of_cons in Hin as [Heq|Hin]; [| by eapply IH].
  injection Heq as -> ->. apply merge_into_keeps. rewrite lookup_insert_eq. eauto.
Qed.

(** After the back-fill every dependency is one of the decoded ones with
    its [Name] set to its key; its [Uri] is untouched. *)
Lemma backfill_names_lookup (entries : list (string * Dependency)) :
  ∀ (deps : gmap string Dependency) (k : string) (x : Dependency),
    backfill_names entries deps !! k = Some x →
    (∃ d, (k, d) ∈ entries ∧ x = set_dep_Name d k) ∨ deps !! k = Some x.
Proof.
  induction entries as [|[k0 d0] rest IH]; intros deps k x Hx; [by right |].
  cbn in Hx. apply IH in Hx as [(d & Hd & ->)|Hx].
  - left. exists d. split; [| done]. apply elem_of_cons. by right.
  - destruct (decide (k0 = k)) as [<-|Hne].
    + rewrite lookup_insert_eq in Hx. injection Hx as <-.
      left. exists d0. split; [| done]. apply elem_of_cons. by left.
    + rewrite lookup_insert_ne in Hx by done. by right.
Qed.

Lemma backfill_names_Uri (deps : gmap string Dependency)
    (entries : list (string * Dependency)) (k : string) (x : Dependency) :
  entries ≡ₚ map_to_list deps →
  backfill_names entries deps !! k = Some x →
  ∃ d, deps !! k = Some d ∧ Uri x = Uri d.
Proof.
  intros Hperm Hx. apply backfill_names_lookup in Hx as [(d & Hd & ->)|Hx]; [| eauto].
  exists d. split; [| done]. apply elem_of_map_to_list. by rewrite <- Hperm.
Qed.

(** *** One visit of the loop of [Resolve] *)

Import GoStrings.

(** The state after the metadata of [uri] was stored (line 194). *)
Definition stored (st1 : State) (w : World) (uri : string) (metadata : Metadata)
    : State :=
  {| cache := <[uri := metadata]> (cache st1); world := w; logged := logged st1 |}.

Lemma Resolve_visit_hit
    (Resolve_rec : gmap string Dependency → MF (gmap string Metadata))
    (dependency : Dependency) (result : gmap string Metadata) (st : State)
    (metadata : Metadata) :
  cache st !! Uri dependency = Some metadata →
  Resolve_visit Resolve_rec r dependency result st
  = Some (Ok (<[Uri dependency := metadata]> result), st).
Proof. intros Hhit. unfold Resolve_visit. by rewrite Hhit. Qed.

Lemma Resolve_visit_miss
    (Resolve_rec : gmap string Dependency → MF (gmap string Metadata))
    (dependency : Dependency) (result : gmap string Metadata) (st : State) :
  cache st !! Uri dependency = None →
  Resolve_visit Resolve_rec r dependency result st
  = (let name := dep_Name dependency in
     let proto := select_proto name in
     match ResolveMetadata_with r proto (Uri dependency) (Contains name ".plain")
             (add_log st (InfoResolving name dependency proto)) with
     | (Err err, st1) =>
         Some (Err err, add_log st1 (ErrorMetadataResolving name dependency))
     | (Panic p, st1) => Some (Panic p, st1)
     | (Ok metadata, st1) =>
         let '(entries, w) :=
           go_range Dependency (Dependencies metadata) (world st1) in
         let metadata :=
           set_Dependencies metadata (backfill_names entries (Dependencies metadata)) in
         let st2 := stored st1 w (Uri dependency) metadata in
         let result := <[Uri dependency := metadata]> result in
         if (0 <? size (Dependencies metadata))%nat then
           match Resolve_rec (Dependencies metadata) st2 with
           | None => None
           | Some (Ok subs, st3) =>
               let '(entries2, w3) := go_range Metadata subs (world st3) in
               Some (Ok (merge_into entries2 result), set_world st3 w3)
           | Some (Err err, st3) => Some (Err err, st3)
           | Some (Panic p, st3) => Some (Panic p, st3)
           end
         else Some (Ok result, st2)
     end).
Proof.
  intros Hmiss. unfold Resolve_visit. rewrite Hmiss. cbn zeta.
  unfold bind at 1. unfold log at 1. fold (add_log st
    (InfoResolving (dep_Name dependency) dependency (select_proto (dep_Name dependency)))).
  destruct (ResolveMetadata_with r _ _ _ _) as [[metadata|err|p] st1];
    [| reflexivity | reflexivity].
  unfold bind, range, with_world, cache_store, ret. cbn.
  destruct (go_range Dependency (Dependencies metadata) (world st1)) as [entries w].
  cbn. unfold stored.
  match goal with |- context [size ?m] => destruct (size m) end;
    [reflexivity |].
  destruct (Resolve_rec _ _) as [[[subs|err|p] st3]|]; try reflexivity.
  destruct (go_range Metadata subs (world st3)) as [entries2 w3]. reflexivity.
Qed.

(** What is known of a recursive call. *)
Definition resolved (dependencies : gmap string Dependency) (st : State)
    (out : outcome (gmap string Metadata)) (st' : State) : Prop :=
  ∃ new, steps st st' new ∧ ended out st' new
    ∧ ∀ result, out = Ok result →
        result ⊆ cache st'
        ∧ (∀ u, u ∈ fetched new → is_Some (result !! u))
        ∧ (∀ k d, dependencies !! k = Some d → is_Some (result !! Uri d)).

Definition sound (Resolve_rec : gmap string Dependency → MF (gmap string Metadata))
    : Prop :=
  ∀ dependencies st out st',
    Resolve_rec dependencies st = Some (out, st') → resolved dependencies st out st'.

(** The log and cache after the fetch of [dependency] was announced and
    made, before anything is stored. *)
Lemma steps_fetch (dependency : Dependency) (st st1 : State) (e : LogEntry) :
  cache st !! Uri dependency = None →
  transport_step (add_log st e) st1 →
  resolving_uri e = Some (Uri dependency) → resolve_error e = None →
  ∃ new, steps st st1 new ∧ fetched new = [Uri dependency] ∧ failed new = []
         ∧ cache st1 = cache st.
Proof.
  intros Hmiss [Hcache (extra & Hlog & Hf & He)] Hinfo Hnoerr.
  exists (e :: extra). cbn in Hlog, Hcache.
  assert (Hfetched : fetched (e :: extra) = [Uri dependency]).
  { unfold fetched in *. cbn. by rewrite Hinfo, Hf. }
  assert (Hfailed : failed (e :: extra) = []).
  { unfold failed in *. cbn. by rewrite Hnoerr, He. }
  split; [| done]. unfold steps. rewrite Hfetched, Hcache.
  split; [by rewrite Hlog, <- app_assoc |].
  split; [apply NoDup_singleton |].
  split; [intros u Hu; apply list_elem_of_singleton in Hu as ->; done |].
  split; [done | eauto].
Qed.

Lemma steps_store (dependency : Dependency) (st st1 : State) (w : World)
    (metadata : Metadata) (new : list LogEntry) :
  cache st !! Uri dependency = None →
  steps st st1 new → fetched new = [Uri dependency] → cache st1 = cache st →
  steps st (stored st1 w (Uri dependency) metadata) new
  ∧ all_cached (fetched new) (stored st1 w (Uri dependency) metadata).
Proof.
  intros Hmiss (Hlog & Hnd & Hfresh & Hsub & Hnew) Hfetched Hcache.
  split.
  - unfold steps, stored. cbn. rewrite Hcache.
    split; [done |]. split; [done |]. split; [done |].
    split; [by apply insert_subseteq |].
    intros u Hu. rewrite Hfetched.
    destruct (decide (Uri dependency = u)) as [<-|Hne].
    + right. apply list_elem_of_singleton. done.
    + rewrite lookup_insert_ne in Hu by done. by left.
  - intros u Hu. rewrite Hfetched in Hu.
    apply list_elem_of_singleton in Hu as ->. unfold stored. cbn.
    rewrite lookup_insert_eq. eauto.
Qed.

Lemma size_zero_no_lookup {V} (m : gmap string V) (k : string) (v : V) :
  size m = 0%nat → m !! k = Some v → False.
Proof.
  intros Hsize Hk. apply map_size_empty_iff in Hsize. subst m.
  by rewrite lookup_empty in Hk.
Qed.

Lemma Resolve_visit_sound
    (Resolve_rec : gmap string Dependency → MF (gmap string Metadata))
    (k : string) (dependency : Dependency) (result0 : gmap string Metadata)
    (st st' : State) (out : outcome (gmap string Metadata)) :
  range_visits_all →
  sound Resolve_rec →
  result0 ⊆ cache st →
  Resolve_visit Resolve_rec r dependency result0 st = Some (out, st') →
  ∃ new, steps st st' new ∧ ended out st' new
    ∧ ∀ result, out = Ok result → collects result0 result [(k, dependency)] new st'.
Proof.
  intros Hrange Hrec Hres0 Hrun.
  destruct (cache st !! Uri dependency) as [cached|] eqn:Hlook.
  { rewrite (Resolve_visit_hit _ _ _ _ _ Hlook) in Hrun. injection Hrun as <- <-.
    exists []. split; [apply steps_refl |]. split.
    { repeat split; intros u; intros; exfalso; eapply elem_of_nil; eauto. }
    intros result [= <-]. split; [by apply insert_subseteq_l |].
    split.
    { intros u Hu. destruct (decide (Uri dependency = u)) as [<-|Hne].
      - rewrite lookup_insert_eq. eauto.
      - by rewrite lookup_insert_ne. }
    split; [intros u Hu; by apply elem_of_nil in Hu |].
    intros d Hd. apply visits_cons in Hd as [->|Hd]; [| by apply visits_nil in Hd].
    rewrite lookup_insert_eq. eauto. }
  rewrite (Resolve_visit_miss _ _ _ _ Hlook) in Hrun. cbn zeta in Hrun.
  destruct (ResolveMetadata_with r _ _ _ _) as [fetch_out st1] eqn:Hfetch.
  apply ResolveMetadata_with_step in Hfetch.
  destruct (steps_fetch dependency st st1 _ Hlook Hfetch eq_refl eq_refl)
    as (new1 & Hsteps1 & Hfetched1 & Hfailed1 & Hcache1).
  destruct fetch_out as [metadata|err|p].
  2:{ (* the fetch returned an error *)
    injection Hrun as <- <-.
    exists (new1 ++ [ErrorMetadataResolving (dep_Name dependency) dependency]).
    assert (Hf : fetched (new1 ++ [ErrorMetadataResolving (dep_Name dependency) dependency])
                 = fetched new1)
      by (unfold fetched; rewrite omap_app; cbn; by rewrite app_nil_r).
    split.
    { destruct Hsteps1 as (Hl & Hnd & Hfr & Hsub & Hnew).
      unfold steps. rewrite Hf. cbn. rewrite Hl, <- app_assoc. done. }
    split; [| intros result [=]].
    exists dependency. split.
    - unfold failed in *. rewrite omap_app, Hfailed1. done.
    - cbn. by rewrite Hcache1. }
  2:{ (* the fetch panicked *)
    injection Hrun as <- <-. exists new1.
    split; [done |]. split; [done | intros result [=]]. }
  destruct (go_range Dependency (Dependencies metadata) (world st1)) as [entries w].
  set (metadata' := set_Dependencies metadata
                      (backfill_names entries (Dependencies metadata))) in *.
  set (st2 := stored st1 w (Uri dependency) metadata') in *.
  destruct (steps_store dependency st st1 w metadata' new1 Hlook Hsteps1 Hfetched1 Hcache1)
    as [Hsteps2 Hall2]. fold st2 in Hsteps2, Hall2.
  assert (Hcached2 : cache st2 !! Uri dependency = Some metadata')
    by (unfold st2, stored; cbn; apply lookup_insert_eq).
  assert (Hsub2 : cache st ⊆ cache st2) by apply Hsteps2.
  assert (Hres1 : <[Uri dependency := metadata']> result0 ⊆ cache st2).
  { apply insert_subseteq_l; [done |]. by etrans. }
  assert (Hkeep1 : ∀ u, is_Some (result0 !! u) →
            is_Some (<[Uri dependency := metadata']> result0 !! u)).
  { intros u Hu. destruct (decide (Uri dependency = u)) as [<-|Hne].
    - rewrite lookup_insert_eq. eauto.
    - by rewrite lookup_insert_ne. }
  destruct (0 <? size (Dependencies metadata'))%nat eqn:Hsize.
  2:{ (* no dependencies: no recursive call *)
    injection Hrun as <- <-. exists new1.
    split; [done |]. split.
    { split; [done |]. split; [| done].
      intros u m Hu Hm k' d Hd. rewrite Hfetched1 in Hu.
      apply list_elem_of_singleton in Hu as ->.
      assert (m = metadata') as -> by congruence.
      apply Nat.ltb_ge in Hsize. exfalso.
      eapply (size_zero_no_lookup (Dependencies metadata')); [lia | eauto]. }
    intros result [= <-]. split; [done |]. split; [done |].
    split.
    { intros u Hu. rewrite Hfetched1 in Hu.
      apply list_elem_of_singleton in Hu as ->. rewrite lookup_insert_eq. eauto. }
    intros d Hd. apply visits_cons in Hd as [->|Hd]; [| by apply visits_nil in Hd].
    rewrite lookup_insert_eq. eauto. }
  destruct (Resolve_rec (Dependencies metadata') st2) as [[sub_out st3]|] eqn:Hsub;
    [| discriminate].
  destruct (Hrec _ _ _ _ Hsub) as (new2 & Hsteps3 & Hended3 & Hsubs).
  pose proof (steps_trans _ _ _ _ _ Hsteps2 Hall2 Hsteps3) as Hsteps.
  assert (Hf : fetched (new1 ++ new2) = Uri dependency :: fetched new2)
    by (unfold fetched in *; rewrite omap_app, Hfetched1; done).
  assert (He : failed (new1 ++ new2) = failed new2)
    by (unfold failed in *; rewrite omap_app, Hfailed1; done).
  assert (Hsub3 : cache st2 ⊆ cache st3) by apply Hsteps3.
  destruct sub_out as [subs|err|p].
  2:{ injection Hrun as <- <-. exists (new1 ++ new2).
      split; [done |]. split; [| intros result [=]].
      cbn in *. by rewrite He. }
  2:{ injection Hrun as <- <-. exists (new1 ++ new2).
      split; [done |]. split; [| intros result [=]].
      cbn in *. by rewrite He. }
  pose proof (Hrange Metadata subs (world st3)) as Hperm.
  destruct (go_range Metadata subs (world st3)) as [entries2 w3]. cbn in Hperm.
  injection Hrun as <- <-. exists (new1 ++ new2).
  destruct (Hsubs subs eq_refl) as (Hsubs_cache & Hsubs_new & Hsubs_roots).
  destruct Hended3 as (Hall3 & Hclosed3 & Hfailed3).
  split; [by apply steps_to_world |]. split.
  { cbn. rewrite Hf, He. split; [| split; [| done]].
    - intros u Hu. apply elem_of_cons in Hu as [->|Hu]; [| by apply Hall3].
      exists metadata'. eapply lookup_weaken; eauto.
    - intros u m Hu Hm k' d Hd. cbn in Hm |- *.
      apply elem_of_cons in Hu as [->|Hu]; [| by eapply Hclosed3].
      pose proof (lookup_weaken _ _ _ _ Hcached2 Hsub3) as Hm'.
      assert (m = metadata') as -> by congruence.
      destruct (Hsubs_roots _ _ Hd) as [x Hx].
      exists x. eapply lookup_weaken; eauto. }
  intros result [= <-]. split.
  { cbn. apply map_subseteq_spec. intros u m Hm.
    apply merge_into_lookup in Hm as [Hm|Hm].
    - eapply lookup_weaken; [| exact Hsubs_cache].
      apply elem_of_map_to_list. by rewrite <- Hperm.
    - eapply lookup_weaken; [| exact Hsub3]. eapply lookup_weaken; eauto. }
  split.
  { intros u Hu. apply merge_into_keeps. by apply Hkeep1. }
  split.
  { intros u Hu. rewrite Hf in Hu. apply elem_of_cons in Hu as [->|Hu].
    - apply merge_into_keeps. rewrite lookup_insert_eq. eauto.
    - destruct (Hsubs_new u Hu) as [m Hm].
      apply (merge_into_covers _ _ u m). rewrite Hperm.
      by apply elem_of_map_to_list. }
  intros d Hd. apply visits_cons in Hd as [->|Hd]; [| by apply visits_nil in Hd].
  apply merge_into_keeps. rewrite lookup_insert_eq. eauto.
Qed.

(** *** The loop and the recursion *)

Lemma ended_trans {A B} (a : A) (out : outcome B) (st1 st2 : State)
    (new1 new2 : list LogEntry) :
  cache st1 ⊆ cache st2 →
  ended (Ok a) st1 new1 → ended out st2 new2 → ended out st2 (new1 ++ new2).
Proof.
  intros Hsub (Hall1 & Hclosed1 & Hfailed1) Hended. unfold ended, fetched, failed in *.
  rewrite !omap_app, Hfailed1. destruct out as [b|e|p]; [| done | done].
  destruct Hended as (Hall2 & Hclosed2 & Hfailed2).
  split; [| split; [| done]].
  - intros u Hu. apply elem_of_app in Hu as [Hu|Hu]; [| by apply Hall2].
    by apply (all_cached_weaken _ st1 st2 Hsub Hall1).
  - intros u m Hu. apply elem_of_app in Hu as [Hu|Hu]; [| by apply Hclosed2].
    by apply (closed_weaken _ st1 st2 Hsub Hall1 Hclosed1).
Qed.

Lemma Resolve_loop_sound
    (Resolve_rec : gmap string Dependency → MF (gmap string Metadata)) :
  range_visits_all →
  sound Resolve_rec →
  ∀ (entries : list (string * Dependency)) (result0 : gmap string Metadata)
    (st st' : State) (out : outcome (gmap string Metadata)),
    result0 ⊆ cache st →
    Resolve_loop Resolve_rec r entries result0 st = Some (out, st') →
    ∃ new, steps st st' new ∧ ended out st' new
      ∧ ∀ result, out = Ok result → collects result0 result entries new st'.
Proof.
  intros Hrange Hrec.
  induction entries as [|[k dependency] rest IH]; intros result0 st st' out Hres0 Hrun.
  { injection Hrun as <- <-. exists []. split; [apply steps_refl |]. split.
    { repeat split; intros u; intros; exfalso; eapply elem_of_nil; eauto. }
    intros result [= <-]. split; [done |]. split; [done |].
    split; [intros u Hu; by apply elem_of_nil in Hu |].
    intros d Hd. by apply visits_nil in Hd. }
  cbn in Hrun.
  destruct (Resolve_visit Resolve_rec r dependency result0 st)
    as [[out1 st1]|] eqn:Hvisit; [| discriminate].
  destruct (Resolve_visit_sound _ k _ _ _ _ _ Hrange Hrec Hres0 Hvisit)
    as (new1 & Hsteps1 & Hended1 & Hcollects1).
  destruct out1 as [result1|err|p].
  2:{ injection Hrun as <- <-. exists new1.
      split; [done |]. split; [done | intros result [=]]. }
  2:{ injection Hrun as <- <-. exists new1.
      split; [done |]. split; [done | intros result [=]]. }
  destruct (Hcollects1 result1 eq_refl) as (Hsub1 & Hkeep1 & Hnew1 & Hroots1).
  destruct (IH _ _ _ _ Hsub1 Hrun) as (new2 & Hsteps2 & Hended2 & Hcollects2).
  exists (new1 ++ new2).
  assert (Hgrow : cache st1 ⊆ cache st') by apply Hsteps2.
  split; [eapply steps_trans; eauto; apply Hended1 |].
  split; [eapply ended_trans; eauto |].
  intros result ->. destruct (Hcollects2 result eq_refl) as (Hsub2 & Hkeep2 & Hnew2 & Hroots2).
  split; [done |]. split; [eauto |]. split.
  - intros u Hu. unfold fetched in Hu. rewrite omap_app in Hu.
    apply elem_of_app in Hu as [Hu|Hu]; [| by apply Hnew2].
    apply Hkeep2. by apply Hnew1.
  - intros d Hd. apply visits_cons in Hd as [->|Hd]; [| by apply Hroots2].
    apply Hkeep2. apply Hroots1. apply visits_cons. by left.
Qed.

Lemma Resolve_unfold (depth : nat) (dependencies : gmap string Dependency) (st : State) :
  Resolve (S depth) r dependencies st
  = (let '(entries, w) := go_range Dependency dependencies (world st) in
     Resolve_loop (Resolve depth r) r entries ∅ (set_world st w)).
Proof.
  cbn. unfold range, with_world.
  destruct (go_range Dependency dependencies (world st)) as [entries w]. reflexivity.
Qed.

Lemma Resolve_sound (depth : nat) : range_visits_all → sound (Resolve depth r).
Proof.
  intros Hrange. induction depth as [|depth IH];
    intros dependencies st out st' Hrun; [discriminate |].
  rewrite Resolve_unfold in Hrun.
  pose proof (Hrange Dependency dependencies (world st)) as Hperm.
  destruct (go_range Dependency dependencies (world st)) as [entries w]. cbn in Hperm.
  destruct (Resolve_loop_sound _ Hrange IH entries ∅ (set_world st w) st' out)
    as (new & Hsteps & Hended & Hcollects); [apply map_empty_subseteq | done |].
  exists new. split; [by apply steps_from_world in Hsteps |]. split; [done |].
  intros result ->. destruct (Hcollects result eq_refl) as (Hsub & _ & Hnew & Hroots).
  split; [done |]. split; [done |].
  intros k d Hd. apply Hroots. exists k. rewrite Hperm. by apply elem_of_map_to_list.
Qed.

(** *** Termination *)

(** The URIs of [universe] that are not cached yet: the recursion of
    [Resolve] goes one level deeper only after caching one of them. *)
Definition uncached (universe : gset string) (st : State) : nat :=
  size (universe ∖ dom (cache st)).

Definition within (universe : gset string) (dependencies : gmap string Dependency)
    : Prop :=
  ∀ k d, dependencies !! k = Some d → Uri d ∈ universe.

(** Every metadata document the transports can return names dependencies
    of [universe] only: the dependency graph is finite. *)
Definition finite_graph (universe : gset string) : Prop :=
  ∀ proto uri plain st0 metadata st1,
    ResolveMetadata_with r proto uri plain st0 = (Ok metadata, st1) →
    within universe (Dependencies metadata).

Lemma uncached_mono (universe : gset string) (st st' : State) :
  cache st ⊆ cache st' → (uncached universe st' ≤ uncached universe st)%nat.
Proof.
  intros Hsub. apply subseteq_size. apply subseteq_dom in Hsub.
  intros u. rewrite !elem_of_difference. intros [Hu Hnot]. split; [done |].
  intros Hin. apply Hnot. by apply Hsub.
Qed.

Lemma uncached_stored (universe : gset string) (st st1 : State) (w : World)
    (uri : string) (metadata : Metadata) :
  uri ∈ universe → cache st !! uri = None → cache st1 = cache st →
  (uncached universe (stored st1 w uri metadata) < uncached universe st)%nat.
Proof.
  intros Hin Hmiss Hcache. apply subset_size. unfold stored. cbn.
  rewrite Hcache, dom_insert_L.
  apply not_elem_of_dom in Hmiss. split.
  - intros u. rewrite !elem_of_difference, elem_of_union. intros [Hu Hnot].
    split; [done |]. intros Hdom. apply Hnot. by right.
  - intros Hback. specialize (Hback uri). rewrite !elem_of_difference in Hback.
    destruct Hback as [_ Hnot]; [done |].
    apply Hnot. apply elem_of_union. left. by apply elem_of_singleton.
Qed.

Definition returns (Resolve_rec : gmap string Dependency → MF (gmap string Metadata))
    (universe : gset string) (depth : nat) : Prop :=
  ∀ dependencies st,
    within universe dependencies → (uncached universe st < depth)%nat →
    ∃ out st', Resolve_rec dependencies st = Some (out, st').

Lemma Resolve_visit_returns
    (Resolve_rec : gmap string Dependency → MF (gmap string Metadata))
    (universe : gset string) (depth : nat)
    (dependency : Dependency) (result : gmap string Metadata) (st : State) :
  range_visits_all → finite_graph universe →
  returns Resolve_rec universe depth →
  Uri dependency ∈ universe → (uncached universe st ≤ depth)%nat →
  ∃ out st', Resolve_visit Resolve_rec r dependency result st = Some (out, st').
Proof.
  intros Hrange Hfinite Hrec Hin Hfuel.
  destruct (cache st !! Uri dependency) as [cached|] eqn:Hlook.
  { rewrite (Resolve_visit_hit _ _ _ _ _ Hlook). eauto. }
  rewrite (Resolve_visit_miss _ _ _ _ Hlook). cbn zeta.
  destruct (ResolveMetadata_with r _ _ _ _) as [[metadata|err|p] st1] eqn:Hfetch;
    [| eauto | eauto].
  pose proof (Hfinite _ _ _ _ _ _ Hfetch) as Hdeps.
  apply ResolveMetadata_with_step in Hfetch as [Hcache _]. cbn in Hcache.
  pose proof (Hrange Dependency (Dependencies metadata) (world st1)) as Hperm.
  destruct (go_range Dependency (Dependencies metadata) (world st1)) as [entries w].
  cbn in Hperm.
  destruct (0 <? size _)%nat; [| eauto].
  edestruct Hrec as (sub_out & st3 & Hsub).
  - intros k d Hd. cbn in Hd.
    apply (backfill_names_Uri _ _ _ _ Hperm) in Hd as (d0 & Hd0 & ->). eauto.
  - eapply Nat.lt_le_trans; [| exact Hfuel].
    by apply uncached_stored.
  - rewrite Hsub. destruct sub_out as [subs|err|p]; [| eauto | eauto].
    destruct (go_range Metadata subs (world st3)) as [entries2 w3]. eauto.
Qed.

Lemma Resolve_loop_returns
    (Resolve_rec : gmap string Dependency → MF (gmap string Metadata))
    (universe : gset string) (depth : nat) :
  range_visits_all → finite_graph universe →
  sound Resolve_rec → returns Resolve_rec universe depth →
  ∀ (entries : list (string * Dependency)) (result : gmap string Metadata) (st : State),
    (∀ d, visits entries d → Uri d ∈ universe) →
    result ⊆ cache st →
    (uncached universe st ≤ depth)%nat →
    ∃ out st', Resolve_loop Resolve_rec r entries result st = Some (out, st').
Proof.
  intros Hrange Hfinite Hsound Hrec.
  induction entries as [|[k dependency] rest IH]; intros result st Hin Hres Hfuel;
    [cbn; eauto |].
  cbn.
  destruct (Resolve_visit_returns Resolve_rec universe depth dependency result st)
    as (out1 & st1 & Hvisit); try done.
  { apply Hin. apply visits_cons. by left. }
  rewrite Hvisit.
  destruct (Resolve_visit_sound _ k _ _ _ _ _ Hrange Hsound Hres Hvisit)
    as (new1 & Hsteps1 & _ & Hcollects1).
  destruct out1 as [result1|err|p]; [| eauto | eauto].
  apply IH.
  - intros d Hd. apply Hin. apply visits_cons. by right.
  - by apply (Hcollects1 result1 eq_refl).
  - etrans; [apply (uncached_mono universe st st1), Hsteps1 | done].
Qed.

(** With a finite dependency graph, [Resolve] returns once its depth
    exceeds the number of uncached URIs. *)
Lemma Resolve_returns (universe : gset string) (depth : nat) :
  range_visits_all → finite_graph universe →
  returns (Resolve depth r) universe depth.
Proof.
  intros Hrange Hfinite.
  induction depth as [|depth IH]; intros dependencies st Hdeps Hfuel; [lia |].
  rewrite Resolve_unfold.
  pose proof (Hrange Dependency dependencies (world st)) as Hperm.
  destruct (go_range Dependency dependencies (world st)) as [entries w]. cbn in Hperm.
  apply (Resolve_loop_returns _ universe depth); try done.
  - by apply Resolve_sound.
  - intros d [k Hd]. rewrite Hperm in Hd. apply elem_of_map_to_list in Hd. eauto.
  - apply map_empty_subseteq.
  - cbn. unfold uncached in *. cbn. lia.
Qed.

(** *** Single fetch, cycles, and failed fetches *)

(** How often the metadata of [u] was fetched in a stretch of the log. *)
Definition times_fetched (u : string) (new : list LogEntry) : nat :=
  length (filter (λ x, x = u) (fetched new)).

Lemma filter_eq_absent (u : string) (l : list string) :
  u ∉ l → filter (λ x, x = u) l = [].
Proof.
  induction l as [|x l IH]; intros Hu; [done |].
  apply not_elem_of_cons in Hu as [Hne Hu].
  rewrite filter_cons. destruct (decide (x = u)) as [->|_]; [done | by apply IH].
Qed.

Lemma NoDup_filter_eq_length (u : string) (l : list string) :
  NoDup l → u ∈ l → length (filter (λ x, x = u) l) = 1%nat.
Proof.
  induction 1 as [|x l Hx Hnd IH]; intros Hu; [by apply elem_of_nil in Hu |].
  rewrite filter_cons. destruct (decide (x = u)) as [->|Hne].
  - by rewrite filter_eq_absent.
  - apply elem_of_cons in Hu as [->|Hu]; [done | by apply IH].
Qed.

(** The state in which a visit ends when the fetch for [dependency]
    fails after the GET left the world in [w]. *)
Definition failed_fetch (st : State) (dependency : Dependency) (w : World) : State :=
  add_log
    (set_world
       (add_log st (InfoResolving (dep_Name dependency) dependency
                      (select_proto (dep_Name dependency)))) w)
    (ErrorMetadataResolving (dep_Name dependency) dependency).

(** C4: when the loop of [Resolve] reaches a dependency that is not
    cached, is routed to the HTTP transport and gets a 404 response, the
    loop stops with the error carrying the status line and the cache is
    what it was, so it has no entry for that URI.  And whenever a run of
    [Resolve] logged a failed metadata fetch, the run returned an error
    and the cache has no entry for the URI of that fetch. *)
Theorem Resolve_propagates_http_404 :
  range_visits_all →
  (∀ (Resolve_rec : gmap string Dependency → MF (gmap string Metadata))
     (k : string) (dependency : Dependency) (rest : list (string * Dependency))
     (result : gmap string Metadata) (st : State)
     (u : URL) (resp : Response) (w' : World),
     cache st !! Uri dependency = None →
     select_proto (dep_Name dependency) = HTTP →
     url_Parse (Uri dependency) = inr u →
     http_Get (request_url (httpResolver r) u
                 (Contains (dep_Name dependency) ".plain")) (world st)
     = (inr resp, w') →
     StatusCode resp = 404%Z →
     Resolve_loop Resolve_rec r ((k, dependency) :: rest) result st
     = Some (Err (errorString ("Http get Error status: " ++ Status resp)%string),
             failed_fetch st dependency w')
     ∧ cache (failed_fetch st dependency w') = cache st
     ∧ cache (failed_fetch st dependency w') !! Uri dependency = None)
  ∧ (∀ (depth : nat) (dependencies : gmap string Dependency) (st st' : State)
       (out : outcome (gmap string Metadata)),
       Resolve depth r dependencies st = Some (out, st') →
       ∃ new, logged st' = logged st ++ new
              ∧ ∀ d, d ∈ failed new → is_Err out ∧ cache st' !! Uri d = None).
Proof.
  intros Hrange. split.
  - intros Resolve_rec k dependency rest result st u resp w'
      Hmiss Hproto Hparse Hget Hstatus.
    split; [| by split].
    cbn. rewrite (Resolve_visit_miss _ _ _ _ Hmiss). cbn zeta.
    rewrite Hproto. cbn.
    erewrite HttpResolver_ResolveMetadata_status_above_300; eauto; [| lia].
    unfold failed_fetch. by rewrite Hproto.
  - intros depth dependencies st st' out Hrun.
    destruct (Resolve_sound _ Hrange _ _ _ _ Hrun)
      as (new & (Hlog & _) & Hended & _).
    exists new. split; [done |]. intros d Hd.
    destruct out as [result|err|p]; cbn in Hended.
    + destruct Hended as (_ & _ & Hnone). rewrite Hnone in Hd.
      by apply elem_of_nil in Hd.
    + destruct Hended as (d' & Hone & Hnot). rewrite Hone in Hd.
      apply list_elem_of_singleton in Hd as ->. split; [by exists err | done].
    + rewrite Hended in Hd. by apply elem_of_nil in Hd.
Qed.

End ResolveFacts.

(** ** When [Resolve] fails, and what it asks of the network *)

(** A call to the network: [http.Get(url)] (lines 390 and 424) or
    [client.Pull(ref, withPackage)] (lines 325 and 353) on a registry
    client. *)
Inductive NetCall (C : Type) : Type :=
  | CallGet (url : string)
  | CallPull (c : C) (ref : string) (withPackage : bool).

Arguments CallGet {C} url.
Arguments CallPull {C} c ref withPackage.

(** The world keeps a record of the network calls made in it, and [calls]
    reads it: ranging over a map adds nothing to the record, a GET and a
    pull each add themselves at its end. *)
Definition records_calls {runtime : Runtime}
    (calls : World → list (NetCall registry_Client)) : Prop :=
  (∀ (V : Type) (m : gmap string V) (w : World), calls (go_range V m w).2 = calls w)
  ∧ (∀ (url : string) (w : World),
       calls (http_Get url w).2 = (calls w ++ [CallGet url])%list)
  ∧ (∀ (c : registry_Client) (ref : string) (withPackage : bool) (w : World),
       calls (registry_Pull c ref withPackage w).2
       = (calls w ++ [CallPull c ref withPackage])%list).

Section ResolveOutcome.
Context {libs : Libs} {runtime : Runtime}.
Variable r : Resolver.
Local Open Scope list_scope.
Import GoStrings.

(** The network call a metadata fetch makes: the GET of line 390 for the
    parsed URI with its scheme replaced, or the pull of line 325 for the
    reference of the URI; none when the URI has no URL or no reference. *)
Definition request_of (proto : ResolverType) (uri : string) (plain : bool)
    : option (NetCall registry_Client) :=
  match proto with
  | OCI =>
      match PklUriToRef uri with
      | inr ref => Some (CallPull (pick_client (ociResolver r) plain) ref false)
      | inl _ => None
      end
  | HTTP =>
      match url_Parse uri with
      | inr u => Some (CallGet (request_url (httpResolver r) u plain))
      | inl _ => None
      end
  end.

(** The network call of the fetch a "Resolving" message announces. *)
Definition metadata_call (e : LogEntry) : option (NetCall registry_Client) :=
  match e with
  | InfoResolving name dependency proto =>
      request_of proto (Uri dependency) (Contains name ".plain")
  | _ => None
  end.

Definition requested (entries : list LogEntry) : list (NetCall registry_Client) :=
  omap metadata_call entries.

(** [c] is a request for the metadata of the package URI [u]. *)
Definition requests (u : string) (c : NetCall registry_Client) : Prop :=
  ∃ proto plain, request_of proto u plain = Some c.

(** Every metadata fetch for a URI of [universe] succeeds, whichever
    transport and flag it is made with. *)
Definition transports_answer (universe : gset string) : Prop :=
  ∀ proto uri plain st,
    uri ∈ universe → is_Ok (ResolveMetadata_with r proto uri plain st).1.

(** A run that did not return a result ended as a metadata fetch it had
    announced ended: with the error that fetch returned, or with its
    panic. *)
Definition fails_as_a_fetch {A} (out : outcome A) (new : list LogEntry) : Prop :=
  match out with
  | Ok _ => True
  | Err e =>
      ∃ name dependency st0 st1,
        Uri dependency ∈ fetched new
        ∧ ResolveMetadata_with r (select_proto name) (Uri dependency)
            (Contains name ".plain") st0 = (Err e, st1)
  | Panic p =>
      ∃ name dependency st0 st1,
        Uri dependency ∈ fetched new
        ∧ ResolveMetadata_with r (select_proto name) (Uri dependency)
            (Contains name ".plain") st0 = (Panic p, st1)
  end.

(** What a transport does to the record of network calls. *)
Lemma ResolveMetadata_with_calls (calls : World → list (NetCall registry_Client))
    (proto : ResolverType) (uri : string) (plain : bool) (st st' : State)
    (out : outcome Metadata) :
  records_calls calls →
  ResolveMetadata_with r proto uri plain st = (out, st') →
  calls (world st') = calls (world st) ++ option_list (request_of proto uri plain)
  ∧ (is_Ok out → is_Some (request_of proto uri plain)).
Proof.
  intros (_ & Hget & Hpull) Hrun. destruct proto; cbn in Hrun |- *.
  - unfold OciResolver_ResolveMetadata, bind, with_world, lift_result, ret, fail, panic
      in Hrun.
    destruct (PklUriToRef uri) as [e|ref].
    { injection Hrun as <- <-. rewrite app_nil_r. split; [done | intros [? [=]]]. }
    pose proof (Hpull (pick_client (ociResolver r) plain) ref false (world st)) as Hw.
    destruct (registry_Pull _ ref false (world st)) as [[e|result] w1]; cbn in Hw.
    { injection Hrun as <- <-. cbn. split; [done | eauto]. }
    destruct (json_Unmarshal (pull_Metadata result)) as [e|[doc|]];
      injection Hrun as <- <-; cbn; (split; [done | eauto]).
  - unfold HttpResolver_ResolveMetadata, bind, with_world, lift_result, ret, fail,
      panic, log in Hrun.
    destruct (url_Parse uri) as [e|u].
    { injection Hrun as <- <-. cbn. rewrite app_nil_r. split; [done | intros [? [=]]]. }
    pose proof (Hget (request_url (httpResolver r) u plain) (world st)) as Hw.
    unfold request_url in Hw |- *.
    destruct (http_Get _ (world st)) as [[e|resp] w1]; cbn in Hw.
    { injection Hrun as <- <-. cbn. split; [done | eauto]. }
    destruct (StatusCode resp >? 300)%Z;
      [injection Hrun as <- <-; cbn; split; [done | eauto] |].
    destruct (Body resp) as [e|body];
      [injection Hrun as <- <-; cbn; split; [done | eauto] |].
    destruct (json_Unmarshal body) as [e|[doc|]];
      injection Hrun as <- <-; cbn; (split; [done | eauto]).
Qed.

(** Log entries that announce no fetch stand for no network call. *)
Lemma requested_none (entries : list LogEntry) :
  fetched entries = [] → requested entries = [].
Proof.
  induction entries as [|e rest IH]; [done |].
  destruct e; cbn; try done; exact IH.
Qed.

(** *** What is observed of a run *)

(** From [st] to [st'] the log grew by [new]: every fetch announced was
    for a URI of [universe]; a failure is the failure of one of these
    fetches; after a success every announced fetch made its request; and
    the network calls made are the requests of the announced fetches, in
    the order of the announcements. *)
Definition observed {A} (universe : gset string) (st : State) (out : outcome A)
    (st' : State) (new : list LogEntry) : Prop :=
  logged st' = logged st ++ new
  ∧ (∀ u, u ∈ fetched new → u ∈ universe)
  ∧ fails_as_a_fetch out new
  ∧ (is_Ok out → Forall2 requests (fetched new) (requested new))
  ∧ ∀ calls, records_calls calls →
      calls (world st') = calls (world st) ++ requested new.

Lemma observed_refl {A} (universe : gset string) (st : State) (a : A) :
  observed universe st (Ok a) st [].
Proof.
  split; [by rewrite app_nil_r |].
  split; [intros u Hu; by apply elem_of_nil in Hu |].
  split; [done |]. split; [constructor |].
  intros calls _. by rewrite app_nil_r.
Qed.

Lemma fails_as_a_fetch_later {A} (out : outcome A) (new1 new2 : list LogEntry) :
  fails_as_a_fetch out new2 → fails_as_a_fetch out (new1 ++ new2).
Proof.
  destruct out as [a|e|p]; [done | |];
    intros (name & d & st0 & st1 & Hin & Hfetch); exists name, d, st0, st1;
    (split; [| done]); unfold fetched in *; rewrite omap_app, elem_of_app; by right.
Qed.

Lemma observed_trans {A B} (universe : gset string) (st st1 st2 : State)
    (a : A) (out : outcome B) (new1 new2 : list LogEntry) :
  observed universe st (Ok a) st1 new1 → observed universe st1 out st2 new2 →
  observed universe st out st2 (new1 ++ new2).
Proof.
  intros (Hl1 & Hin1 & _ & Hreq1 & Hcalls1) (Hl2 & Hin2 & Hfail2 & Hreq2 & Hcalls2).
  split; [by rewrite Hl2, Hl1, app_assoc |].
  split.
  { intros u Hu. unfold fetched in Hu. rewrite omap_app in Hu.
    apply elem_of_app in Hu as [Hu|Hu]; eauto. }
  split; [by apply fails_as_a_fetch_later |].
  split.
  { intros Hok. unfold fetched, requested. rewrite !omap_app.
    apply Forall2_app; [apply Hreq1; by exists a | by apply Hreq2]. }
  intros calls Hrec. rewrite (Hcalls2 calls Hrec), (Hcalls1 calls Hrec).
  unfold requested. by rewrite omap_app, app_assoc.
Qed.

(** Ranging over a map before or after a run changes nothing of what is
    observed. *)
Lemma observed_after_range {A V} (universe : gset string) (m : gmap string V)
    (st st' : State) (out : outcome A) (new : list LogEntry) :
  observed universe (set_world st (go_range V m (world st)).2) out st' new →
  observed universe st out st' new.
Proof.
  intros (Hl & Hin & Hfail & Hreq & Hcalls).
  split; [done |]. split; [done |]. split; [done |]. split; [done |].
  intros calls Hrec. rewrite (Hcalls calls Hrec). cbn.
  destruct Hrec as (Hrange & _). by rewrite Hrange.
Qed.

Lemma observed_then_range {A B V} (universe : gset string) (m : gmap string V)
    (st st' : State) (out : outcome A) (out' : outcome B) (new : list LogEntry) :
  observed universe st out st' new →
  (is_Ok out' → is_Ok out) → fails_as_a_fetch out' new →
  observed universe st out' (set_world st' (go_range V m (world st')).2) new.
Proof.
  intros (Hl & Hin & Hfail & Hreq & Hcalls) Hok Hfail'.
  split; [done |]. split; [done |]. split; [done |]. split; [eauto |].
  intros calls Hrec. cbn. rewrite <- (Hcalls calls Hrec).
  destruct Hrec as (Hrange & _). by rewrite Hrange.
Qed.

(** The announcement of a fetch and the fetch. *)
Lemma fetch_observed (universe : gset string) (dependency : Dependency)
    (st st1 : State) (fetch_out : outcome Metadata) :
  Uri dependency ∈ universe →
  ResolveMetadata_with r (select_proto (dep_Name dependency)) (Uri dependency)
    (Contains (dep_Name dependency) ".plain")
    (add_log st (InfoResolving (dep_Name dependency) dependency
                   (select_proto (dep_Name dependency))))
  = (fetch_out, st1) →
  ∃ new, observed universe st fetch_out st1 new ∧ fetched new = [Uri dependency].
Proof.
  intros Hin Hfetch.
  destruct (ResolveMetadata_with_step r _ _ _ _ _ _ Hfetch)
    as [_ (extra & Hlog & Hnone & _)].
  cbn in Hlog.
  set (info := InfoResolving (dep_Name dependency) dependency
                 (select_proto (dep_Name dependency))) in *.
  exists (info :: extra).
  assert (Hfetched : fetched (info :: extra) = [Uri dependency]).
  { unfold fetched in *. cbn. by rewrite Hnone. }
  assert (Hrequested : requested (info :: extra)
            = option_list (request_of (select_proto (dep_Name dependency))
                             (Uri dependency) (Contains (dep_Name dependency) ".plain"))).
  { change (requested (info :: extra))
      with (from_option (λ c, c :: requested extra) (requested extra) (metadata_call info)).
    rewrite (requested_none extra Hnone). cbn.
    by destruct (request_of _ _ _). }
  split; [| done]. unfold observed. rewrite Hfetched, Hrequested.
  split; [by rewrite Hlog, <- app_assoc |].
  split; [intros u Hu; by apply list_elem_of_singleton in Hu as -> |].
  split.
  { destruct fetch_out as [metadata|e|p]; [done | |];
      exists (dep_Name dependency), dependency, (add_log st info), st1;
      rewrite Hfetched; (split; [by apply list_elem_of_singleton | done]). }
  split.
  { intros Hok.
    assert (Hsome : is_Some (request_of (select_proto (dep_Name dependency))
                               (Uri dependency) (Contains (dep_Name dependency) ".plain"))).
    { destruct Hok as [metadata ->]. clear - Hfetch.
      destruct (select_proto (dep_Name dependency)); cbn in Hfetch |- *.
      - unfold OciResolver_ResolveMetadata, bind, lift_result, fail in Hfetch.
        destruct (PklUriToRef (Uri dependency)); [discriminate | eauto].
      - unfold HttpResolver_ResolveMetadata, bind, log, fail in Hfetch.
        destruct (url_Parse (Uri dependency)); [discriminate | eauto]. }
    destruct Hsome as [c Hc]. rewrite Hc. cbn.
    constructor; [| constructor]. by exists (select_proto (dep_Name dependency)),
      (Contains (dep_Name dependency) ".plain"). }
  intros calls Hrec.
  by destruct (ResolveMetadata_with_calls calls _ _ _ _ _ _ Hrec Hfetch) as [-> _].
Qed.

Definition observes (universe : gset string)
    (Resolve_rec : gmap string Dependency → MF (gmap string Metadata)) : Prop :=
  ∀ dependencies st out st',
    within universe dependencies →
    Resolve_rec dependencies st = Some (out, st') →
    ∃ new, observed universe st out st' new.

Lemma Resolve_visit_observed
    (Resolve_rec : gmap string Dependency → MF (gmap string Metadata))
    (universe : gset string) (dependency : Dependency)
    (result : gmap string Metadata) (st st' : State)
    (out : outcome (gmap string Metadata)) :
  range_visits_all → finite_graph r universe →
  observes universe Resolve_rec →
  Uri dependency ∈ universe →
  Resolve_visit Resolve_rec r dependency result st = Some (out, st') →
  ∃ new, observed universe st out st' new.
Proof.
  intros Hrange Hfinite Hrec Hin Hrun.
  destruct (cache st !! Uri dependency) as [cached|] eqn:Hlook.
  { rewrite (Resolve_visit_hit r _ _ _ _ _ Hlook) in Hrun. injection Hrun as <- <-.
    exists []. apply observed_refl. }
  rewrite (Resolve_visit_miss r _ _ _ _ Hlook) in Hrun. cbn zeta in Hrun.
  destruct (ResolveMetadata_with r _ _ _ _) as [fetch_out st1] eqn:Hfetch.
  destruct (fetch_observed universe dependency st st1 fetch_out Hin Hfetch)
    as (new1 & Hobs1 & Hfetched1).
  destruct fetch_out as [metadata|err|p].
  2:{ (* the fetch returned an error *)
    injection Hrun as <- <-.
    exists (new1 ++ [ErrorMetadataResolving (dep_Name dependency) dependency]).
    destruct Hobs1 as (Hl & Hin1 & Hfail & _ & Hcalls).
    assert (Hf : fetched (new1 ++ [ErrorMetadataResolving (dep_Name dependency) dependency])
                 = fetched new1)
      by (unfold fetched; rewrite omap_app; cbn; by rewrite app_nil_r).
    assert (Hq : requested (new1 ++ [ErrorMetadataResolving (dep_Name dependency) dependency])
                 = requested new1)
      by (unfold requested; rewrite omap_app; cbn; by rewrite app_nil_r).
    unfold observed. rewrite Hq. cbn [fails_as_a_fetch]. rewrite Hf.
    split; [cbn; by rewrite Hl, <- app_assoc |].
    split; [done |]. split; [done |].
    split; [intros [? [=]] | done]. }
  2:{ (* the fetch panicked *)
    injection Hrun as <- <-. exists new1.
    destruct Hobs1 as (Hl & Hin1 & Hfail & _ & Hcalls).
    split; [done |]. split; [done |]. split; [done |].
    split; [intros [? [=]] | done]. }
  pose proof (Hfinite _ _ _ _ _ _ Hfetch) as Hdeps.
  pose proof (Hrange Dependency (Dependencies metadata) (world st1)) as Hperm.
  assert (Hobs2 : ∀ (metadata' : Metadata),
            observed universe st (Ok tt)
              (stored st1 (go_range Dependency (Dependencies metadata) (world st1)).2
                 (Uri dependency) metadata') new1).
  { intros metadata'. destruct Hobs1 as (Hl & Hin1 & _ & Hreq & Hcalls).
    split; [done |]. split; [done |]. split; [done |].
    split; [intros _; apply Hreq; by exists metadata |].
    intros calls Hcalled. cbn. rewrite <- (Hcalls calls Hcalled).
    destruct Hcalled as (Hstill & _). by rewrite Hstill. }
  destruct (go_range Dependency (Dependencies metadata) (world st1)) as [entries w].
  cbn in Hperm, Hobs2.
  set (metadata' := set_Dependencies metadata
                      (backfill_names entries (Dependencies metadata))) in *.
  specialize (Hobs2 metadata').
  set (st2 := stored st1 w (Uri dependency) metadata') in *.
  destruct (0 <? size (Dependencies metadata'))%nat.
  2:{ injection Hrun as <- <-. exists new1.
      destruct Hobs2 as (Hl & Hin1 & _ & Hreq & Hcalls).
      split; [done |]. split; [done |]. split; [done |].
      split; [intros _; apply Hreq; by exists tt | done]. }
  destruct (Resolve_rec (Dependencies metadata') st2) as [[sub_out st3]|] eqn:Hsub;
    [| discriminate].
  assert (Hdeps' : within universe (Dependencies metadata')).
  { intros k d Hd. cbn in Hd.
    apply (backfill_names_Uri _ _ _ _ Hperm) in Hd as (d0 & Hd0 & ->). eauto. }
  destruct (Hrec _ _ _ _ Hdeps' Hsub) as (new2 & Hobs3).
  pose proof (observed_trans _ _ _ _ _ _ _ _ Hobs2 Hobs3) as Hobs.
  destruct sub_out as [subs|err|p].
  2:{ injection Hrun as <- <-. by exists (new1 ++ new2). }
  2:{ injection Hrun as <- <-. by exists (new1 ++ new2). }
  exists (new1 ++ new2).
  pose proof (observed_then_range universe subs st st3 (Ok subs)
                (Ok (merge_into (go_range Metadata subs (world st3)).1
                       (<[Uri dependency := metadata']> result)))
                (new1 ++ new2) Hobs) as Hend.
  destruct (go_range Metadata subs (world st3)) as [entries2 w3].
  injection Hrun as <- <-. apply Hend; [intros _; by exists subs | done].
Qed.

Lemma Resolve_loop_observed
    (Resolve_rec : gmap string Dependency → MF (gmap string Metadata))
    (universe : gset string) :
  range_visits_all → finite_graph r universe →
  observes universe Resolve_rec →
  ∀ (entries : list (string * Dependency)) (result : gmap string Metadata)
    (st st' : State) (out : outcome (gmap string Metadata)),
    (∀ d, visits entries d → Uri d ∈ universe) →
    Resolve_loop Resolve_rec r entries result st = Some (out, st') →
    ∃ new, observed universe st out st' new.
Proof.
  intros Hrange Hfinite Hrec.
  induction entries as [|[k dependency] rest IH]; intros result st st' out Hin Hrun.
  { injection Hrun as <- <-. exists []. apply observed_refl. }
  cbn in Hrun.
  destruct (Resolve_visit Resolve_rec r dependency result st)
    as [[out1 st1]|] eqn:Hvisit; [| discriminate].
  assert (Hhead : Uri dependency ∈ universe) by (apply Hin, visits_cons; by left).
  destruct (Resolve_visit_observed _ universe _ _ _ _ _ Hrange Hfinite Hrec Hhead Hvisit)
    as (new1 & Hobs1).
  destruct out1 as [result1|err|p].
  2:{ injection Hrun as <- <-. by exists new1. }
  2:{ injection Hrun as <- <-. by exists new1. }
  destruct (IH result1 st1 st' out) as (new2 & Hobs2); [| done |].
  { intros d Hd. apply Hin, visits_cons. by right. }
  exists (new1 ++ new2). by eapply observed_trans.
Qed.

Lemma Resolve_observed (universe : gset string) (depth : nat) :
  range_visits_all → finite_graph r universe →
  observes universe (Resolve depth r).
Proof.
  intros Hrange Hfinite.
  induction depth as [|depth IH]; intros dependencies st out st' Hdeps Hrun;
    [discriminate |].
  rewrite Resolve_unfold in Hrun.
  pose proof (Hrange Dependency dependencies (world st)) as Hperm.
  pose proof (observed_after_range universe dependencies st st' out) as Hstart.
  destruct (go_range Dependency dependencies (world st)) as [entries w].
  cbn in Hperm, Hstart.
  destruct (Resolve_loop_observed _ universe Hrange Hfinite IH entries ∅
              (set_world st w) st' out) as (new & Hobs); [| done |].
  { intros d [k Hd]. rewrite Hperm in Hd. apply elem_of_map_to_list in Hd. eauto. }
  exists new. by apply Hstart.
Qed.

(** C1: on a finite dependency graph, with or without cycles, [Resolve]
    started with an empty cache returns within a recursion depth of the
    number of URIs plus one, and no URI is fetched twice.

    It returns a result whenever the transports answer.  When it does not
    return a result, a metadata fetch it made has failed: it ends with the
    error or the panic of that fetch, and after an error exactly one
    failed fetch is logged, for a URI that is not cached.

    The network calls of the run are the requests of the fetches it
    announced, one for one and in the same order.

    When it returns a result, the result holds every root, it holds every
    dependency of every metadata it holds (so all of a cycle), its URIs
    are the URIs that were fetched, each of them was fetched exactly once,
    and each fetch made exactly one network call, the request for the
    metadata of its URI. *)
Theorem Resolve_terminates_and_fetches_once
    (universe : gset string) (dependencies : gmap string Dependency) (st : State) :
  range_visits_all →
  finite_graph r universe →
  within universe dependencies →
  cache st = ∅ →
  ∃ out st' new,
    Resolve (S (size universe)) r dependencies st = Some (out, st')
    ∧ logged st' = logged st ++ new
    ∧ NoDup (fetched new)
    ∧ (transports_answer universe → is_Ok out)
    ∧ fails_as_a_fetch out new
    ∧ (is_Err out → ∃ d, failed new = [d] ∧ cache st' !! Uri d = None)
    ∧ (∀ calls, records_calls calls →
         calls (world st') = calls (world st) ++ requested new)
    ∧ ∀ result, out = Ok result →
        (∀ k d, dependencies !! k = Some d → is_Some (result !! Uri d))
        ∧ (∀ u m, result !! u = Some m →
             ∀ k d, Dependencies m !! k = Some d → is_Some (result !! Uri d))
        ∧ (∀ u, is_Some (result !! u) ↔ u ∈ fetched new)
        ∧ (∀ u, is_Some (result !! u) → times_fetched u new = 1%nat)
        ∧ Forall2 requests (fetched new) (requested new).
Proof.
  intros Hrange Hfinite Hdeps Hempty.
  destruct (Resolve_returns r universe (S (size universe)) Hrange Hfinite
              dependencies st Hdeps) as (out & st' & Hrun).
  { unfold uncached. apply Nat.lt_succ_r. apply subseteq_size.
    intros u Hu. by apply elem_of_difference in Hu as [Hu _]. }
  destruct (Resolve_sound r _ Hrange _ _ _ _ Hrun)
    as (new & (Hlog & Hnd & Hfresh & Hsub & Hnew) & Hended & Hresult).
  destruct (Resolve_observed universe _ Hrange Hfinite _ _ _ _ Hdeps Hrun)
    as (new' & Hlog' & Hwithin & Hfail & Hreq & Hcalls).
  assert (new' = new) as ->.
  { rewrite Hlog in Hlog'. by apply app_inv_head in Hlog'. }
  exists out, st', new. split; [done |]. split; [done |]. split; [done |].
  split.
  { intros Hanswer. destruct out as [result|e|p]; [by exists result | |];
      destruct Hfail as (name & d & st0 & st1 & Hin & Hfetch);
      destruct (Hanswer (select_proto name) (Uri d) (Contains name ".plain") st0
                  (Hwithin _ Hin)) as [metadata Hok];
      rewrite Hfetch in Hok; discriminate. }
  split; [done |].
  split.
  { intros [e ->]. exact Hended. }
  split; [done |].
  intros result ->. destruct (Hresult result eq_refl) as (Hres & Hcover & Hroots).
  destruct Hended as (Hall & Hclosed & _).
  assert (Hin : ∀ u, is_Some (cache st' !! u) → u ∈ fetched new).
  { intros u Hu. apply Hnew in Hu as [[x Hx]|Hu]; [| done].
    by rewrite Hempty, lookup_empty in Hx. }
  assert (Hback : ∀ u, is_Some (result !! u) → u ∈ fetched new).
  { intros u [m Hm]. apply Hin. exists m. eapply lookup_weaken; eauto. }
  split; [done |]. split.
  { intros u m Hm k d Hd.
    pose proof (lookup_weaken _ _ _ _ Hm Hres) as Hm'.
    apply Hcover, Hin. eapply Hclosed; eauto. }
  split; [intros u; split; eauto |].
  split.
  { intros u Hu. apply NoDup_filter_eq_length; [done | by apply Hback]. }
  apply Hreq. by exists result.
Qed.

End ResolveOutcome.

(** * Concrete runs *)

Import Instances GoStrings.

Definition package (name version : string) (deps : gmap string Dependency) : Metadata :=
  {| Name := name;
     PackageUri := "package://example.com/" ++ name ++ "@" ++ version;
     Version := version;
     PackageZipUrl := "https://example.com/" ++ name ++ "@" ++ version ++ ".zip";
     PackageZipChecksums := {| Sha256 := EmptyString |};
     Authors := [];
     Dependencies := deps;
     meta_ResolverType := HTTP; PlainHttp := false;
     Checksum := EmptyString; Source := [] |}.

Definition depends_on (alias name version : string) : Dependency :=
  {| Uri := "package://example.com/" ++ name ++ "@" ++ version;
     dep_Checksums := None; dep_Name := alias; ProjectFileUri := EmptyString |}.

(** A resolved set keyed by the URIs of its entries. *)
Definition keyed (ms : list Metadata) : gmap string Metadata :=
  list_to_map ((λ m, (PackageUri m, m)) <$> ms).

Definition no_docs : Libs := table_Libs [].
Definition offline : Runtime := table_Runtime [] [] [].

Definition fresh (R : Runtime) (w : @World R) : @State R :=
  @Build_State R ∅ w [].

Lemma table_range_visits_all web registry disk :
  @range_visits_all (table_Runtime web registry disk).
Proof. intros V m w. reflexivity. Qed.

Lemma release_gt_precedence docs : @precedence_order (table_Libs docs).
Proof.
  split.
  - intros [a b c]. cbn. unfold release_gt. cbn.
    rewrite !N.ltb_irrefl, !N.eqb_refl. reflexivity.
  - intros [a1 b1 c1] [a2 b2 c2] [a3 b3 c3]. cbn. unfold release_gt. cbn.
    rewrite !orb_true_iff, !andb_true_iff, !orb_true_iff, !andb_true_iff,
      !N.ltb_lt, !N.eqb_eq.
    lia.
Qed.

(** ** Package identity: a major component above 9 *)

(** C6, at a major component of 10: [MajorVersionPackage] appends [@a],
    the [%x] rendering, where a decimal rendering gives [@10]. *)
Theorem MajorVersionPackage_renders_major_10_as_a :
  @MajorVersionPackage no_docs (package "pkg" "10.0.0" ∅) = Ok "package://example.com/pkg@a"
  ∧ @MajorVersionPackage no_docs (package "pkg" "10.0.0" ∅)
    ≠ Ok ("package://example.com/pkg@" ++ fmt_d 10)
  ∧ fmt_d 10 = "10".
Proof. split; [reflexivity |]. split; [discriminate | reflexivity]. Qed.

(** Below 10 the two renderings agree. *)
Example MajorVersionPackage_major_2 :
  @MajorVersionPackage no_docs (package "pkg" "2.3.4" ∅) = Ok "package://example.com/pkg@2"
  ∧ fmt_d 2 = fmt_x 2.
Proof. split; reflexivity. Qed.

(** ** Deduplication of one package line *)

Definition pkg_lines : gmap string Metadata :=
  keyed [package "pkg" "1.0.0" ∅; package "pkg" "1.2.0" ∅; package "pkg" "2.0.0" ∅].

Definition pkg_survivors : gmap string Metadata :=
  keyed [package "pkg" "1.2.0" ∅; package "pkg" "2.0.0" ∅].

Ltac enumerate_order Hrange :=
  match goal with
  | |- context [go_range ?V ?m ?w] =>
      let Hp := fresh "Hp" in
      let entries := fresh "entries" in
      let w' := fresh "w" in
      pose proof (Hrange V m w) as Hp;
      destruct (go_range V m w) as [entries w'];
      cbn [fst] in Hp |- *;
      apply symmetry, permutations_Permutation in Hp;
      vm_compute in Hp;
      repeat (apply elem_of_cons in Hp as [->|Hp]);
      try (by apply elem_of_nil in Hp)
  end.

Ltac run_group :=
  match goal with
  | |- context [@Deduplicate_group ?L ?l ?e] =>
      let v := eval vm_compute in (@Deduplicate_group L l e) in
      change (@Deduplicate_group L l e) with v; cbv iota beta
  end.

Lemma Deduplicate_pkg_lines (R : Runtime) (st : State) :
  range_visits_all →
  (@Deduplicate no_docs R pkg_lines st).1 = Ok pkg_survivors.
Proof.
  intros Hrange. rewrite Deduplicate_unfold.
  enumerate_order Hrange; run_group; enumerate_order Hrange;
    f_equal; vm_compute; reflexivity.
Qed.

(** Precedence is numeric: 1.10.0 is kept over 1.9.0, which a comparison of
    the strings would rank higher. *)
Example Deduplicate_numeric_precedence (R : Runtime) (st : State) :
  range_visits_all →
  (@Deduplicate no_docs R
     (keyed [package "pkg" "1.9.0" ∅; package "pkg" "1.10.0" ∅]) st).1
  = Ok (keyed [package "pkg" "1.10.0" ∅]).
Proof.
  intros Hrange. rewrite Deduplicate_unfold.
  enumerate_order Hrange; run_group; enumerate_order Hrange;
    f_equal; vm_compute; reflexivity.
Qed.

(** C2: [Deduplicate] succeeds on every input whose entries all have a
    package-line key; its result is obtained by keeping, for each
    major-version package line, an entry that no entry of the line exceeds
    in semver precedence, and by keying the kept entries by their
    [PackageUri].  On pkg@1.0.0, pkg@1.2.0, pkg@2.0.0 it yields pkg@1.2.0
    and pkg@2.0.0 in every visiting order. *)
Theorem Deduplicate_keeps_greatest_per_major_line :
  (∀ (L : Libs) (R : Runtime) (dependecies : gmap string Metadata) (st : State),
     range_visits_all → precedence_order →
     ((∀ u m, dependecies !! u = Some m → is_Ok (MajorVersionPackage m)) →
      ∃ result st', Deduplicate dependecies st = (Ok result, st'))
     ∧ (∀ result st', Deduplicate dependecies st = (Ok result, st') →
          ∃ versioned, grouped_by_major dependecies versioned
                       ∧ rekeyed_by_PackageUri versioned result))
  ∧ (∀ (R : Runtime) (st : State),
       range_visits_all →
       (@Deduplicate no_docs R pkg_lines st).1 = Ok pkg_survivors).
Proof.
  split.
  - intros L R dependecies st Hrange Hord. split.
    + intros Hall. by apply Deduplicate_succeeds.
    + intros result st' Hrun. by eapply Deduplicate_meets_specification.
  - intros R st Hrange. by apply Deduplicate_pkg_lines.
Qed.

Lemma Deduplicate_keeps_greatest_per_major_line_witness :
  ((∀ u m, pkg_lines !! u = Some m → is_Ok (@MajorVersionPackage no_docs m)) →
   ∃ result st',
     @Deduplicate no_docs offline pkg_lines (fresh offline tt) = (Ok result, st'))
  ∧ (∀ result st',
       @Deduplicate no_docs offline pkg_lines (fresh offline tt) = (Ok result, st') →
       ∃ versioned, @grouped_by_major no_docs pkg_lines versioned
                    ∧ rekeyed_by_PackageUri versioned result).
Proof.
  apply (proj1 Deduplicate_keeps_greatest_per_major_line no_docs offline pkg_lines
           (fresh offline tt)).
  - apply table_range_visits_all.
  - apply release_gt_precedence.
Defined.

Lemma Deduplicate_idempotent_witness :
  @Deduplicate no_docs offline pkg_lines (fresh offline tt)
  = (Ok pkg_survivors, fresh offline tt)
  ∧ ∀ st2, ∃ st2', @Deduplicate no_docs offline pkg_survivors st2
                   = (Ok pkg_survivors, st2').
Proof.
  assert (Hrun : @Deduplicate no_docs offline pkg_lines (fresh offline tt)
                 = (Ok pkg_survivors, fresh offline tt)) by (vm_compute; reflexivity).
  split; [exact Hrun |].
  apply (@Deduplicate_idempotent no_docs offline pkg_lines pkg_survivors
           (fresh offline tt) (fresh offline tt)).
  - apply table_range_visits_all.
  - exact Hrun.
Defined.

(** ** Deduplication of an entry without a semantic version *)

Definition pkg_latest : Metadata := package "pkg" "latest" ∅.

(** An entry whose [PackageUri] has no scheme before its colon. *)
Definition pkg_no_scheme : Metadata :=
  {| Name := "pkg"; PackageUri := "://example.com/pkg@1.0.0"; Version := "1.0.0";
     PackageZipUrl := "https://example.com/pkg@1.0.0.zip";
     PackageZipChecksums := {| Sha256 := EmptyString |}; Authors := [];
     Dependencies := ∅; meta_ResolverType := HTTP; PlainHttp := false;
     Checksum := EmptyString; Source := [] |}.

(** C5 does not hold of the code for an unparseable [Version].  On the
    single entry pkg@latest, whose [PackageUri] parses and whose [Version]
    is not a semantic version, [Deduplicate] panics in [semver.MustParse]
    (line 124): it returns no error to its caller, and no result.  The
    other half of the claim holds: on the single entry with an unparseable
    [PackageUri], [Deduplicate] returns the error of [url.Parse]
    (lines 114-117 and 150). *)
Theorem Deduplicate_unparseable_version_returns_no_error :
  @unparseable_version no_docs pkg_latest
  ∧ (∃ msg, (@Deduplicate no_docs offline (keyed [pkg_latest]) (fresh offline tt)).1
            = Panic msg)
  ∧ ¬ is_Err (@Deduplicate no_docs offline (keyed [pkg_latest]) (fresh offline tt)).1
  ∧ @unparseable_uri no_docs pkg_no_scheme
  ∧ is_Err (@Deduplicate no_docs offline (keyed [pkg_no_scheme]) (fresh offline tt)).1.
Proof.
  split; [by eexists |]. split; [| split; [| split]].
  - eexists. vm_compute. reflexivity.
  - intros [e He]. vm_compute in He. discriminate.
  - by eexists.
  - eexists. vm_compute. reflexivity.
Qed.

(** The two outcomes on these two inputs, from the general statement. *)
Lemma Deduplicate_fails_on_unparseable_witness :
  (∃ msg, (@Deduplicate no_docs offline (keyed [pkg_latest]) (fresh offline tt)).1
          = Panic msg)
  ∧ (∃ e, url_parse (PackageUri pkg_no_scheme) = inl e
          ∧ (@Deduplicate no_docs offline (keyed [pkg_no_scheme]) (fresh offline tt)).1
            = Err e).
Proof.
  assert (Hsingle : ∀ (x : Metadata) (P : Metadata → Prop),
            P x → ∀ u' m, ({[PackageUri x := x]} : gmap string Metadata) !! u' = Some m → P m).
  { intros x P HP u' m Hm. by apply lookup_singleton_Some in Hm as [_ <-]. }
  destruct (@Deduplicate_fails_on_unparseable no_docs offline (keyed [pkg_latest])
              (fresh offline tt) (PackageUri pkg_latest) pkg_latest)
    as (_ & _ & Hpanic).
  { apply table_range_visits_all. }
  { vm_compute. reflexivity. }
  { right. by eexists. }
  destruct (@Deduplicate_fails_on_unparseable no_docs offline (keyed [pkg_no_scheme])
              (fresh offline tt) (PackageUri pkg_no_scheme) pkg_no_scheme)
    as (_ & Herr & _).
  { apply table_range_visits_all. }
  { vm_compute. reflexivity. }
  { left. by eexists. }
  split.
  - apply Hpanic. intros u' m Hm. revert u' m Hm.
    apply (Hsingle pkg_latest (λ m, ¬ @unparseable_uri no_docs m)).
    intros [e He]. vm_compute in He. discriminate.
  - destruct Herr as (u' & m & e & Hm & He & Hrun).
    { apply (Hsingle pkg_no_scheme (λ m, ¬ @unparseable_version no_docs m)).
      intros [e He]. vm_compute in He. discriminate. }
    revert u' m Hm He.
    apply (Hsingle pkg_no_scheme
             (λ m, url_parse (PackageUri m) = inl e
                   → ∃ e0, url_parse (PackageUri pkg_no_scheme) = inl e0
                           ∧ (@Deduplicate no_docs offline (keyed [pkg_no_scheme])
                                (fresh offline tt)).1 = Err e0)).
    intros He. exists e. split; [exact He | exact Hrun].
Defined.

(** ** The transports on concrete responses *)

Definition response (code : Z) (status body : string) : Response :=
  {| StatusCode := code; Status := status; Body := inr (list_byte_of_string body) |}.

Definition pkg_doc : Metadata := package "pkg" "1.0.0" ∅.

(** One document, served with status 300. *)
Definition one_doc : Libs := table_Libs [("<metadata of pkg@1.0.0>", Some pkg_doc)].
Definition multiple_choices : Runtime :=
  table_Runtime
    [("https://example.com/pkg@1.0.0",
      response 300 "300 Multiple Choices" "<metadata of pkg@1.0.0>")] [] [].

Lemma HttpResolver_ResolveMetadata_accepts_300_witness :
  @HttpResolver_ResolveMetadata one_doc multiple_choices {| plainHttp := false |}
    "package://example.com/pkg@1.0.0" false (fresh multiple_choices tt)
  = (Ok (@http_metadata one_doc pkg_doc false (list_byte_of_string "<metadata of pkg@1.0.0>")),
     fresh multiple_choices tt).
Proof.
  eapply (@HttpResolver_ResolveMetadata_accepts_300 one_doc multiple_choices
            {| plainHttp := false |} "package://example.com/pkg@1.0.0" false
            (fresh multiple_choices tt)).
  - vm_compute. reflexivity.
  - vm_compute. reflexivity.
  - reflexivity.
  - reflexivity.
  - vm_compute. reflexivity.
Defined.

(** An archive URL that answers 404 with an error page. *)
Definition archive_gone : Runtime :=
  table_Runtime
    [("https://example.com/pkg@1.0.0.zip", response 404 "404 Not Found" "<html>not found</html>")]
    [] [].

Lemma HttpResolver_ResolveArchive_ignores_status_witness :
  @HttpResolver_ResolveArchive archive_gone {| plainHttp := false |} pkg_doc
    (fresh archive_gone tt)
  = (Ok (list_byte_of_string "<html>not found</html>"), fresh archive_gone tt).
Proof.
  apply (@HttpResolver_ResolveArchive_ignores_status archive_gone
           {| plainHttp := false |} pkg_doc (fresh archive_gone tt)
           (response 404 "404 Not Found" "<html>not found</html>") tt).
  reflexivity.
Defined.

(** A registry that holds pkg@1.0.0. *)
Definition one_artifact : Runtime :=
  table_Runtime [] [("example.com/pkg@1.0.0",
                     {| pull_Metadata := list_byte_of_string "<metadata of pkg@1.0.0>";
                        pull_Archive := list_byte_of_string "<archive of pkg@1.0.0>" |})] [].

Definition two_clients : @OciResolver one_artifact :=
  @Build_OciResolver one_artifact default_client plain_client.

Definition pulled_pkg : Metadata :=
  set_Checksum
    (set_Source (set_ResolverType (clear_tagged pkg_doc) OCI)
       (list_byte_of_string "<metadata of pkg@1.0.0>"))
    EmptyString.

Lemma OciResolver_ResolveMetadata_leaves_PlainHttp_witness :
  PlainHttp pulled_pkg = false
  ∧ @pick_client one_artifact two_clients (PlainHttp pulled_pkg) = default_client
  ∧ ∀ st2, @OciResolver_ResolveArchive one_doc one_artifact two_clients pulled_pkg st2
           = @pull_archive_with one_doc one_artifact default_client pulled_pkg st2.
Proof.
  apply (@OciResolver_ResolveMetadata_leaves_PlainHttp one_doc one_artifact two_clients
           "package://example.com/pkg@1.0.0" true
           (fresh one_artifact tt) (fresh one_artifact tt) pulled_pkg).
  vm_compute. reflexivity.
Defined.

(** ** The cache check on a directory that cannot be read *)

Definition unreadable : Runtime :=
  table_Runtime [] [] [("/cache/package-2/example.com/pkg@1.0.0", Some ErrPermission)].

(** A resolver on a table world, with hpkl's cache directory. *)
Definition table_resolver web registry disk
    : @Resolver (table_Runtime web registry disk) :=
  @Build_Resolver (table_Runtime web registry disk)
    (@Build_OciResolver (table_Runtime web registry disk) default_client plain_client)
    {| plainHttp := false |} "/cache/package-2".

Lemma Exists_reports_stat_failure_as_cached_witness :
  (∀ st, ∃ b st', @Exists no_docs unreadable (table_resolver _ _ _) pkg_doc st = (Ok b, st'))
  ∧ @Exists no_docs unreadable (table_resolver _ _ _) pkg_doc (fresh unreadable tt)
    = (Ok true, fresh unreadable tt).
Proof.
  destruct (@Exists_reports_stat_failure_as_cached no_docs unreadable
              (table_resolver _ _ _) pkg_doc
              {| Scheme := "package"; Opaque := EmptyString; User := None;
                 Host := "example.com"; Path := "/pkg@1.0.0"; RawPath := EmptyString;
                 ForceQuery := false; RawQuery := EmptyString; Fragment := EmptyString |}
              eq_refl) as [Hnever Hstat].
  split; [exact Hnever |].
  apply (Hstat (fresh unreadable tt) ErrPermission tt); [reflexivity | discriminate].
Defined.

(** ** Resolution of a cycle: a depends on b, b depends on a *)

Definition doc_a : Metadata :=
  package "a" "1.0.0" {["b" := depends_on EmptyString "b" "1.0.0"]}.
Definition doc_b : Metadata :=
  package "b" "1.0.0" {["a" := depends_on EmptyString "a" "1.0.0"]}.

Definition cycle_docs : Libs :=
  table_Libs [("<metadata of a@1.0.0>", Some doc_a); ("<metadata of b@1.0.0>", Some doc_b)].

Definition cycle_web : list (string * Response) :=
  [("https://example.com/a@1.0.0", response 200 "200 OK" "<metadata of a@1.0.0>");
   ("https://example.com/b@1.0.0", response 200 "200 OK" "<metadata of b@1.0.0>")].

Definition cycle_world : Runtime := table_Runtime cycle_web [] [].

Definition cycle_roots : gmap string Dependency :=
  {["a" := depends_on "a" "a" "1.0.0"]}.

Definition cycle_universe : gset string :=
  {["package://example.com/a@1.0.0"; "package://example.com/b@1.0.0"]}.

(** The run: both packages are fetched, a then b, and both are in the
    result. *)
Example Resolve_cycle_run :
  match @Resolve cycle_docs cycle_world 3 (table_resolver _ _ _) cycle_roots
          (fresh cycle_world tt) with
  | Some (Ok result, st') =>
      (map_to_list result).*1
      = ["package://example.com/a@1.0.0"; "package://example.com/b@1.0.0"]
      ∧ fetched (logged st')
        = ["package://example.com/a@1.0.0"; "package://example.com/b@1.0.0"]
  | _ => False
  end.
Proof. vm_compute. split; reflexivity. Qed.

Lemma cycle_within_a : within cycle_universe (Dependencies doc_a).
Proof.
  intros k d Hd. change (Dependencies doc_a) with
    ({["b" := depends_on EmptyString "b" "1.0.0"]} : gmap string Dependency) in Hd.
  apply lookup_singleton_Some in Hd as [_ <-].
  apply elem_of_union. right. by apply elem_of_singleton.
Qed.

Lemma cycle_within_b : within cycle_universe (Dependencies doc_b).
Proof.
  intros k d Hd. change (Dependencies doc_b) with
    ({["a" := depends_on EmptyString "a" "1.0.0"]} : gmap string Dependency) in Hd.
  apply lookup_singleton_Some in Hd as [_ <-].
  apply elem_of_union. left. by apply elem_of_singleton.
Qed.

(** The same cycle in a world that is the record of the network calls
    made in it, with both documents served by both transports. *)
Definition recording_Runtime (web : list (string * Response))
    (registry : list (string * PullResult)) : Runtime :=
  {| World := list (NetCall client_id);
     registry_Client := client_id;
     go_range := fun V m w => (map_to_list m, w);
     http_Get := fun url w =>
       (match assoc url web with
        | Some resp => inr resp
        | None => inl (errorString "dial tcp: no such host")
        end, (w ++ [CallGet url])%list);
     registry_Pull := fun c ref withPackage w =>
       (match assoc ref registry with
        | Some res => inr res
        | None => inl (errorString "manifest unknown")
        end, (w ++ [CallPull c ref withPackage])%list);
     os_Stat := fun path w => (Some ErrNotExist, w) |}.

Definition artifact (metadata : string) : PullResult :=
  {| pull_Metadata := list_byte_of_string metadata; pull_Archive := [] |}.

Definition served_web : list (string * Response) :=
  [("https://example.com/a@1.0.0", response 200 "200 OK" "<metadata of a@1.0.0>");
   ("https://example.com/b@1.0.0", response 200 "200 OK" "<metadata of b@1.0.0>");
   ("http://example.com/a@1.0.0", response 200 "200 OK" "<metadata of a@1.0.0>");
   ("http://example.com/b@1.0.0", response 200 "200 OK" "<metadata of b@1.0.0>")].

Definition served_registry : list (string * PullResult) :=
  [("example.com/a@1.0.0", artifact "<metadata of a@1.0.0>");
   ("example.com/b@1.0.0", artifact "<metadata of b@1.0.0>")].

Definition served_cycle : Runtime := recording_Runtime served_web served_registry.

Definition served_resolver : @Resolver served_cycle :=
  @Build_Resolver served_cycle
    (@Build_OciResolver served_cycle default_client plain_client)
    {| plainHttp := false |} "/cache/package-2".

(** The run: it returns a result with both packages, after one GET for
    each. *)
Example Resolve_served_cycle_run :
  match @Resolve cycle_docs served_cycle 3 served_resolver cycle_roots
          (fresh served_cycle []) with
  | Some (Ok result, st') =>
      (map_to_list result).*1
      = ["package://example.com/a@1.0.0"; "package://example.com/b@1.0.0"]
      ∧ world st'
        = [CallGet "https://example.com/a@1.0.0"; CallGet "https://example.com/b@1.0.0"]
  | _ => False
  end.
Proof. vm_compute. split; reflexivity. Qed.

Lemma served_range_visits_all : @range_visits_all served_cycle.
Proof. intros V m w. reflexivity. Qed.

Lemma served_records_calls : @records_calls served_cycle (λ w, w).
Proof. repeat split. Qed.

Lemma served_finite_graph :
  @finite_graph cycle_docs served_cycle served_resolver cycle_universe.
Proof.
  intros proto uri plain st0 metadata st1 Hrun. destruct proto; cbn in Hrun.
  - unfold OciResolver_ResolveMetadata, bind, with_world, lift_result, fail, ret in Hrun.
    cbn [PklUriToRef cycle_docs table_Libs] in Hrun.
    destruct (uri_to_ref uri) as [e|ref]; [discriminate |].
    cbn [registry_Pull served_cycle recording_Runtime served_registry assoc] in Hrun.
    destruct (String.eqb ref "example.com/a@1.0.0").
    { vm_compute in Hrun. injection Hrun as <- _. exact cycle_within_a. }
    destruct (String.eqb ref "example.com/b@1.0.0").
    { vm_compute in Hrun. injection Hrun as <- _. exact cycle_within_b. }
    discriminate.
  - unfold HttpResolver_ResolveMetadata, bind, with_world, lift_result, fail, log in Hrun.
    cbn [url_Parse cycle_docs table_Libs] in Hrun.
    destruct (url_parse uri) as [e|u]; [discriminate |].
    cbn [http_Get served_cycle recording_Runtime served_web assoc] in Hrun.
    destruct (String.eqb _ "https://example.com/a@1.0.0").
    { vm_compute in Hrun. injection Hrun as <- _. exact cycle_within_a. }
    destruct (String.eqb _ "https://example.com/b@1.0.0").
    { vm_compute in Hrun. injection Hrun as <- _. exact cycle_within_b. }
    destruct (String.eqb _ "http://example.com/a@1.0.0").
    { vm_compute in Hrun. injection Hrun as <- _. exact cycle_within_a. }
    destruct (String.eqb _ "http://example.com/b@1.0.0").
    { vm_compute in Hrun. injection Hrun as <- _. exact cycle_within_b. }
    discriminate.
Qed.

Lemma served_transports_answer :
  @transports_answer cycle_docs served_cycle served_resolver cycle_universe.
Proof.
  intros proto uri plain st Huri.
  apply elem_of_union in Huri as [Huri|Huri]; apply elem_of_singleton in Huri as ->;
    destruct proto, plain; vm_compute; eexists; reflexivity.
Qed.

Lemma Resolve_terminates_and_fetches_once_witness :
  ∃ result st',
    @Resolve cycle_docs served_cycle (S (size cycle_universe)) served_resolver
      cycle_roots (fresh served_cycle []) = Some (Ok result, st')
    ∧ NoDup (fetched (logged st'))
    ∧ world st' = @requested cycle_docs served_cycle served_resolver (logged st')
    ∧ Forall2 (@requests cycle_docs served_cycle served_resolver)
        (fetched (logged st')) (world st')
    ∧ (∀ k d, cycle_roots !! k = Some d → is_Some (result !! Uri d))
    ∧ (∀ u m, result !! u = Some m →
         ∀ k d, Dependencies m !! k = Some d → is_Some (result !! Uri d))
    ∧ (∀ u, is_Some (result !! u) ↔ u ∈ fetched (logged st'))
    ∧ (∀ u, is_Some (result !! u) → times_fetched u (logged st') = 1%nat).
Proof.
  destruct (@Resolve_terminates_and_fetches_once cycle_docs served_cycle
              served_resolver cycle_universe cycle_roots (fresh served_cycle []))
    as (out & st' & new & Hrun & Hlog & Hnd & Hanswer & _ & _ & Hcalls & Hresult).
  - apply served_range_visits_all.
  - apply served_finite_graph.
  - intros k d Hd. unfold cycle_roots in Hd.
    apply lookup_singleton_Some in Hd as [_ <-].
    apply elem_of_union. left. by apply elem_of_singleton.
  - reflexivity.
  - destruct (Hanswer served_transports_answer) as [result ->].
    destruct (Hresult result eq_refl) as (Hroots & Hclosed & Huris & Honce & Hreq).
    pose proof (Hcalls (λ w, w) served_records_calls) as Hworld.
    change (world st' = @requested cycle_docs served_cycle served_resolver new) in Hworld.
    change (logged st' = new) in Hlog. rewrite <- Hlog in *.
    exists result, st'. rewrite <- Hworld in Hreq.
    exact (conj Hrun (conj Hnd (conj Hworld (conj Hreq (conj Hroots
             (conj Hclosed (conj Huris Honce))))))).
Defined.

(** ** Resolution of a dependency that answers 404 *)

Definition gone_web : list (string * Response) :=
  [("https://example.com/gone@1.0.0", response 404 "404 Not Found" "not found")].

Definition gone_world : Runtime := table_Runtime gone_web [] [].

Definition gone_roots : gmap string Dependency :=
  {["gone" := depends_on "gone" "gone" "1.0.0"]}.

Definition gone_url : URL :=
  {| Scheme := "package"; Opaque := EmptyString; User := None;
     Host := "example.com"; Path := "/gone@1.0.0"; RawPath := EmptyString;
     ForceQuery := false; RawQuery := EmptyString; Fragment := EmptyString |}.

Lemma Resolve_propagates_http_404_witness :
  (∀ rest,
     @Resolve_loop no_docs gone_world (@Resolve no_docs gone_world 1 (table_resolver _ _ _))
       (table_resolver _ _ _) (("gone", depends_on "gone" "gone" "1.0.0") :: rest) ∅
       (fresh gone_world tt)
     = Some (Err (errorString "Http get Error status: 404 Not Found"),
             failed_fetch (fresh gone_world tt) (depends_on "gone" "gone" "1.0.0") tt)
     ∧ cache (failed_fetch (fresh gone_world tt) (depends_on "gone" "gone" "1.0.0") tt)
       = ∅
     ∧ cache (failed_fetch (fresh gone_world tt) (depends_on "gone" "gone" "1.0.0") tt)
         !! "package://example.com/gone@1.0.0" = None)
  ∧ match @Resolve no_docs gone_world 2 (table_resolver _ _ _) gone_roots
            (fresh gone_world tt) with
    | Some (out, st') =>
        ∃ new, logged st' = new
               ∧ ∀ d, d ∈ failed new → is_Err out ∧ cache st' !! Uri d = None
    | None => False
    end.
Proof.
  destruct (@Resolve_propagates_http_404 no_docs gone_world (table_resolver _ _ _)
              (table_range_visits_all _ _ _)) as [Hvisit Hrun].
  split.
  - intros rest.
    apply (Hvisit _ "gone" (depends_on "gone" "gone" "1.0.0") rest ∅
             (fresh gone_world tt) gone_url
             (response 404 "404 Not Found" "not found") tt);
      reflexivity.
  - destruct (@Resolve no_docs gone_world 2 (table_resolver _ _ _) gone_roots
                (fresh gone_world tt)) as [[out st']|] eqn:Hres.
    + exact (Hrun _ _ _ _ _ Hres).
    + vm_compute in Hres. discriminate.
Defined.

(** * Further properties of the resolution engine *)

Section ResolveMemo.
Context {libs : Libs} {runtime : Runtime}.
Variable r : Resolver.
Local Open Scope list_scope.

(** The URIs a loop visits. *)
Definition uris (entries : list (string * Dependency)) : list string :=
  (λ e, Uri e.2) <$> entries.

Lemma uris_visits (entries : list (string * Dependency)) (u : string) :
  u ∈ uris entries ↔ ∃ d, visits entries d ∧ Uri d = u.
Proof.
  unfold uris. rewrite list_elem_of_fmap. split.
  - intros ([k d] & -> & Hin). exists d. split; [by exists k | done].
  - intros (d & [k Hin] & <-). by exists (k, d).
Qed.

Lemma uris_cons (k : string) (d : Dependency) (rest : list (string * Dependency)) :
  uris ((k, d) :: rest) = Uri d :: uris rest.
Proof. reflexivity. Qed.

(** A loop over cached dependencies only copies cache entries. *)
Lemma Resolve_loop_all_cached
    (Resolve_rec : gmap string Dependency → MF (gmap string Metadata))
    (entries : list (string * Dependency)) :
  ∀ (result0 : gmap string Metadata) (st : State),
    result0 ⊆ cache st →
    (∀ u, u ∈ uris entries → is_Some (cache st !! u)) →
    ∃ result,
      Resolve_loop Resolve_rec r entries result0 st = Some (Ok result, st)
      ∧ ∀ u m, result !! u = Some m
               ↔ cache st !! u = Some m ∧ (u ∈ uris entries ∨ is_Some (result0 !! u)).
Proof.
  induction entries as [|[k d] rest IH]; intros result0 st Hsub Hall.
  { exists result0. split; [done |]. intros u m. split.
    - intros Hm. split; [by eapply lookup_weaken | right; eauto].
    - intros [Hc [Hin|[x Hx]]]; [by apply elem_of_nil in Hin |].
      pose proof (lookup_weaken _ _ _ _ Hx Hsub). congruence. }
  destruct (Hall (Uri d)) as [m0 Hm0]; [apply elem_of_cons; by left |].
  cbn. rewrite (Resolve_visit_hit _ _ _ _ _ _ Hm0).
  destruct (IH (<[Uri d := m0]> result0) st) as (result & Hrun & Hspec).
  { by apply insert_subseteq_l. }
  { intros u Hu. apply Hall. apply elem_of_cons. by right. }
  exists result. split; [done |]. intros u m. rewrite Hspec.
  fold (uris rest). rewrite elem_of_cons.
  destruct (decide (Uri d = u)) as [<-|Hne].
  - rewrite lookup_insert_eq. split; intros [Hc _]; (split; [done |]); eauto.
  - rewrite lookup_insert_ne by done. split; intros [Hc [Hin|Hin]]; split;
      try done; eauto. destruct Hin as [->|Hin]; [done | eauto].
Qed.

(** X1: when every root dependency is already memoized, [Resolve] fetches
    nothing: it returns exactly the cache entries of the root URIs (the
    dependencies of those packages are not part of the result), and the
    cache and the log are what they were. *)
Theorem Resolve_of_cached_roots_only_copies
    (depth : nat) (dependencies : gmap string Dependency) (st : State) :
  range_visits_all →
  (∀ k d, dependencies !! k = Some d → is_Some (cache st !! Uri d)) →
  ∃ result w,
    Resolve (S depth) r dependencies st = Some (Ok result, set_world st w)
    ∧ ∀ u m, result !! u = Some m
             ↔ cache st !! u = Some m ∧ ∃ k d, dependencies !! k = Some d ∧ Uri d = u.
Proof.
  intros Hrange Hall. rewrite Resolve_unfold.
  pose proof (Hrange Dependency dependencies (world st)) as Hperm.
  destruct (go_range Dependency dependencies (world st)) as [entries w]. cbn in Hperm.
  assert (Hroots : ∀ u, u ∈ uris entries ↔ ∃ k d, dependencies !! k = Some d ∧ Uri d = u).
  { intros u. rewrite uris_visits. split.
    - intros (d & [k Hin] & <-). exists k, d. split; [| done].
      apply elem_of_map_to_list. by rewrite <- Hperm.
    - intros (k & d & Hd & <-). exists d. split; [| done].
      exists k. rewrite Hperm. by apply elem_of_map_to_list. }
  destruct (Resolve_loop_all_cached (Resolve depth r) entries ∅ (set_world st w))
    as (result & Hrun & Hspec).
  { apply map_empty_subseteq. }
  { intros u Hu. apply Hroots in Hu as (k & d & Hd & <-). by eapply Hall. }
  exists result, w. split; [done |]. intros u m. rewrite Hspec, <- Hroots. cbn.
  split; intros [Hc Hin]; (split; [done |]).
  - destruct Hin as [Hin|[x Hx]]; [done | by rewrite lookup_empty in Hx].
  - by left.
Qed.

(** X2: a run of [Resolve], from any cache and with any outcome, never
    removes or replaces a cache entry; when it returns a result, every entry
    of the result is the cached metadata of its URI, and every root
    dependency has an entry. *)
Theorem Resolve_keeps_cache_and_answers_from_it
    (depth : nat) (dependencies : gmap string Dependency) (st st' : State)
    (out : outcome (gmap string Metadata)) :
  range_visits_all →
  Resolve depth r dependencies st = Some (out, st') →
  cache st ⊆ cache st'
  ∧ ∀ result, out = Ok result →
      result ⊆ cache st'
      ∧ ∀ k d, dependencies !! k = Some d → is_Some (result !! Uri d).
Proof.
  intros Hrange Hrun.
  destruct (Resolve_sound r _ Hrange _ _ _ _ Hrun) as (new & Hsteps & _ & Hresult).
  split; [apply Hsteps |].
  intros result ->. destruct (Hresult result eq_refl) as (Hsub & _ & Hroots). eauto.
Qed.

(** *** Invariants of the cached metadata *)

Definition cache_all (P : Metadata → Prop) (st : State) : Prop :=
  ∀ u m, cache st !! u = Some m → P m.

(** [P] holds of whatever [Resolve] stores after a fetch: the fetched
    metadata with the names of its dependencies back-filled. *)
Definition fetch_establishes (P : Metadata → Prop) : Prop :=
  ∀ proto uri plain st metadata st1 entries w,
    ResolveMetadata_with r proto uri plain st = (Ok metadata, st1) →
    go_range Dependency (Dependencies metadata) (world st1) = (entries, w) →
    P (set_Dependencies metadata (backfill_names entries (Dependencies metadata))).

Definition preserves (P : Metadata → Prop)
    (Resolve_rec : gmap string Dependency → MF (gmap string Metadata)) : Prop :=
  ∀ dependencies st out st',
    cache_all P st → Resolve_rec dependencies st = Some (out, st') → cache_all P st'.

Lemma Resolve_visit_preserves (P : Metadata → Prop)
    (Resolve_rec : gmap string Dependency → MF (gmap string Metadata))
    (dependency : Dependency) (result : gmap string Metadata) (st st' : State)
    (out : outcome (gmap string Metadata)) :
  fetch_establishes P → preserves P Resolve_rec →
  cache_all P st →
  Resolve_visit Resolve_rec r dependency result st = Some (out, st') →
  cache_all P st'.
Proof.
  intros Hfetch Hrec Hinv Hrun.
  destruct (cache st !! Uri dependency) as [cached|] eqn:Hlook.
  { rewrite (Resolve_visit_hit _ _ _ _ _ _ Hlook) in Hrun. by injection Hrun as _ <-. }
  rewrite (Resolve_visit_miss _ _ _ _ _ Hlook) in Hrun. cbn zeta in Hrun.
  destruct (ResolveMetadata_with r _ _ _ _) as [fetch_out st1] eqn:Hget.
  pose proof (ResolveMetadata_with_step _ _ _ _ _ _ _ Hget) as [Hcache _].
  cbn in Hcache.
  assert (Hinv1 : cache_all P st1) by (intros u m; rewrite Hcache; apply Hinv).
  destruct fetch_out as [metadata|err|p].
  2:{ injection Hrun as _ <-. exact Hinv1. }
  2:{ injection Hrun as _ <-. exact Hinv1. }
  destruct (go_range Dependency (Dependencies metadata) (world st1))
    as [entries w] eqn:Horder.
  pose proof (Hfetch _ _ _ _ _ _ _ _ Hget Horder) as Hnew.
  set (metadata' := set_Dependencies metadata
                      (backfill_names entries (Dependencies metadata))) in *.
  assert (Hinv2 : cache_all P (stored st1 w (Uri dependency) metadata')).
  { intros u m Hm. unfold stored in Hm. cbn in Hm.
    destruct (decide (Uri dependency = u)) as [<-|Hne].
    - rewrite lookup_insert_eq in Hm. by injection Hm as <-.
    - rewrite lookup_insert_ne in Hm by done. by eapply Hinv1. }
  destruct (0 <? size (Dependencies metadata'))%nat;
    [| by injection Hrun as _ <-].
  destruct (Resolve_rec _ _) as [[[subs|err|p] st3]|] eqn:Hsub; try discriminate.
  - pose proof (Hrec _ _ _ _ Hinv2 Hsub) as Hinv3.
    destruct (go_range Metadata subs (world st3)) as [entries2 w3].
    by injection Hrun as _ <-.
  - injection Hrun as _ <-. by eapply Hrec.
  - injection Hrun as _ <-. by eapply Hrec.
Qed.

Lemma Resolve_loop_preserves (P : Metadata → Prop)
    (Resolve_rec : gmap string Dependency → MF (gmap string Metadata)) :
  fetch_establishes P → preserves P Resolve_rec →
  ∀ (entries : list (string * Dependency)) (result : gmap string Metadata)
    (st st' : State) (out : outcome (gmap string Metadata)),
    cache_all P st →
    Resolve_loop Resolve_rec r entries result st = Some (out, st') →
    cache_all P st'.
Proof.
  intros Hfetch Hrec.
  induction entries as [|[k d] rest IH]; intros result st st' out Hinv Hrun.
  { by injection Hrun as _ <-. }
  cbn in Hrun.
  destruct (Resolve_visit Resolve_rec r d result st) as [[out1 st1]|] eqn:Hvisit;
    [| discriminate].
  pose proof (Resolve_visit_preserves P _ _ _ _ _ _ Hfetch Hrec Hinv Hvisit) as Hinv1.
  destruct out1 as [result1|err|p].
  - by eapply IH.
  - by injection Hrun as _ <-.
  - by injection Hrun as _ <-.
Qed.

Lemma Resolve_preserves (P : Metadata → Prop) (depth : nat) :
  fetch_establishes P → preserves P (Resolve depth r).
Proof.
  intros Hfetch. induction depth as [|depth IH];
    intros dependencies st out st' Hinv Hrun; [discriminate |].
  rewrite Resolve_unfold in Hrun.
  destruct (go_range Dependency dependencies (world st)) as [entries w].
  eapply (Resolve_loop_preserves P _ Hfetch IH entries ∅ (set_world st w)); [| exact Hrun].
  exact Hinv.
Qed.

End ResolveMemo.

Section ResolveNames.
Context {libs : Libs} {runtime : Runtime}.
Variable r : Resolver.
Local Open Scope list_scope.

(** Every dependency record carries its alias in [Name]. *)
Definition names_from_keys (m : Metadata) : Prop :=
  ∀ k d, Dependencies m !! k = Some d → dep_Name d = k.

Lemma backfill_names_untouched (entries : list (string * Dependency)) :
  ∀ (deps : gmap string Dependency) (k : string),
    k ∉ entries.*1 → backfill_names entries deps !! k = deps !! k.
Proof.
  induction entries as [|[k0 d0] rest IH]; intros deps k Hk; [done |].
  cbn in Hk. apply not_elem_of_cons in Hk as [Hne Hk].
  cbn. rewrite IH by done. by rewrite lookup_insert_ne.
Qed.

Lemma backfill_names_named (entries : list (string * Dependency)) :
  ∀ (deps : gmap string Dependency) (k : string) (x : Dependency),
    k ∈ entries.*1 → backfill_names entries deps !! k = Some x → dep_Name x = k.
Proof.
  induction entries as [|[k0 d0] rest IH]; intros deps k x Hk Hx;
    [by apply elem_of_nil in Hk |].
  cbn in Hx. destruct (decide (k ∈ rest.*1)) as [Hin|Hout]; [by eapply IH |].
  rewrite backfill_names_untouched in Hx by done.
  cbn in Hk. apply elem_of_cons in Hk as [->|Hk]; [| done].
  rewrite lookup_insert_eq in Hx. by injection Hx as <-.
Qed.

Lemma backfill_names_all_named (deps : gmap string Dependency)
    (entries : list (string * Dependency)) :
  entries ≡ₚ map_to_list deps →
  ∀ k x, backfill_names entries deps !! k = Some x → dep_Name x = k.
Proof.
  intros Hperm k x Hx. eapply backfill_names_named; [| exact Hx].
  destruct (backfill_names_Uri _ _ _ _ Hperm Hx) as (d & Hd & _).
  apply list_elem_of_fmap. exists (k, d). split; [done |].
  rewrite Hperm. by apply elem_of_map_to_list.
Qed.

(** X3: [Resolve] keeps the cache free of unnamed dependencies.  If every
    cached metadata has the [Name] of each of its dependencies equal to the
    key it is stored under, the same holds after any run of [Resolve]: what
    a run adds to the cache has its names filled in from the keys. *)
Theorem Resolve_backfills_dependency_names
    (depth : nat) (dependencies : gmap string Dependency) (st st' : State)
    (out : outcome (gmap string Metadata)) :
  range_visits_all →
  cache_all names_from_keys st →
  Resolve depth r dependencies st = Some (out, st') →
  cache_all names_from_keys st'
  ∧ ∀ result u m, out = Ok result → result !! u = Some m → names_from_keys m.
Proof.
  intros Hrange Hinv Hrun.
  assert (Hinv' : cache_all names_from_keys st').
  { eapply (Resolve_preserves r names_from_keys depth); eauto.
    intros proto uri plain st0 metadata st1 entries w _ Horder k x Hx. cbn in Hx.
    pose proof (Hrange Dependency (Dependencies metadata) (world st1)) as Hperm.
    rewrite Horder in Hperm. cbn in Hperm.
    by eapply backfill_names_all_named. }
  split; [done |]. intros result u m -> Hm.
  destruct (Resolve_sound r _ Hrange _ _ _ _ Hrun) as (new & _ & _ & Hresult).
  destruct (Hresult result eq_refl) as (Hsub & _).
  eapply Hinv'. eapply lookup_weaken; eauto.
Qed.

(** The digest a transport records is the one of the bytes it retains. *)
Definition carries_digest (m : Metadata) : Prop :=
  Checksum m = GoStrings.hex_EncodeToString (sha256_Sum (Source m)).

(** X4: the metadata a transport returns is stamped: [ResolverType] names
    the transport that produced it, [Checksum] is the SHA-256 of the
    retained [Source] bytes in hexadecimal, and [PlainHttp] is the per-call
    flag for the HTTP transport and [false] for the registry transport.  The
    cache is not touched. *)
Theorem ResolveMetadata_stamps_its_result
    (proto : ResolverType) (uri : string) (plain : bool) (st st' : State)
    (metadata : Metadata) :
  ResolveMetadata_with r proto uri plain st = (Ok metadata, st') →
  meta_ResolverType metadata = proto
  ∧ carries_digest metadata
  ∧ PlainHttp metadata = match proto with OCI => false | HTTP => plain end
  ∧ cache st' = cache st.
Proof.
  intros Hrun.
  pose proof (ResolveMetadata_with_step r _ _ _ _ _ _ Hrun) as [Hcache _].
  destruct proto; cbn in Hrun.
  - unfold OciResolver_ResolveMetadata, bind, with_world, lift_result, ret, fail,
      panic in Hrun.
    destruct (PklUriToRef uri) as [e|ref]; [discriminate |].
    destruct (registry_Pull _ ref false (world st)) as [[e|result] w1];
      [discriminate |].
    unfold json_Unmarshal in Hrun.
    destruct (json_decode (pull_Metadata result)) as [e|[doc|]]; try discriminate.
    injection Hrun as <- _. done.
  - unfold HttpResolver_ResolveMetadata, bind, with_world, lift_result, ret, fail,
      panic, log in Hrun.
    destruct (url_Parse uri) as [e|u]; [discriminate |].
    destruct (http_Get _ (world st)) as [[e|resp] w1]; [discriminate |].
    destruct (StatusCode resp >? 300)%Z; [discriminate |].
    destruct (Body resp) as [e|body]; [discriminate |].
    unfold json_Unmarshal in Hrun.
    destruct (json_decode body) as [e|[doc|]]; try discriminate.
    injection Hrun as <- _. done.
Qed.

End ResolveNames.

(** * Further properties of deduplication and of the package-line key *)

Section DeduplicateMore.
Context {libs : Libs} {runtime : Runtime}.

(** X5: the result of [Deduplicate] has at most one entry per package
    line: two of its entries with the same [MajorVersionPackage] key are the
    same entry.  [Deduplicate] leaves the memo cache and the log alone,
    whatever its outcome. *)
Theorem Deduplicate_one_entry_per_line
    (dependecies : gmap string Metadata) (st st' : State)
    (out : outcome (gmap string Metadata)) :
  range_visits_all →
  Deduplicate dependecies st = (out, st') →
  (cache st' = cache st ∧ logged st' = logged st)
  ∧ ∀ result k1 m1 k2 m2,
      out = Ok result →
      result !! k1 = Some m1 → result !! k2 = Some m2 →
      MajorVersionPackage m1 = MajorVersionPackage m2 →
      k1 = k2 ∧ m1 = m2.
Proof.
  intros Hrange Hrun. split.
  - rewrite Deduplicate_unfold in Hrun.
    destruct (go_range Metadata dependecies (world st)) as [entries w1].
    destruct (Deduplicate_group entries ∅) as [versioned|e|p].
    + destruct (go_range Metadata versioned w1) as [survivors w2].
      by injection Hrun as _ <-.
    + by injection Hrun as _ <-.
    + by injection Hrun as _ <-.
  - intros result k1 m1 k2 m2 -> H1 H2 Hkey.
    destruct (Deduplicate_Ok_inv _ _ _ _ Hrange Hrun)
      as (entries & versioned & survivors & Hp1 & Hgroup & Hp2 & ->).
    pose proof (Deduplicate_group_one_per_line _ _ _ _ Hgroup one_per_line_empty)
      as [Hkept _].
    destruct (rekeyed_of_loop _ _ Hp2) as [Hres _].
    destruct (Hres _ _ H1) as [-> [key1 Hv1]].
    destruct (Hres _ _ H2) as [-> [key2 Hv2]].
    destruct (Hkept _ _ Hv1) as [_ Hk1]. destruct (Hkept _ _ Hv2) as [_ Hk2].
    assert (key1 = key2) as -> by congruence.
    assert (m1 = m2) as -> by congruence. done.
Qed.

(** Entries of one package line that neither exceeds the other are the same
    entry: no two versions of a line tie. *)
Definition no_ties (dependecies : gmap string Metadata) : Prop :=
  ∀ u1 m1 u2 m2,
    dependecies !! u1 = Some m1 → dependecies !! u2 = Some m2 →
    MajorVersionPackage m1 = MajorVersionPackage m2 →
    version_gt m1 m2 = Ok false → version_gt m2 m1 = Ok false →
    m1 = m2.

Definition distinct_package_uris (dependecies : gmap string Metadata) : Prop :=
  ∀ u1 m1 u2 m2,
    dependecies !! u1 = Some m1 → dependecies !! u2 = Some m2 →
    PackageUri m1 = PackageUri m2 → m1 = m2.

Lemma grouped_by_major_unique (dependecies v1 v2 : gmap string Metadata) :
  no_ties dependecies →
  grouped_by_major dependecies v1 → grouped_by_major dependecies v2 → v1 ⊆ v2.
Proof.
  intros Hties [Hkept1 Hseen1] [Hkept2 Hseen2].
  apply map_subseteq_spec. intros key m1 Hm1.
  destruct (Hkept1 _ _ Hm1) as ([u1 Hu1] & Hk1 & Hmax1).
  destruct (Hseen2 _ _ Hu1) as (key' & Hk' & [m2 Hm2]).
  assert (key' = key) as -> by congruence.
  destruct (Hkept2 _ _ Hm2) as ([u2 Hu2] & Hk2 & Hmax2).
  assert (m1 = m2) as ->; [| done].
  apply (Hties u1 m1 u2 m2 Hu1 Hu2).
  - congruence.
  - exact (Hmax2 _ _ Hu1 Hk1).
  - exact (Hmax1 _ _ Hu2 Hk2).
Qed.

(** X6: the order in which Go visits the maps does not show in the result
    of [Deduplicate] when no two versions of a package line tie and
    distinct entries have distinct [PackageUri]s: any two successful runs on
    the same input return the same map. *)
Theorem Deduplicate_independent_of_order
    (dependecies r1 r2 : gmap string Metadata) (st1 st1' st2 st2' : State) :
  range_visits_all → precedence_order →
  no_ties dependecies → distinct_package_uris dependecies →
  Deduplicate dependecies st1 = (Ok r1, st1') →
  Deduplicate dependecies st2 = (Ok r2, st2') →
  r1 = r2.
Proof.
  intros Hrange Hord Hties Hdistinct Hrun1 Hrun2.
  destruct (Deduplicate_meets_specification _ _ _ _ Hrange Hord Hrun1)
    as (v1 & Hg1 & Hr1).
  destruct (Deduplicate_meets_specification _ _ _ _ Hrange Hord Hrun2)
    as (v2 & Hg2 & Hr2).
  assert (v1 = v2) as ->.
  { apply (anti_symm (⊆)); by eapply grouped_by_major_unique. }
  assert (Hsub : ∀ ra rb, rekeyed_by_PackageUri v2 ra → rekeyed_by_PackageUri v2 rb →
                          ra ⊆ rb).
  { intros ra rb [Ha _] [Hb Hcover]. apply map_subseteq_spec. intros k m Hm.
    destruct (Ha _ _ Hm) as [-> [key Hkey]].
    destruct (Hcover _ _ Hkey) as [m' Hm'].
    destruct (Hb _ _ Hm') as [Huri [key' Hkey']].
    destruct Hg2 as [Hkept _].
    destruct (Hkept _ _ Hkey) as ([u Hu] & _). destruct (Hkept _ _ Hkey') as ([u' Hu'] & _).
    by rewrite <- (Hdistinct _ _ _ _ Hu Hu' Huri) in Hm'. }
  apply (anti_symm (⊆)); by apply Hsub.
Qed.

End DeduplicateMore.

Section IdentityMore.
Context {libs : Libs}.
Import GoStrings.

(** No [@] in a path stem. *)
Fixpoint at_free (s : string) : bool :=
  match s with
  | EmptyString => true
  | String c s' => negb (Ascii.eqb "@" c) && at_free s'
  end.

Lemma HasPrefix_refl (s : string) : HasPrefix s s = true.
Proof. induction s as [|c s IH]; [done |]. cbn. by rewrite Ascii.eqb_refl. Qed.

Lemma drop_all (s : string) : drop (String.length s) s = EmptyString.
Proof. induction s as [|c s IH]; [done | exact IH]. Qed.

(** Removing [@version] from a path that ends in it leaves the stem. *)
Lemma Replace1_trailing_version (stem version : string) :
  at_free stem = true →
  Replace1 (stem ++ "@" ++ version) ("@" ++ version) EmptyString = stem.
Proof.
  induction stem as [|c stem IH]; intros Hfree.
  - change (EmptyString ++ "@" ++ version) with ("@" ++ version).
    destruct ("@" ++ version) as [|a s] eqn:Hs; [discriminate |].
    cbn [Replace1]. rewrite HasPrefix_refl, drop_all. reflexivity.
  - change (at_free (String c stem))
      with (negb (Ascii.eqb "@" c) && at_free stem) in Hfree.
    apply andb_true_iff in Hfree as [Hc Hfree].
    apply negb_true_iff in Hc.
    change (String c stem ++ "@" ++ version) with (String c (stem ++ "@" ++ version)).
    change ("@" ++ version) with (String "@" version) in *.
    change (Replace1 (String c (stem ++ String "@" version)) (String "@" version)
              EmptyString)
      with (if (if Ascii.eqb "@" c
                then HasPrefix (stem ++ String "@" version) version else false)
            then EmptyString
                 ++ drop (String.length (String "@" version))
                      (String c (stem ++ String "@" version))
            else String c (Replace1 (stem ++ String "@" version) (String "@" version)
                             EmptyString)).
    rewrite Hc. by rewrite IH.
Qed.

(** The fields of a URL other than its scheme and its path. *)
Definition same_location (u1 u2 : URL) : Prop :=
  Opaque u1 = Opaque u2 ∧ User u1 = User u2 ∧ Host u1 = Host u2
  ∧ RawPath u1 = RawPath u2 ∧ ForceQuery u1 = ForceQuery u2
  ∧ RawQuery u1 = RawQuery u2 ∧ Fragment u1 = Fragment u2.

(** The key of a package whose path is [stem@version]: the version is
    stripped, the scheme replaced and the major component appended. *)
Lemma MajorVersionPackage_of_versioned_path
    (metadata : Metadata) (u : URL) (v : semver_Version) (stem : string) :
  url_Parse (PackageUri metadata) = inr u →
  semver_NewVersion (Version metadata) = inr v →
  Path u = stem ++ "@" ++ Version metadata →
  at_free stem = true →
  MajorVersionPackage metadata
  = Ok (URL_String (set_Path (set_Scheme u "package")
                      (stem ++ "@" ++ fmt_x (Version_Major v)))).
Proof.
  intros Hu Hv Hpath Hfree.
  rewrite (MajorVersionPackage_parsed _ _ _ Hu Hv). unfold identity_key.
  by rewrite Hpath, Replace1_trailing_version.
Qed.

(** X7: two versions of one package get the same package-line key when
    their major components agree, whatever the schemes of their URIs: for
    paths [stem@version] with no [@] in the stem, the key depends on the
    URL only through its location and stem and on the version only through
    its major component. *)
Theorem MajorVersionPackage_same_line_same_key
    (m1 m2 : Metadata) (u1 u2 : URL) (v1 v2 : semver_Version) (stem : string) :
  url_Parse (PackageUri m1) = inr u1 → url_Parse (PackageUri m2) = inr u2 →
  semver_NewVersion (Version m1) = inr v1 → semver_NewVersion (Version m2) = inr v2 →
  Path u1 = stem ++ "@" ++ Version m1 → Path u2 = stem ++ "@" ++ Version m2 →
  at_free stem = true →
  same_location u1 u2 →
  Version_Major v1 = Version_Major v2 →
  MajorVersionPackage m1 = MajorVersionPackage m2.
Proof.
  intros Hu1 Hu2 Hv1 Hv2 Hp1 Hp2 Hfree Hloc Hmajor.
  rewrite (MajorVersionPackage_of_versioned_path m1 u1 v1 stem) by done.
  rewrite (MajorVersionPackage_of_versioned_path m2 u2 v2 stem) by done.
  rewrite Hmajor. unfold set_Path, set_Scheme. cbn.
  destruct Hloc as (-> & -> & -> & -> & -> & -> & ->). reflexivity.
Qed.



End IdentityMore.

(** * The download manager (resolver.go, lines 232-295) *)

(** [os.MkdirAll], [os.WriteFile] and [filepath.Join]. *)
Class Os {runtime : Runtime} : Type := {
  os_MkdirAll : string → World → option error * World;
  os_WriteFile : string → list Byte.byte → World → option error * World;
  filepath_Join : string → string → string;
}.

(** What [Download] does that can be seen from outside, in the order it
    does it: the "Downloading" message of lines 247 and 250, and the calls
    of [os.MkdirAll] and [os.WriteFile] with their arguments. *)
Inductive DownloadEvent : Type :=
  | InfoDownloading (u : string) (proto : ResolverType)
  | CallMkdirAll (path : string)
  | CallWriteFile (path : string) (data : list Byte.byte).

Record DownloadState {runtime : Runtime} : Type := {
  resolver_state : State;
  events : list DownloadEvent;
}.

Definition DM {runtime : Runtime} (A : Type) : Type :=
  DownloadState → outcome A * DownloadState.

Definition dret {runtime : Runtime} {A} (a : A) : DM A := fun s => (Ok a, s).
Definition dfail {runtime : Runtime} {A} (e : error) : DM A := fun s => (Err e, s).

Definition dbind {runtime : Runtime} {A B} (c : DM A) (k : A → DM B) : DM B :=
  fun s =>
    match c s with
    | (Ok a, s') => k a s'
    | (Err e, s') => (Err e, s')
    | (Panic p, s') => (Panic p, s')
    end.

Notation "'let+' x ':=' c 'in' k" := (dbind c (fun x => k))
  (at level 10, x name, c at level 100, k at level 200).
Notation "'perform' c 'in' k" := (dbind c (fun _ => k))
  (at level 10, c at level 100, k at level 200).

(** A method of the resolver, run on the resolver's part of the state. *)
Definition on_resolver {runtime : Runtime} {A} (c : M A) : DM A :=
  fun s =>
    let '(out, st') := c (resolver_state s) in
    (out, {| resolver_state := st'; events := events s |}).

Definition emit {runtime : Runtime} (e : DownloadEvent) : DM unit :=
  fun s =>
    (Ok tt, {| resolver_state := resolver_state s; events := (events s ++ [e])%list |}).

(** A call that returns only an [error]. *)
Definition os_call {runtime : Runtime} (f : World → option error * World) : DM unit :=
  let+ err := on_resolver (with_world f) in
  match err with
  | Some e => dfail e
  | None => dret tt
  end.

Section DownloadManager.
Context {libs : Libs} {runtime : Runtime} {os : Os}.

Definition ResolveArchive_with (r : Resolver) (proto : ResolverType)
    (metadata : Metadata) : M (list Byte.byte) :=
  match proto with
  | OCI => OciResolver_ResolveArchive (ociResolver r) metadata
  | HTTP => HttpResolver_ResolveArchive (httpResolver r) metadata
  end.

(** [fmt.Sprintf("%s@%s.json", m.Name, m.Version)] and its [.zip] sibling. *)
Definition meta_file (m : Metadata) : string := Name m ++ "@" ++ Version m ++ ".json".
Definition archive_file (m : Metadata) : string := Name m ++ "@" ++ Version m ++ ".zip".

(** The body of the loop of [Download] for the entry [u], [m]. *)
Definition Download_visit (r : Resolver) (u : string) (m : Metadata) : DM unit :=
  let+ e := on_resolver (Exists r m) in
  if negb e then
    let+ proto :=
      match meta_ResolverType m with
      | OCI => perform emit (InfoDownloading u OCI) in dret OCI
      | HTTP => perform emit (InfoDownloading u HTTP) in dret HTTP
      end in
    let+ bytes := on_resolver (ResolveArchive_with r proto m) in
    match url_Parse u with
    | inl err => dfail err
    | inr baseUri =>
        let basePath := PklGetRelativePath (basePath r) baseUri in
        perform emit (CallMkdirAll basePath) in
        perform os_call (os_MkdirAll basePath) in
        let metaPath := filepath_Join basePath (meta_file m) in
        let archivePath := filepath_Join basePath (archive_file m) in
        perform emit (CallWriteFile metaPath (Source m)) in
        perform os_call (os_WriteFile metaPath (Source m)) in
        perform emit (CallWriteFile archivePath bytes) in
        os_call (os_WriteFile archivePath bytes)
    end
  else dret tt.

Fixpoint Download_loop (r : Resolver) (entries : list (string * Metadata)) : DM unit :=
  match entries with
  | [] => dret tt
  | (u, m) :: rest => perform Download_visit r u m in Download_loop r rest
  end.

(** [Download], for a map whose entries all point to a metadata, as the
    maps [Resolve] and [Deduplicate] return do. *)
Definition Download (r : Resolver) (dependencies : gmap string Metadata) : DM unit :=
  let+ entries := on_resolver (range dependencies) in
  Download_loop r entries.

End DownloadManager.

Section DownloadFacts.
Context {libs : Libs} {runtime : Runtime} {os : Os}.
Variable r : Resolver.
Local Open Scope list_scope.

(** A package [Download] fetched: its key, its metadata, the URL the key
    parses to and the archive bytes [ResolveArchive] returned. *)
Record Downloaded : Type := {
  dl_key : string;
  dl_meta : Metadata;
  dl_url : URL;
  dl_archive : list Byte.byte;
}.

Definition dl_dir (x : Downloaded) : string :=
  PklGetRelativePath (basePath r) (dl_url x).

(** Everything [Download] does for one package that it fetches. *)
Definition download_block (x : Downloaded) : list DownloadEvent :=
  [ InfoDownloading (dl_key x) (meta_ResolverType (dl_meta x));
    CallMkdirAll (dl_dir x);
    CallWriteFile (filepath_Join (dl_dir x) (meta_file (dl_meta x)))
      (Source (dl_meta x));
    CallWriteFile (filepath_Join (dl_dir x) (archive_file (dl_meta x)))
      (dl_archive x) ].

(** [x] records a fetch that happened: the key parses to [dl_url x] and the
    transport of the metadata returned [dl_archive x]. *)
Definition fetched_ok (x : Downloaded) : Prop :=
  url_Parse (dl_key x) = inr (dl_url x)
  ∧ ∃ st, (ResolveArchive_with r (meta_ResolverType (dl_meta x)) (dl_meta x) st).1
          = Ok (dl_archive x).

Definition of_entry (u : string) (m : Metadata) (x : Downloaded) : Prop :=
  dl_key x = u ∧ dl_meta x = m ∧ fetched_ok x.

(** The events of a visit that ended in an error: none (the check failed),
    the message alone (the fetch failed, or the key does not parse), or the
    block up to and including the call that failed. *)
Definition interrupted (u : string) (m : Metadata) (evs : list DownloadEvent) : Prop :=
  evs = []
  ∨ evs = [InfoDownloading u (meta_ResolverType m)]
  ∨ ∃ x n, of_entry u m x ∧ (2 ≤ n)%nat ∧ evs = take n (download_block x).

Lemma Exists_never_panics (m : Metadata) (st st' : State) (p : string) :
  Exists r m st ≠ (Panic p, st').
Proof.
  unfold Exists, bind, with_world, fail, ret.
  destruct (url_Parse (PackageUri m)) as [e|u]; [done |].
  destruct (os_Stat _ (world st)) as [err w]. cbn.
  destruct (errors_Is_ErrNotExist err); done.
Qed.

Lemma ResolveArchive_with_never_panics (proto : ResolverType) (m : Metadata)
    (st st' : State) (p : string) :
  ResolveArchive_with r proto m st ≠ (Panic p, st').
Proof.
  destruct proto; cbn.
  - unfold OciResolver_ResolveArchive, bind, with_world, lift_result, fail, ret.
    destruct (PklUriToRef (PackageUri m)) as [e|ref]; [done |].
    destruct (registry_Pull _ ref true (world st)) as [[e|res] w]; done.
  - unfold HttpResolver_ResolveArchive, bind, with_world, lift_result, fail, ret.
    destruct (http_Get (PackageZipUrl m) (world st)) as [[e|resp] w]; [done |].
    cbn. destruct (Body resp); done.
Qed.

Lemma Download_visit_events (u : string) (m : Metadata) (s s' : DownloadState)
    (out : outcome unit) :
  Download_visit r u m s = (out, s') →
  ∃ evs, events s' = events s ++ evs
    ∧ match out with
      | Ok _ => evs = [] ∨ ∃ x, of_entry u m x ∧ evs = download_block x
      | Err _ => interrupted u m evs
      | Panic _ => False
      end.
Proof.
  unfold Download_visit, dbind, on_resolver. intros Hrun.
  destruct (Exists r m (resolver_state s)) as [[e|err|p] st1] eqn:Hexists.
  3:{ by apply Exists_never_panics in Hexists. }
  2:{ injection Hrun as <- <-. exists []. split; [by rewrite app_nil_r | by left]. }
  destruct e; cbn [negb] in Hrun.
  { injection Hrun as <- <-. exists []. split; [by rewrite app_nil_r | by left]. }
  set (proto := meta_ResolverType m) in *.
  set (s1 := {| resolver_state := st1;
                events := events s ++ [InfoDownloading u proto] |}).
  assert (Hannounce :
    (match proto with
     | OCI => perform emit (InfoDownloading u OCI) in dret OCI
     | HTTP => perform emit (InfoDownloading u HTTP) in dret HTTP
     end) {| resolver_state := st1; events := events s |} = (Ok proto, s1)).
  { unfold s1. destruct proto; reflexivity. }
  unfold dbind in Hannounce. unfold dbind in Hrun. rewrite Hannounce in Hrun.
  cbn [resolver_state events] in Hrun.
  destruct (ResolveArchive_with r proto m (resolver_state s1))
    as [[bytes|err|p] st2] eqn:Hfetch.
  3:{ by apply ResolveArchive_with_never_panics in Hfetch. }
  2:{ injection Hrun as <- <-. exists [InfoDownloading u proto].
      split; [done | right; by left]. }
  unfold s1 in Hfetch. cbn in Hfetch. unfold s1 in Hrun. cbn [events] in Hrun.
  destruct (url_Parse u) as [err|baseUri] eqn:Hparse.
  { injection Hrun as <- <-. exists [InfoDownloading u proto].
    split; [done | right; by left]. }
  set (x := {| dl_key := u; dl_meta := m; dl_url := baseUri; dl_archive := bytes |}).
  assert (Hx : of_entry u m x).
  { split; [done |]. split; [done |]. split; [done |].
    exists st1. cbn. fold proto. by rewrite Hfetch. }
  unfold os_call, dbind, on_resolver, emit, with_world, dret, dfail in Hrun.
  cbn in Hrun.
  destruct (os_MkdirAll _ (world st2)) as [[e1|] w1]; cbn in Hrun.
  { injection Hrun as <- <-. exists (take 2 (download_block x)). cbn.
    split; [by rewrite <- app_assoc |].
    right; right. exists x, 2%nat. split; [done |]. split; [lia | done]. }
  destruct (os_WriteFile _ (Source m) w1) as [[e2|] w2]; cbn in Hrun.
  { injection Hrun as <- <-. exists (take 3 (download_block x)). cbn.
    split; [by rewrite <- !app_assoc |].
    right; right. exists x, 3%nat. split; [done |]. split; [lia | done]. }
  destruct (os_WriteFile _ bytes w2) as [[e3|] w3]; cbn in Hrun.
  { injection Hrun as <- <-. exists (download_block x). cbn.
    split; [by rewrite <- !app_assoc |].
    right; right. exists x, 4%nat. split; [done |]. split; [lia | done]. }
  injection Hrun as <- <-. exists (download_block x). cbn.
  split; [by rewrite <- !app_assoc |]. right. by exists x.
Qed.

Definition dl_entry (x : Downloaded) : string * Metadata := (dl_key x, dl_meta x).

Lemma Download_loop_events (entries : list (string * Metadata)) :
  ∀ (s s' : DownloadState) (out : outcome unit),
    Download_loop r entries s = (out, s') →
    ∃ done partial,
      events s' = events s ++ concat (download_block <$> done) ++ partial
      ∧ (dl_entry <$> done) `sublist_of` entries
      ∧ Forall fetched_ok done
      ∧ match out with
        | Ok _ => partial = []
        | Err _ => ∃ u m, (u, m) ∈ entries ∧ interrupted u m partial
        | Panic _ => False
        end.
Proof.
  induction entries as [|[u m] rest IH]; intros s s' out Hrun.
  { injection Hrun as <- <-. exists [], []. cbn. rewrite app_nil_r.
    split; [done |]. split; [constructor |]. split; [constructor | done]. }
  cbn in Hrun. unfold dbind in Hrun.
  destruct (Download_visit r u m s) as [out1 s1] eqn:Hvisit.
  destruct (Download_visit_events _ _ _ _ _ Hvisit) as (evs & Hevs & Hout1).
  destruct out1 as [[]|err|p]; [| | done].
  2:{ injection Hrun as <- <-. exists [], evs. cbn.
      split; [done |]. split; [apply sublist_nil_l |]. split; [constructor |].
      exists u, m. split; [apply elem_of_cons; by left | done]. }
  destruct (IH _ _ _ Hrun) as (done & partial & Hevents & Hsub & Hok & Hout).
  assert (Hout' : match out with
                  | Ok _ => partial = []
                  | Err _ => ∃ u0 m0, (u0, m0) ∈ (u, m) :: rest ∧ interrupted u0 m0 partial
                  | Panic _ => False
                  end).
  { destruct out as [[]|e|p]; [done | | done].
    destruct Hout as (u0 & m0 & Hin & Hint). exists u0, m0.
    split; [apply elem_of_cons; by right | done]. }
  destruct Hout1 as [->|(x & (Hkey & Hmeta & Hx) & ->)].
  - exists done, partial. rewrite Hevents, Hevs, app_nil_r.
    split; [done |]. split; [by apply sublist_cons |]. done.
  - exists (x :: done), partial. rewrite Hevents, Hevs. cbn [fmap list_fmap concat].
    split; [by rewrite <- !app_assoc |].
    split.
    { change (dl_entry <$> x :: done) with (dl_entry x :: (dl_entry <$> done)).
      unfold dl_entry at 1. rewrite Hkey, Hmeta. by apply sublist_skip. }
    split; [by constructor | done].
Qed.

Lemma Exists_keeps_cache_and_log (m : Metadata) (st st' : State) (out : outcome bool) :
  Exists r m st = (out, st') → cache st' = cache st ∧ logged st' = logged st.
Proof.
  unfold Exists, bind, with_world, fail, ret.
  destruct (url_Parse (PackageUri m)) as [e|u]; [by intros [= _ <-] |].
  destruct (os_Stat _ (world st)) as [err w]. cbn.
  destruct (errors_Is_ErrNotExist err); by intros [= _ <-].
Qed.

Lemma Download_loop_all_present (entries : list (string * Metadata)) :
  (∀ u m, (u, m) ∈ entries → ∀ st, (Exists r m st).1 = Ok true) →
  ∀ s, ∃ s', Download_loop r entries s = (Ok tt, s')
             ∧ events s' = events s
             ∧ cache (resolver_state s') = cache (resolver_state s)
             ∧ logged (resolver_state s') = logged (resolver_state s).
Proof.
  induction entries as [|[u m] rest IH]; intros Hall s; [by exists s |].
  cbn. unfold dbind at 1. unfold Download_visit, dbind at 1, on_resolver at 1.
  pose proof (Hall u m ltac:(apply elem_of_cons; by left) (resolver_state s)) as Hpresent.
  destruct (Exists r m (resolver_state s)) as [out st1] eqn:Hexists.
  cbn in Hpresent. subst out. cbn.
  destruct (Exists_keeps_cache_and_log _ _ _ _ Hexists) as [Hc Hl].
  destruct (IH (λ u' m' Hin, Hall u' m' ltac:(apply elem_of_cons; by right))
              {| resolver_state := st1; events := events s |})
    as (s' & Hrun & He & Hc' & Hl').
  exists s'. split; [done |]. cbn in *. split; [done |]. split; congruence.
Qed.

(** X9: when every package of the input is present in the cache directory,
    [Download] returns without an error and without doing anything: no
    "Downloading" message, no archive fetch, no directory created, no file
    written, and the memo cache and the log are untouched. *)
Theorem Download_skips_present_packages
    (dependencies : gmap string Metadata) (s : DownloadState) :
  range_visits_all →
  (∀ u m, dependencies !! u = Some m → ∀ st, (Exists r m st).1 = Ok true) →
  ∃ s', Download r dependencies s = (Ok tt, s')
        ∧ events s' = events s
        ∧ cache (resolver_state s') = cache (resolver_state s)
        ∧ logged (resolver_state s') = logged (resolver_state s).
Proof.
  intros Hrange Hall. unfold Download, dbind, on_resolver, range, with_world.
  pose proof (Hrange Metadata dependencies (world (resolver_state s))) as Hperm.
  destruct (go_range Metadata dependencies (world (resolver_state s))) as [entries w].
  cbn in Hperm. cbn.
  assert (Hpresent : ∀ u m, (u, m) ∈ entries → ∀ st, (Exists r m st).1 = Ok true).
  { intros u m Hin. apply (Hall u). apply elem_of_map_to_list. by rewrite <- Hperm. }
  match goal with
  | |- ∃ s', Download_loop r entries ?s0 = _ ∧ _ =>
      destruct (Download_loop_all_present entries Hpresent s0)
        as (s' & Hrun & He & Hc & Hl)
  end.
  exists s'. done.
Qed.

(** The events of a run of [Download], package by package. *)
Lemma Download_events_by_package
    (dependencies : gmap string Metadata) (s s' : DownloadState) (out : outcome unit) :
  range_visits_all →
  Download r dependencies s = (out, s') →
  ∃ done partial,
    events s' = events s ++ concat (download_block <$> done) ++ partial
    ∧ NoDup (dl_key <$> done)
    ∧ Forall (λ x, dependencies !! dl_key x = Some (dl_meta x) ∧ fetched_ok x) done
    ∧ (is_Ok out → partial = [])
    ∧ (partial = [] ∨ ∃ u m, dependencies !! u = Some m ∧ interrupted u m partial).
Proof.
  intros Hrange Hrun. unfold Download, dbind, on_resolver, range, with_world in Hrun.
  pose proof (Hrange Metadata dependencies (world (resolver_state s))) as Hperm.
  destruct (go_range Metadata dependencies (world (resolver_state s))) as [entries w].
  cbn in Hperm. cbn in Hrun.
  destruct (Download_loop_events _ _ _ _ Hrun)
    as (done & partial & Hevents & Hsub & Hok & Hout).
  assert (Hin : ∀ u m, (u, m) ∈ entries → dependencies !! u = Some m).
  { intros u m Hin. apply elem_of_map_to_list. by rewrite <- Hperm. }
  exists done, partial. split; [done |]. split; [| split; [| split]].
  - assert (Hkeys : dl_key <$> done = (dl_entry <$> done).*1).
    { rewrite <- list_fmap_compose. done. }
    rewrite Hkeys. eapply sublist_NoDup; [| by apply fmap_sublist].
    rewrite Hperm. apply NoDup_fst_map_to_list.
  - apply Forall_forall. intros x Hx. split.
    + apply Hin. eapply elem_of_sublist; [| exact Hsub].
      apply list_elem_of_fmap. by exists x.
    + by eapply (proj1 (Forall_forall _ _) Hok).
  - intros [[] ->]. exact Hout.
  - destruct out as [[]|e|p]; [by left | | done].
    destruct Hout as (u & m & Hum & Hint). right. exists u, m. eauto.
Qed.

(** X10: whatever [Download] does for a map of metadata is made of whole
    packages, in the order they are visited.  Its events are, for each
    package it fetched, the message, the creation of the directory derived
    from the map key, the write of the metadata file with the retained
    [Source] bytes and the write of the archive file with the bytes the
    transport returned; no key is fetched twice.  When it returns without
    an error there is nothing else; when it returns an error, these are
    followed by what was done for the package that failed, up to the
    failing call: nothing written before is undone. *)
Theorem Download_events_are_whole_packages
    (dependencies : gmap string Metadata) (s s' : DownloadState) (out : outcome unit) :
  range_visits_all →
  Download r dependencies s = (out, s') →
  ∃ done partial,
    events s' = events s ++ concat (download_block <$> done) ++ partial
    ∧ NoDup (dl_key <$> done)
    ∧ Forall (λ x, dependencies !! dl_key x = Some (dl_meta x) ∧ fetched_ok x) done
    ∧ match out with
      | Ok _ => partial = []
      | Err _ => ∃ u m, dependencies !! u = Some m ∧ interrupted u m partial
      | Panic _ => True
      end.
Proof.
  intros Hrange Hrun.
  destruct (Download_events_by_package _ _ _ _ Hrange Hrun)
    as (done & partial & Hevents & Hnd & Hdone & Hok & Hpartial).
  exists done, partial. split; [done |]. split; [done |]. split; [done |].
  destruct out as [[]|e|p]; [apply Hok; by exists tt | | done].
  destruct Hpartial as [->|Hint]; [| done].
  unfold Download, dbind, on_resolver, range, with_world in Hrun.
  pose proof (Hrange Metadata dependencies (world (resolver_state s))) as Hperm.
  destruct (go_range Metadata dependencies (world (resolver_state s))) as [entries w].
  cbn in Hperm, Hrun.
  destruct (Download_loop_events _ _ _ _ Hrun) as (_ & partial & _ & _ & _ & Hout).
  destruct Hout as (u & m & Hum & _). exists u, m.
  split; [| by left]. apply elem_of_map_to_list. by rewrite <- Hperm.
Qed.

(** *** Where each event of a run comes from *)





End DownloadFacts.

Section DownloadAfterDeduplicate.
Context {libs : Libs} {runtime : Runtime} {os : Os}.
Variable r : Resolver.
Local Open Scope list_scope.




End DownloadAfterDeduplicate.

(** * The application configuration (app.go) *)

(** [pklutils.LoadProject]: an error, or a pointer to the project, which
    may be nil. *)
Class Pkl {runtime : Runtime} : Type := {
  Project : Type;
  LoadProject : string → World → (error + option Project) * World;
}.

(** The fields of [AppConfig] that are set once. *)
Record AppConfig : Type := {
  cfg_PlainHttp : bool;
  CacheDir : string;
  DefaultCacheDir : string;
  WorkingDir : string;
  RootDir : string;
  Parameters : list string;
}.

(** [a.Logger.Error("Project file path: %s", projectFile)] *)
Inductive AppLogEntry : Type :=
  | ErrorProjectFilePath (projectFile : string).

(** The field [project], which [ProjectOrErr] and [Reset] assign, with the
    world and what was logged. *)
Record AppState {runtime : Runtime} {pkl : Pkl} : Type := {
  project : option Project;
  app_world : World;
  app_logged : list AppLogEntry;
}.

Section App.
Context {runtime : Runtime} {os : Os} {pkl : Pkl}.

Definition not_found (a : AppConfig) : error :=
  errorString ("PklProject file not found in the working directory " ++ WorkingDir a).

Definition ProjectOrErr (a : AppConfig) (st : AppState)
    : outcome (option Project) * AppState :=
  let projectFile := filepath_Join (WorkingDir a) "PklProject" in
  match project st with
  | None =>
      let '(stat_err, w) := os_Stat projectFile (app_world st) in
      match stat_err with
      | None =>
          let '(loaded, w') := LoadProject projectFile w in
          match loaded with
          | inl err =>
              (Err err,
               {| project := None; app_world := w';
                  app_logged := (app_logged st ++ [ErrorProjectFilePath projectFile])%list |})
          | inr proj =>
              (Ok proj,
               {| project := proj; app_world := w'; app_logged := app_logged st |})
          end
      | Some _ =>
          (Err (not_found a),
           {| project := None; app_world := w; app_logged := app_logged st |})
      end
  | Some proj => (Ok (Some proj), st)
  end.

Definition Reset (st : AppState) : AppState :=
  {| project := None; app_world := app_world st; app_logged := app_logged st |}.

(** X12: [ProjectOrErr] loads the project once.  After a call that
    returned a project, every further call returns that project and does
    nothing else (no [os.Stat], no [LoadProject], nothing logged), until
    [Reset]; after [Reset] a call consults the file system again, exactly
    as on a configuration that never loaded a project. *)
Theorem ProjectOrErr_loads_once
    (a : AppConfig) (st st' : AppState) (proj : Project) :
  ProjectOrErr a st = (Ok (Some proj), st') →
  ProjectOrErr a st' = (Ok (Some proj), st')
  ∧ ProjectOrErr a (Reset st')
    = ProjectOrErr a {| project := None; app_world := app_world st';
                        app_logged := app_logged st' |}
  ∧ project (Reset st') = None.
Proof.
  intros Hrun. split; [| split; reflexivity].
  assert (Hset : project st' = Some proj).
  { unfold ProjectOrErr in Hrun. destruct (project st) as [p0|] eqn:Hp.
    - injection Hrun as -> <-. done.
    - destruct (os_Stat _ (app_world st)) as [[e|] w]; [discriminate |].
      destruct (LoadProject _ w) as [[e|loaded] w']; [discriminate |].
      injection Hrun as -> <-. done. }
  unfold ProjectOrErr. by rewrite Hset.
Qed.

(** X13: when no project is loaded, any failure of [os.Stat] on the
    project file, whatever its kind (a permission error as well as a
    missing file), makes [ProjectOrErr] report that the file was not found
    in the working directory; [LoadProject] is not called, nothing is logged
    and no project is remembered.  And whenever [ProjectOrErr] returns an
    error, no project is remembered, so the next call tries again. *)
Theorem ProjectOrErr_reports_any_stat_failure_as_not_found
    (a : AppConfig) (st : AppState) :
  (∀ e w,
     project st = None →
     os_Stat (filepath_Join (WorkingDir a) "PklProject") (app_world st) = (Some e, w) →
     ProjectOrErr a st
     = (Err (not_found a),
        {| project := None; app_world := w; app_logged := app_logged st |}))
  ∧ (∀ e st', ProjectOrErr a st = (Err e, st') → project st = None ∧ project st' = None).
Proof.
  split.
  - intros e w Hnone Hstat. unfold ProjectOrErr. by rewrite Hnone, Hstat.
  - intros e st' Hrun. unfold ProjectOrErr in Hrun.
    destruct (project st) as [p0|]; [discriminate |].
    destruct (os_Stat _ (app_world st)) as [[e0|] w].
    + by injection Hrun as _ <-.
    + destruct (LoadProject _ w) as [[e1|loaded] w']; [| discriminate].
      by injection Hrun as _ <-.
Qed.

End App.

(** * Concrete runs of the further properties *)

(** A file system on a table world: [os.MkdirAll] and [os.WriteFile] fail
    with a permission error on the listed paths; [filepath.Join] of two
    clean segments. *)
Definition table_Os web registry disk (readonly : list string)
    : @Os (table_Runtime web registry disk) :=
  {| os_MkdirAll := fun path w =>
       (if bool_decide (path ∈ readonly) then Some ErrPermission else None, w);
     os_WriteFile := fun path _ w =>
       (if bool_decide (path ∈ readonly) then Some ErrPermission else None, w);
     filepath_Join := fun dir file => dir ++ "/" ++ file |}.

(** Projects by the path of their descriptor. *)
Definition table_Pkl web registry disk (projects : list (string * string))
    : @Pkl (table_Runtime web registry disk) :=
  {| Project := string;
     LoadProject := fun path w =>
       (match assoc path projects with
        | Some name => inr (Some name)
        | None => inl (errorString "cannot evaluate project")
        end, w) |}.

(** ** A second resolution on the same resolver *)

(** The state the resolution of the cycle leaves behind. *)
Definition cycle_resolved : @State cycle_world :=
  match @Resolve cycle_docs cycle_world 3 (table_resolver _ _ _) cycle_roots
          (fresh cycle_world tt) with
  | Some (_, st') => st'
  | None => fresh cycle_world tt
  end.

Lemma Resolve_of_cached_roots_only_copies_witness :
  ∃ result w,
    @Resolve cycle_docs cycle_world 1 (table_resolver _ _ _) cycle_roots cycle_resolved
    = Some (Ok result, set_world cycle_resolved w)
    ∧ ∀ u m, result !! u = Some m
             ↔ cache cycle_resolved !! u = Some m
               ∧ ∃ k d, cycle_roots !! k = Some d ∧ Uri d = u.
Proof.
  apply (@Resolve_of_cached_roots_only_copies cycle_docs cycle_world
           (table_resolver _ _ _) 0 cycle_roots cycle_resolved).
  - apply table_range_visits_all.
  - intros k d Hd. unfold cycle_roots in Hd.
    apply lookup_singleton_Some in Hd as [_ <-].
    eexists. vm_compute. reflexivity.
Defined.

(** The second resolution returns a alone: b, which a depends on, is in the
    cache but not in the result. *)
Example Resolve_again_returns_roots_only :
  match @Resolve cycle_docs cycle_world 1 (table_resolver _ _ _) cycle_roots
          cycle_resolved with
  | Some (Ok result, _) =>
      (map_to_list result).*1 = ["package://example.com/a@1.0.0"]
      ∧ (map_to_list (cache cycle_resolved)).*1
        = ["package://example.com/a@1.0.0"; "package://example.com/b@1.0.0"]
  | _ => False
  end.
Proof. vm_compute. split; reflexivity. Qed.

Lemma Resolve_keeps_cache_and_answers_from_it_witness :
  match @Resolve cycle_docs cycle_world 3 (table_resolver _ _ _) cycle_roots
          (fresh cycle_world tt) with
  | Some (out, st') =>
      cache (fresh cycle_world tt) ⊆ cache st'
      ∧ ∀ result, out = Ok result →
          result ⊆ cache st'
          ∧ ∀ k d, cycle_roots !! k = Some d → is_Some (result !! Uri d)
  | None => False
  end.
Proof.
  destruct (@Resolve cycle_docs cycle_world 3 (table_resolver _ _ _) cycle_roots
              (fresh cycle_world tt)) as [[out st']|] eqn:Hrun.
  - exact (@Resolve_keeps_cache_and_answers_from_it cycle_docs cycle_world
             (table_resolver _ _ _) 3 cycle_roots (fresh cycle_world tt) st' out
             (table_range_visits_all _ _ _) Hrun).
  - vm_compute in Hrun. discriminate.
Defined.

Lemma Resolve_backfills_dependency_names_witness :
  match @Resolve cycle_docs cycle_world 3 (table_resolver _ _ _) cycle_roots
          (fresh cycle_world tt) with
  | Some (out, st') =>
      cache_all names_from_keys st'
      ∧ ∀ result u m, out = Ok result → result !! u = Some m → names_from_keys m
  | None => False
  end.
Proof.
  destruct (@Resolve cycle_docs cycle_world 3 (table_resolver _ _ _) cycle_roots
              (fresh cycle_world tt)) as [[out st']|] eqn:Hrun.
  - apply (@Resolve_backfills_dependency_names cycle_docs cycle_world
             (table_resolver _ _ _) 3 cycle_roots (fresh cycle_world tt) st' out
             (table_range_visits_all _ _ _)); [| exact Hrun].
    intros u m Hm. cbn in Hm. by rewrite lookup_empty in Hm.
  - vm_compute in Hrun. discriminate.
Defined.

Lemma ResolveMetadata_stamps_its_result_witness :
  let fetched_a :=
    @http_metadata cycle_docs doc_a false (list_byte_of_string "<metadata of a@1.0.0>") in
  meta_ResolverType fetched_a = HTTP
  ∧ @carries_digest cycle_docs fetched_a
  ∧ PlainHttp fetched_a = false
  ∧ cache (fresh cycle_world tt) = cache (fresh cycle_world tt).
Proof.
  apply (@ResolveMetadata_stamps_its_result cycle_docs cycle_world
           (table_resolver _ _ _) HTTP "package://example.com/a@1.0.0" false
           (fresh cycle_world tt) (fresh cycle_world tt)).
  vm_compute. reflexivity.
Defined.

(** ** Deduplication of one package line, again *)

Lemma pkg_lines_entries (u : string) (m : Metadata) :
  pkg_lines !! u = Some m →
  m = package "pkg" "1.0.0" ∅ ∨ m = package "pkg" "1.2.0" ∅ ∨ m = package "pkg" "2.0.0" ∅.
Proof.
  intros Hm. apply elem_of_map_to_list in Hm. vm_compute in Hm.
  repeat (apply elem_of_cons in Hm as [Hm|Hm]);
    try (injection Hm as _ ->; auto; fail).
  by apply elem_of_nil in Hm.
Qed.

Lemma pkg_lines_no_ties : @no_ties no_docs pkg_lines.
Proof.
  intros u1 m1 u2 m2 H1 H2 Hkey Hle1 Hle2.
  apply pkg_lines_entries in H1 as [-> | [-> | ->]];
    apply pkg_lines_entries in H2 as [-> | [-> | ->]];
    try reflexivity; vm_compute in Hkey, Hle1, Hle2; discriminate.
Qed.

Lemma pkg_lines_distinct : distinct_package_uris pkg_lines.
Proof.
  intros u1 m1 u2 m2 H1 H2 Huri.
  apply pkg_lines_entries in H1 as [-> | [-> | ->]];
    apply pkg_lines_entries in H2 as [-> | [-> | ->]];
    try reflexivity; vm_compute in Huri; discriminate.
Qed.

Lemma pkg_lines_run :
  @Deduplicate no_docs offline pkg_lines (fresh offline tt)
  = (Ok pkg_survivors, fresh offline tt).
Proof. vm_compute. reflexivity. Qed.

Lemma Deduplicate_one_entry_per_line_witness :
  (cache (fresh offline tt) = cache (fresh offline tt)
   ∧ logged (fresh offline tt) = logged (fresh offline tt))
  ∧ ∀ result k1 m1 k2 m2,
      Ok pkg_survivors = Ok result →
      result !! k1 = Some m1 → result !! k2 = Some m2 →
      @MajorVersionPackage no_docs m1 = @MajorVersionPackage no_docs m2 →
      k1 = k2 ∧ m1 = m2.
Proof.
  apply (@Deduplicate_one_entry_per_line no_docs offline pkg_lines
           (fresh offline tt) (fresh offline tt) (Ok pkg_survivors)).
  - apply table_range_visits_all.
  - exact pkg_lines_run.
Defined.

Lemma Deduplicate_independent_of_order_witness : pkg_survivors = pkg_survivors.
Proof.
  apply (@Deduplicate_independent_of_order no_docs offline pkg_lines
           pkg_survivors pkg_survivors
           (fresh offline tt) (fresh offline tt) (fresh offline tt) (fresh offline tt)).
  - apply table_range_visits_all.
  - apply release_gt_precedence.
  - exact pkg_lines_no_ties.
  - exact pkg_lines_distinct.
  - exact pkg_lines_run.
  - exact pkg_lines_run.
Defined.

(** ** The key of two versions served under different schemes *)

Definition pkg_over_https : Metadata :=
  {| Name := "pkg"; PackageUri := "https://example.com/pkg@1.2.0"; Version := "1.2.0";
     PackageZipUrl := "https://example.com/pkg@1.2.0.zip";
     PackageZipChecksums := {| Sha256 := EmptyString |}; Authors := [];
     Dependencies := ∅; meta_ResolverType := HTTP; PlainHttp := false;
     Checksum := EmptyString; Source := [] |}.

Definition example_url (scheme path : string) : URL :=
  {| Scheme := scheme; Opaque := EmptyString; User := None;
     Host := "example.com"; Path := path; RawPath := EmptyString;
     ForceQuery := false; RawQuery := EmptyString; Fragment := EmptyString |}.

Lemma MajorVersionPackage_same_line_same_key_witness :
  @MajorVersionPackage no_docs (package "pkg" "1.0.0" ∅)
  = @MajorVersionPackage no_docs pkg_over_https.
Proof.
  apply (@MajorVersionPackage_same_line_same_key no_docs
           (package "pkg" "1.0.0" ∅) pkg_over_https
           (example_url "package" "/pkg@1.0.0") (example_url "https" "/pkg@1.2.0")
           {| major := 1; minor := 0; patch := 0 |}
           {| major := 1; minor := 2; patch := 0 |} "/pkg");
    try reflexivity.
  repeat split.
Defined.


(** ** Downloads *)

Definition zip_response (body : string) : Response := response 200 "200 OK" body.

(** A web that serves the archives of pkg@1.2.0 and pkg@2.0.0, and a cache
    directory that holds pkg@1.0.0 only. *)
Definition archive_web : list (string * Response) :=
  [("https://example.com/pkg@1.2.0.zip", zip_response "<archive of pkg@1.2.0>");
   ("https://example.com/pkg@2.0.0.zip", zip_response "<archive of pkg@2.0.0>")].

Definition one_cached : list (string * option error) :=
  [("/cache/package-2/example.com/pkg@1.0.0", None)].

Definition archive_world : Runtime := table_Runtime archive_web [] one_cached.
Definition archive_os : @Os archive_world := table_Os archive_web [] one_cached [].

Definition idle (R : Runtime) (w : @World R) : @DownloadState R :=
  @Build_DownloadState R (fresh R w) [].

Lemma Download_skips_present_packages_witness :
  ∃ s', @Download no_docs archive_world archive_os (table_resolver _ _ _)
          (keyed [pkg_doc]) (idle archive_world tt) = (Ok tt, s')
        ∧ events s' = events (idle archive_world tt)
        ∧ cache (resolver_state s') = cache (resolver_state (idle archive_world tt))
        ∧ logged (resolver_state s') = logged (resolver_state (idle archive_world tt)).
Proof.
  apply (@Download_skips_present_packages no_docs archive_world archive_os
           (table_resolver _ _ _) (keyed [pkg_doc]) (idle archive_world tt)).
  - apply table_range_visits_all.
  - intros u m Hm st. apply elem_of_map_to_list in Hm. vm_compute in Hm.
    apply elem_of_cons in Hm as [Hm|Hm]; [| by apply elem_of_nil in Hm].
    injection Hm as _ ->. reflexivity.
Defined.

Lemma Download_events_are_whole_packages_witness :
  match @Download no_docs archive_world archive_os (table_resolver _ _ _)
          pkg_survivors (idle archive_world tt) with
  | (out, s') =>
      ∃ done partial,
        events s' = (events (idle archive_world tt)
                     ++ concat (@download_block no_docs archive_world archive_os
                                  (table_resolver _ _ _) <$> done) ++ partial)%list
        ∧ NoDup (dl_key <$> done)
        ∧ Forall (λ x, pkg_survivors !! dl_key x = Some (dl_meta x)
                       ∧ @fetched_ok no_docs archive_world (table_resolver _ _ _) x) done
        ∧ match out with
          | Ok _ => partial = []
          | Err _ => ∃ u m, pkg_survivors !! u = Some m
                            ∧ @interrupted no_docs archive_world archive_os
                                (table_resolver _ _ _) u m partial
          | Panic _ => True
          end
  end.
Proof.
  destruct (@Download no_docs archive_world archive_os (table_resolver _ _ _)
              pkg_survivors (idle archive_world tt)) as [out s'] eqn:Hrun.
  exact (@Download_events_are_whole_packages no_docs archive_world archive_os
           (table_resolver _ _ _) pkg_survivors (idle archive_world tt) s' out
           (table_range_visits_all _ _ _) Hrun).
Defined.

(** The run: both archives are fetched and written next to their metadata. *)
Example Download_survivors_run :
  (@Download no_docs archive_world archive_os (table_resolver _ _ _)
     pkg_survivors (idle archive_world tt)).1 = Ok tt
  ∧ events (@Download no_docs archive_world archive_os (table_resolver _ _ _)
              pkg_survivors (idle archive_world tt)).2
    = [ InfoDownloading "package://example.com/pkg@1.2.0" HTTP;
        CallMkdirAll "/cache/package-2/example.com/pkg@1.2.0";
        CallWriteFile "/cache/package-2/example.com/pkg@1.2.0/pkg@1.2.0.json" [];
        CallWriteFile "/cache/package-2/example.com/pkg@1.2.0/pkg@1.2.0.zip"
          (list_byte_of_string "<archive of pkg@1.2.0>");
        InfoDownloading "package://example.com/pkg@2.0.0" HTTP;
        CallMkdirAll "/cache/package-2/example.com/pkg@2.0.0";
        CallWriteFile "/cache/package-2/example.com/pkg@2.0.0/pkg@2.0.0.json" [];
        CallWriteFile "/cache/package-2/example.com/pkg@2.0.0/pkg@2.0.0.zip"
          (list_byte_of_string "<archive of pkg@2.0.0>") ].
Proof. split; vm_compute; reflexivity. Qed.


(** ** The project descriptor *)

Definition work_disk : list (string * option error) :=
  [("/work/PklProject", None); ("/secret/PklProject", Some ErrPermission)].

Definition work_world : Runtime := table_Runtime [] [] work_disk.
Definition work_os : @Os work_world := table_Os [] [] work_disk [].
Definition work_pkl : @Pkl work_world :=
  table_Pkl [] [] work_disk [("/work/PklProject", "demo")].

Definition app_in (dir : string) : AppConfig :=
  {| cfg_PlainHttp := false; CacheDir := "/cache"; DefaultCacheDir := "/cache";
     WorkingDir := dir; RootDir := dir; Parameters := [] |}.

Definition unloaded : @AppState work_world work_pkl :=
  @Build_AppState work_world work_pkl None tt [].

Definition loaded : @AppState work_world work_pkl :=
  @Build_AppState work_world work_pkl (Some "demo") tt [].

Lemma ProjectOrErr_loads_once_witness :
  @ProjectOrErr work_world work_os work_pkl (app_in "/work") loaded
  = (Ok (Some "demo"), loaded)
  ∧ @ProjectOrErr work_world work_os work_pkl (app_in "/work") (Reset loaded)
    = @ProjectOrErr work_world work_os work_pkl (app_in "/work")
        {| project := None; app_world := app_world loaded;
           app_logged := app_logged loaded |}
  ∧ project (Reset loaded) = None.
Proof.
  apply (@ProjectOrErr_loads_once work_world work_os work_pkl (app_in "/work")
           unloaded loaded "demo").
  reflexivity.
Defined.

Lemma ProjectOrErr_reports_any_stat_failure_as_not_found_witness :
  @ProjectOrErr work_world work_os work_pkl (app_in "/secret") unloaded
  = (Err (errorString "PklProject file not found in the working directory /secret"),
     unloaded).
Proof.
  apply (proj1 (@ProjectOrErr_reports_any_stat_failure_as_not_found
                  work_world work_os work_pkl (app_in "/secret") unloaded)
           ErrPermission tt); reflexivity.
Defined.
